(** * Streaming relative-error quantiles sketch

    A shallow embedding of [compactor.h], [relative_error_quantiles_sketch.h]
    and of the second compactor of [streaming-quantiles/compactor.cpp],
    followed by the properties of the compactor hierarchy and of the
    query engine.

    Conventions of the embedding.
    - [uint64_t] values are integers in [Z]; every operation that can wrap
      is written with [wrap64].
    - [std::vector<T>] is a [list T]; [push_back] fails with
      [std::length_error] at [max_size()].
    - Undefined behaviour, thrown exceptions and failed assertions are the
      [Fault] outcomes of a computation.
    - [RandomBoolean()] reads the head of a stream of coin outcomes, which
      is threaded through the calls.
    - The recursion of the sketch's [Insert] is bounded by a depth [fuel];
      [OutOfFuel] is the outcome of a run cut short, and
      [Insert_terminates] gives the depth that always suffices.
    - [double] weights are powers of two and sums of them; they are kept as
      exact integers (exact in [double] below [2^53]).
    - The item type [T] comes with its [operator<]; [std::greater] is the
      same order read backwards. Where the C++ standard leaves an order
      open (equal items in [std::sort] and [std::partial_sort]) the
      embedding takes the one of a stable insertion sort; the order of the
      elements [std::partial_sort] does not sort is a parameter. *)

From Stdlib Require Import ZArith Lia List Permutation Sorted.
From stdpp Require Import list streams.

Local Open Scope Z_scope.

(** ** Machine integers and outcomes *)

Definition wrap64 (z : Z) : Z := z mod 2 ^ 64.

Inductive fault : Set :=
| PartialSortRange   (* std::partial_sort with middle past last: undefined *)
| VectorIndex        (* operator[] past the end: undefined *)
| LengthError        (* std::length_error from push_back or resize *)
| AssertFailed.      (* assert(...) evaluated to false *)

Inductive outcome (A : Type) : Type :=
| Returns (a : A)
| Fault (f : fault)
| OutOfFuel.

Arguments Returns {A} a.
Arguments Fault {A} f.
Arguments OutOfFuel {A}.

Definition bind {A B : Type} (x : outcome A) (f : A -> outcome B) : outcome B :=
  match x with
  | Returns a => f a
  | Fault e => Fault e
  | OutOfFuel => OutOfFuel
  end.

(** A loop over a vector ([std::for_each], range [for]) with a body that may fail. *)
Fixpoint for_each {A S : Type} (f : S -> A -> outcome S) (l : list A) (s : S)
  : outcome S :=
  match l with
  | [] => Returns s
  | x :: l' => bind (f s x) (for_each f l')
  end.

(** An upper bound of [std::vector<T>::max_size()] on a 64-bit target
    ([PTRDIFF_MAX / sizeof(T)] at most). *)
Definition vector_max_size : Z := 2 ^ 63 - 1.

Definition push_back {A : Type} (v : list A) (x : A) : outcome (list A) :=
  if Z.of_nat (length v) <? vector_max_size then Returns (v ++ [x])
  else Fault LengthError.

(** [std::sort] with a strict comparison, as an insertion sort. *)
Fixpoint insert_by {A : Type} (lt : A -> A -> bool) (x : A) (l : list A) : list A :=
  match l with
  | [] => [x]
  | y :: l' => if lt x y then x :: l else y :: insert_by lt x l'
  end.

Definition std_sort {A : Type} (lt : A -> A -> bool) (l : list A) : list A :=
  foldr (insert_by lt) [] l.

(** The elements at offsets 0, 2, 4, ... of a list: the walk
    [while (i < size) { out.push_back(v[i]); i += 2; }] from [i = 0]. *)
Fixpoint every_other {A : Type} (l : list A) : list A :=
  match l with
  | [] => []
  | [x] => [x]
  | x :: _ :: l' => x :: every_other l'
  end.

(** ** compactor.h *)

Module Compactor.

Record t (T : Type) : Type := mk {
  n : Z;               (* Number of sections for compaction *)
  k : Z;               (* Section size *)
  max_buffer_size : Z; (* Max buffer size *)
  C : Z;               (* Compaction schedule *)
  h : Z;               (* Position in the compaction hierarchy *)
  buffer : list T      (* Items *)
}.

Arguments mk {T}.
Arguments n {T}.
Arguments k {T}.
Arguments max_buffer_size {T}.
Arguments C {T}.
Arguments h {T}.
Arguments buffer {T}.

(** The loop [while ((c & 1) == 1) { sections_to_compact++; c >>= 1; }]. *)
Fixpoint trailing_ones_loop (fuel : nat) (c sections : Z) : Z :=
  match fuel with
  | O => sections
  | S fuel' =>
      if Z.land c 1 =? 1
      then trailing_ones_loop fuel' (Z.shiftr c 1) (sections + 1)
      else sections
  end.

Definition sections_to_compact (C : Z) : Z :=
  trailing_ones_loop 64 C 0 + 1.

Definition elements_to_compact_at (k C : Z) : Z :=
  wrap64 (sections_to_compact C * k).

(** [uint64_t i = S; if (!even && i % 2 == 0) ++i;] *)
Definition start_index (even : bool) (S : Z) : Z :=
  if negb even && (S mod 2 =? 0) then wrap64 (S + 1) else S.

Section WithItem.
Context {T : Type}.
(** [operator<] of the item type. *)
Variable T_lt : T -> T -> bool.
(** [std::ceil(std::log(double(n) / double(k)) / std::log(2))] converted
    to [uint64_t], as a function of [n] and [k]. *)
Variable log2_ceil : Z -> Z -> Z.
(** The order, unspecified by the C++ standard, in which
    [std::partial_sort] leaves the elements outside the sorted range,
    as a function of the buffer before the call and of these elements. *)
Variable rest_order : list T -> list T -> list T.

Definition new (k n h : Z) : t T :=
  {| n := n; k := k;
     max_buffer_size := wrap64 (wrap64 (2 * k) * log2_ceil n k);
     C := 0; h := h; buffer := [] |}.

Definition elements_to_compact (c : t T) : Z :=
  elements_to_compact_at (k c) (C c).

(** [std::partial_sort(buffer.rbegin(), buffer.rbegin() + S, buffer.rend(),
    std::greater{})]: the [S] largest items end up, ascending, in the last
    [S] positions; the others come before them. *)
Definition partial_sort_back (S : nat) (buf : list T) : list T :=
  let sorted := std_sort T_lt buf in
  let cut := (length buf - S)%nat in
  rest_order buf (take cut sorted) ++ drop cut sorted.

Definition set_buffer (c : t T) (b : list T) : t T :=
  {| n := n c; k := k c; max_buffer_size := max_buffer_size c;
     C := C c; h := h c; buffer := b |}.

Definition set_C (c : t T) (C' : Z) : t T :=
  {| n := n c; k := k c; max_buffer_size := max_buffer_size c;
     C := C'; h := h c; buffer := buffer c |}.

(** The body of [if (buffer.size() == max_buffer_size) { ... }] of
    [Compactor::Insert] in compactor.h. *)
Definition compact (c : t T) (coins : stream bool)
  : outcome (t T * list T * stream bool) :=
  let elements_to_compact := elements_to_compact c in
  let S := wrap64 (max_buffer_size c - elements_to_compact) in
  if Z.of_nat (length (buffer c)) <? S then Fault PartialSortRange else
  let sorted := partial_sort_back (Z.to_nat S) (buffer c) in
  let even := shead coins in
  let i := start_index even S in
  let output := every_other (drop (Z.to_nat i) sorted) in
  let target_capacity := wrap64 (max_buffer_size c - elements_to_compact) in
  if Z.of_nat (length sorted) <? target_capacity then Fault LengthError else
  let resized := take (Z.to_nat target_capacity) sorted in
  Returns (set_C (set_buffer c resized) (wrap64 (C c + 1)), output, stail coins).

(** In [compact] the test before [resize] never fires, since
    [target_capacity = S]; in [compact_cpp] below it fires exactly when
    [S] wrapped to [0], where [target_capacity = 2^64 - 1] exceeds
    [max_size()] and [resize] throws. *)

Definition Insert (c : t T) (element : T) (coins : stream bool)
  : outcome (t T * list T * stream bool) :=
  bind (if Z.of_nat (length (buffer c)) =? max_buffer_size c
        then compact c coins
        else Returns (c, [], coins))
    (fun '(c1, output, coins1) =>
       bind (push_back (buffer c1) element)
         (fun b => Returns (set_buffer c1 b, output, coins1))).

(** The same member function in streaming-quantiles/compactor.cpp:
    [S = max_buffer_size - elements_to_compact + 1] and [i = S - 1];
    its [std::countr_one(C) + 1] is the loop above (see
    [sections_to_compact_spec]). *)
Definition compact_cpp (c : t T) (coins : stream bool)
  : outcome (t T * list T * stream bool) :=
  let elements_to_compact := elements_to_compact c in
  let S := wrap64 (wrap64 (max_buffer_size c - elements_to_compact) + 1) in
  if Z.of_nat (length (buffer c)) <? S then Fault PartialSortRange else
  let sorted := partial_sort_back (Z.to_nat S) (buffer c) in
  let even := shead coins in
  let i := start_index even (wrap64 (S - 1)) in
  let output := every_other (drop (Z.to_nat i) sorted) in
  let target_capacity := wrap64 (max_buffer_size c - elements_to_compact) in
  if Z.of_nat (length sorted) <? target_capacity then Fault LengthError else
  let resized := take (Z.to_nat target_capacity) sorted in
  Returns (set_C (set_buffer c resized) (wrap64 (C c + 1)), output, stail coins).

Definition Insert_cpp (c : t T) (element : T) (coins : stream bool)
  : outcome (t T * list T * stream bool) :=
  bind (if Z.of_nat (length (buffer c)) =? max_buffer_size c
        then compact_cpp c coins
        else Returns (c, [], coins))
    (fun '(c1, output, coins1) =>
       bind (push_back (buffer c1) element)
         (fun b => Returns (set_buffer c1 b, output, coins1))).

End WithItem.

End Compactor.

(** ** relative_error_quantiles_sketch.h *)

Module RelativeErrorQuantilesSketch.

Record RelativeErrorQuantilesSketchOptions : Set := mkOptions {
  n : Z;
  k : Z
}.

Record WeightedElement (T : Type) : Type := mkWeighted {
  item : T;
  weight : Z
}.

Arguments mkWeighted {T}.
Arguments item {T}.
Arguments weight {T}.

Record Quantile (T : Type) : Type := mkQuantile {
  quantile : Z;
  q_item : T;          (* [item]; the name is taken by [WeightedElement] *)
  cumulative_weight : Z
}.

Arguments mkQuantile {T}.
Arguments quantile {T}.
Arguments q_item {T}.
Arguments cumulative_weight {T}.

Record t (T : Type) : Type := mk {
  options_ : RelativeErrorQuantilesSketchOptions;
  H_ : Z;
  compactors_ : list (Compactor.t T);
  weighted_elements_ : list (WeightedElement T);
  total_weight_ : Z
}.

Arguments mk {T}.
Arguments options_ {T}.
Arguments H_ {T}.
Arguments compactors_ {T}.
Arguments weighted_elements_ {T}.
Arguments total_weight_ {T}.

(** [std::accumulate(first, last, 0.0, d + element.weight)]. *)
Definition accumulate_weight {T : Type} (l : list (WeightedElement T)) : Z :=
  fold_left (fun d element => d + weight element) l 0.

Section WithItem.
Context {T : Type}.
(** [operator<] of the item type. *)
Variable T_lt : T -> T -> bool.
(** [t.empty()], for the assertion of [Close]. *)
Variable T_empty : T -> bool.
Variable log2_ceil : Z -> Z -> Z.
Variable rest_order : list T -> list T -> list T.
(** [cum / total >= static_cast<double>(current) / n] in [double], as a
    function of [cum], [total], [current] and [n]. *)
Variable ratio_ge : Z -> Z -> Z -> Z -> bool.

Definition new (options : RelativeErrorQuantilesSketchOptions) : t T :=
  {| options_ := options; H_ := 0;
     compactors_ := [Compactor.new log2_ceil (k options) (n options) 0];
     weighted_elements_ := []; total_weight_ := 0 |}.

Definition set_compactors (s : t T) (H : Z) (cs : list (Compactor.t T)) : t T :=
  {| options_ := options_ s; H_ := H; compactors_ := cs;
     weighted_elements_ := weighted_elements_ s;
     total_weight_ := total_weight_ s |}.

(** [if (H_ < h) { H_ = h; compactors_.push_back(Compactor<T>(k, n, h)); }] *)
Definition ensure_level (s : t T) (h : Z) : outcome (t T) :=
  if H_ s <? h then
    bind (push_back (compactors_ s)
            (Compactor.new log2_ceil (k (options_ s)) (n (options_ s)) h))
      (fun cs => Returns (set_compactors s h cs))
  else Returns s.

(** [Insert(element, h)]; [fuel] bounds the depth of the recursion
    [Insert(t, h + 1)] over the output of the compactor. *)
Fixpoint Insert (fuel : nat) (s : t T) (element : T) (h : Z)
    (coins : stream bool) : outcome (t T * stream bool) :=
  match fuel with
  | O => OutOfFuel
  | S fuel' =>
      bind (ensure_level s h) (fun s1 =>
      match compactors_ s1 !! Z.to_nat h with
      | None => Fault VectorIndex
      | Some c =>
          bind (Compactor.Insert T_lt rest_order c element coins)
            (fun '(c', output_stream, coins1) =>
               for_each
                 (fun st t => Insert fuel' (fst st) t (wrap64 (h + 1)) (snd st))
                 output_stream
                 (set_compactors s1 (H_ s1)
                    (<[Z.to_nat h := c']> (compactors_ s1)), coins1))
      end)
  end.

(** The per-compactor [std::transform] of [Close], with its assertion. *)
Definition weigh (w : Z) (buf : list T) : outcome (list (WeightedElement T)) :=
  if existsb T_empty buf then Fault AssertFailed
  else Returns (map (fun t => mkWeighted t w) buf).

(** [for (auto &compactor : compactors_) { ...; ++h; }] *)
Fixpoint Close_loop (h : Z) (cs : list (Compactor.t T))
    (acc : list (WeightedElement T)) : outcome (list (WeightedElement T)) :=
  match cs with
  | [] => Returns acc
  | c :: cs' =>
      bind (weigh (2 ^ h) (Compactor.buffer c))
        (fun ws => Close_loop (wrap64 (h + 1)) cs' (acc ++ ws))
  end.

Definition Close (s : t T) : outcome (t T) :=
  if negb (wrap64 (H_ s + 1) =? Z.of_nat (length (compactors_ s)))
  then Fault AssertFailed
  else
    bind (Close_loop 0 (compactors_ s) (weighted_elements_ s)) (fun ws =>
    let sorted := std_sort (fun w1 w2 => T_lt (item w1) (item w2)) ws in
    Returns {| options_ := options_ s; H_ := H_ s;
               compactors_ := compactors_ s;
               weighted_elements_ := sorted;
               total_weight_ := accumulate_weight sorted |}).

(** [std::lower_bound]: the binary search over [first, first + len). *)
Fixpoint lower_bound_loop (fuel : nat) (v : list (WeightedElement T))
    (x : T) (first len : nat) : nat :=
  match fuel with
  | O => first
  | S fuel' =>
      if Nat.eqb len 0 then first else
      let half := Nat.div2 len in
      match v !! (first + half)%nat with
      | Some element =>
          if T_lt (item element) x
          then lower_bound_loop fuel' v x (first + half + 1)%nat
                 (len - half - 1)%nat
          else lower_bound_loop fuel' v x first half
      | None => first
      end
  end.

Definition lower_bound (v : list (WeightedElement T)) (x : T) : nat :=
  lower_bound_loop (length v) v x 0%nat (length v).

Definition EstimateRank (s : t T) (x : T) : Z :=
  let it := lower_bound (weighted_elements_ s) x in
  accumulate_weight (take it (weighted_elements_ s)).

(** One iteration of the loop of [Quantiles] over [weighted_elements_];
    the loop state is [(quantiles, current_quantile, current_total_weight)]. *)
Definition Quantiles_step (total n : Z) (st : list (Quantile T) * Z * Z)
    (element : WeightedElement T) : list (Quantile T) * Z * Z :=
  let '(quantiles, current_quantile, current_total_weight) := st in
  let current_total_weight := current_total_weight + weight element in
  if ratio_ge current_total_weight total current_quantile n
  then (quantiles ++ [mkQuantile current_quantile (item element)
                        current_total_weight],
        current_quantile + 1, current_total_weight)
  else (quantiles, current_quantile, current_total_weight).

Definition Quantiles (s : t T) (n : Z) : list (Quantile T) :=
  fst (fst (fold_left (Quantiles_step (total_weight_ s) n)
              (weighted_elements_ s) ([], 1, 0))).

Definition Depth (s : t T) : Z := H_ s.

Definition TotalWeight (s : t T) : Z := total_weight_ s.

(** Ingesting a sequence of items at level 0, in order. *)
Definition Insert_all (fuel : nat) (s : t T) (items : list T)
    (coins : stream bool) : outcome (t T * stream bool) :=
  for_each (fun st x => Insert fuel (fst st) x 0 (snd st)) items (s, coins).

End WithItem.

End RelativeErrorQuantilesSketch.

(** ** Well-formed states, reachable states, stored weight *)

Definition uint64 (z : Z) : Prop := 0 <= z < 2 ^ 64.

Section States.
Context {T : Type}.
Variable T_lt : T -> T -> bool.
Variable log2_ceil : Z -> Z -> Z.
Variable rest_order : list T -> list T -> list T.

(** The fields of a compactor are [uint64_t] values, its buffer is a
    vector, and [max_buffer_size] is the one its constructor computed. *)
Definition compactor_ok (c : Compactor.t T) : Prop :=
  uint64 (Compactor.k c) /\ uint64 (Compactor.C c) /\
  Z.of_nat (length (Compactor.buffer c)) <= vector_max_size /\
  Compactor.max_buffer_size c =
    Compactor.max_buffer_size
      (Compactor.new (T:=T) log2_ceil (Compactor.k c) (Compactor.n c)
         (Compactor.h c)).

(** Every compaction the schedule has asked for so far fitted the buffer. *)
Definition schedule_fitted (c : Compactor.t T) : Prop :=
  forall C', 0 <= C' < Compactor.C c ->
    Compactor.elements_to_compact_at (Compactor.k c) C'
      <= Compactor.max_buffer_size c.

(** The invariant of a compactor with a positive section size. *)
Definition compactor_inv (c : Compactor.t T) : Prop :=
  compactor_ok c /\ 0 < Compactor.k c /\ schedule_fitted c /\
  Z.of_nat (length (Compactor.buffer c)) <= Compactor.max_buffer_size c.

(** Section size and capacity are even. *)
Definition compactor_even (c : Compactor.t T) : Prop :=
  uint64 (Compactor.max_buffer_size c) /\
  Z.even (Compactor.k c) = true /\
  Z.even (Compactor.max_buffer_size c) = true.

(** The levels of a sketch are dense, and each satisfies [P]. *)
Definition sketch_inv (P : Compactor.t T -> Prop)
    (options : RelativeErrorQuantilesSketch.RelativeErrorQuantilesSketchOptions)
    (s : RelativeErrorQuantilesSketch.t T) : Prop :=
  RelativeErrorQuantilesSketch.options_ s = options /\
  0 <= RelativeErrorQuantilesSketch.H_ s /\
  Z.of_nat (length (RelativeErrorQuantilesSketch.compactors_ s))
    = RelativeErrorQuantilesSketch.H_ s + 1 /\
  Z.of_nat (length (RelativeErrorQuantilesSketch.compactors_ s))
    <= vector_max_size /\
  Forall P (RelativeErrorQuantilesSketch.compactors_ s).

(** A level of a sketch with options [(n, k)]: both invariants, and the
    capacity every compactor of the sketch shares. *)
Definition level_ok
    (options : RelativeErrorQuantilesSketch.RelativeErrorQuantilesSketchOptions)
    (c : Compactor.t T) : Prop :=
  compactor_inv c /\ compactor_even c /\
  Compactor.max_buffer_size c =
    Compactor.max_buffer_size
      (Compactor.new (T:=T) log2_ceil
         (RelativeErrorQuantilesSketch.k options)
         (RelativeErrorQuantilesSketch.n options) 0).

(** A run of the sketch that ends with its top level at most [top]: it
    returns, or it stops at the undefined compaction or at a vector that
    cannot grow, and it neither runs out of fuel nor indexes a level that
    does not exist. *)
Definition ends_within (top : Z)
    (r : outcome (RelativeErrorQuantilesSketch.t T * stream bool)) : Prop :=
  match r with
  | Returns (s', _) => RelativeErrorQuantilesSketch.H_ s' <= top
  | Fault f => f = PartialSortRange \/ f = LengthError
  | OutOfFuel => False
  end.

(** The states of one compactor: constructed, then inserted into. *)
Inductive compactor_reachable (k n h : Z) : Compactor.t T -> Prop :=
| cr_new : compactor_reachable k n h (Compactor.new log2_ceil k n h)
| cr_Insert c element coins c' output coins' :
    compactor_reachable k n h c ->
    Compactor.Insert T_lt rest_order c element coins
      = Returns (c', output, coins') ->
    compactor_reachable k n h c'.

(** The states of a sketch: constructed, then inserted into at any level. *)
Inductive sketch_reachable
    (options : RelativeErrorQuantilesSketch.RelativeErrorQuantilesSketchOptions)
  : RelativeErrorQuantilesSketch.t T -> Prop :=
| sr_new :
    sketch_reachable options
      (RelativeErrorQuantilesSketch.new log2_ceil options)
| sr_Insert s fuel element h coins s' coins' :
    sketch_reachable options s ->
    uint64 h ->
    RelativeErrorQuantilesSketch.Insert T_lt log2_ceil rest_order
      fuel s element h coins = Returns (s', coins') ->
    sketch_reachable options s'.

(** The weight the buffers of levels [h], [h + 1], ... stand for. *)
Fixpoint stored_weight (h : Z) (cs : list (Compactor.t T)) : Z :=
  match cs with
  | [] => 0
  | c :: cs' =>
      2 ^ h * Z.of_nat (length (Compactor.buffer c)) + stored_weight (h + 1) cs'
  end.

(** The test loop [for (...) compactor.Insert(i);], outputs dropped. *)
Definition Compactor_Insert_all (c : Compactor.t T) (items : list T)
    (coins : stream bool) : outcome (Compactor.t T * stream bool) :=
  for_each
    (fun st x =>
       bind (Compactor.Insert T_lt rest_order (fst st) x (snd st))
         (fun '(c', _, coins') => Returns (c', coins')))
    items (c, coins).

End States.

(** The number [t] of trailing one-bits of [C], as the specification words
    it: bits [0 .. t-1] are set and bit [t] is not. *)
Definition trailing_ones (C t : Z) : Prop :=
  0 <= t /\ (forall j, 0 <= j < t -> Z.testbit C j = true) /\
  Z.testbit C t = false.

(** ** The instances of the test suite: [int] items *)

(** [ceil(log2(n / k))] in exact arithmetic, for [0 < k <= n]; the tests'
    values [(n, k) = (8, 2), (100, 4), (1024, 16)] are far from a rounding
    boundary of the [double] computation. *)
Definition log2_ceil_exact (n k : Z) : Z := Z.log2_up ((n + k - 1) / k).

(** An implementation of [std::partial_sort] that leaves the other elements
    in ascending order. *)
Definition keep_order {T : Type} (buf rest : list T) : list T := rest.

(** [cum / total >= current / n] in exact arithmetic, for [0 < total] and
    [0 < n]. In the scenarios below [cum <= total = 100] are integers and
    the thresholds [1 / 2] and [2 / 2] are exact in [double], so the
    rounding of the division does not change the comparison. *)
Definition ratio_ge_exact (cum total current n : Z) : bool :=
  current * total <=? cum * n.

Module IntSketch.

Abbreviation Compactor_new := (Compactor.new (T:=Z) log2_ceil_exact).

Abbreviation Compactor_Insert := (Compactor.Insert Z.ltb (@keep_order Z)).

Abbreviation Compactor_fill := (Compactor_Insert_all Z.ltb (@keep_order Z)).

Abbreviation new n k :=
  (RelativeErrorQuantilesSketch.new (T:=Z) log2_ceil_exact
     (RelativeErrorQuantilesSketch.mkOptions n k)).

Abbreviation Insert :=
  (RelativeErrorQuantilesSketch.Insert Z.ltb log2_ceil_exact (@keep_order Z)).

Abbreviation Insert_all :=
  (RelativeErrorQuantilesSketch.Insert_all Z.ltb log2_ceil_exact
     (@keep_order Z)).

(** An [int] has no [empty()]: the assertion of [Close] is compiled out. *)
Abbreviation Close :=
  (RelativeErrorQuantilesSketch.Close Z.ltb (fun _ : Z => false)).

Abbreviation Quantiles :=
  (RelativeErrorQuantilesSketch.Quantiles (T:=Z) ratio_ge_exact).

Abbreviation EstimateRank := (RelativeErrorQuantilesSketch.EstimateRank Z.ltb).

(** The integers [from], [from + 1], ..., [from + count - 1]. *)
Definition range (from : Z) (count : nat) : list Z :=
  map (fun i => from + Z.of_nat i) (seq 0 count).

End IntSketch.

(** ** Orders, stored elements, running totals and level sums *)

(** A list in ascending order of a strict comparison: no element is
    smaller than an earlier one. *)
Definition ascending {A : Type} (lt : A -> A -> bool) (l : list A) : Prop :=
  StronglySorted (fun a b => lt b a = false) l.

(** The weighted elements [Close] makes of the buffers of levels [h],
    [h + 1], ...: every stored item, with weight [2^level]. *)
Fixpoint stored_elements {T : Type} (h : Z) (cs : list (Compactor.t T))
  : list (RelativeErrorQuantilesSketch.WeightedElement T) :=
  match cs with
  | [] => []
  | c :: cs' =>
      map (fun t => RelativeErrorQuantilesSketch.mkWeighted t (2 ^ h))
        (Compactor.buffer c)
      ++ stored_elements (h + 1) cs'
  end.

(** The cache with its running totals: each item with the weight
    accumulated up to and including it, from [acc]. *)
Fixpoint running_weight {T : Type} (acc : Z)
    (l : list (RelativeErrorQuantilesSketch.WeightedElement T)) : list (T * Z) :=
  match l with
  | [] => []
  | e :: l' =>
      let acc' := acc + RelativeErrorQuantilesSketch.weight e in
      (RelativeErrorQuantilesSketch.item e, acc') :: running_weight acc' l'
  end.

(** The sum over the levels [h], [h + 1], ... of [b^level] times a measure
    of the compactor of that level. *)
Fixpoint level_sum {T : Type} (b : Z) (f : Compactor.t T -> Z) (h : Z)
    (cs : list (Compactor.t T)) : Z :=
  match cs with
  | [] => 0
  | c :: cs' => b ^ h * f c + level_sum b f (h + 1) cs'
  end.

(** Every compaction the schedule has asked for so far took at most half
    of the buffer: it stayed inside the range [std::partial_sort] sorts. *)
Definition schedule_halved {T : Type} (c : Compactor.t T) : Prop :=
  forall C', 0 <= C' < Compactor.C c ->
    2 * Compactor.elements_to_compact_at (Compactor.k c) C'
      <= Compactor.max_buffer_size c.

(** The number of elements the first [n] compactions of a compactor with
    section size [k] take out of its buffer. *)
Fixpoint compacted_upto (k : Z) (n : nat) : Z :=
  match n with
  | O => 0
  | S n' => compacted_upto k n' + Compactor.elements_to_compact_at k (Z.of_nat n')
  end.

(** The number of items a compactor has received so far: those in its
    buffer and those its compactions took out. *)
Definition received {T : Type} (c : Compactor.t T) : Z :=
  Z.of_nat (length (Compactor.buffer c))
  + compacted_upto (Compactor.k c) (Z.to_nat (Compactor.C c)).

(** The number of items a compactor has promoted so far: half of those
    its compactions took out. *)
Definition promoted {T : Type} (c : Compactor.t T) : Z :=
  compacted_upto (Compactor.k c) (Z.to_nat (Compactor.C c)) / 2.

(** What level [i] has received beyond what level [i - 1] promoted. *)
Definition net_inflow {T : Type} (cs : list (Compactor.t T)) (i : nat) : Z :=
  match cs !! i with Some c => received c | None => 0 end
  - match i with
    | O => 0
    | S j => match cs !! j with Some c => promoted c | None => 0 end
    end.

(** * Properties *)

(** ** Machine integers *)

Lemma wrap64_range z : 0 <= wrap64 z < 2 ^ 64.
Proof. unfold wrap64. apply Z.mod_pos_bound. lia. Qed.

Lemma wrap64_small z : 0 <= z < 2 ^ 64 -> wrap64 z = z.
Proof. intros Hz. unfold wrap64. apply Z.mod_small. exact Hz. Qed.

Lemma wrap64_even z : Z.even (wrap64 z) = Z.even z.
Proof.
  unfold wrap64. rewrite !Zeven_mod.
  rewrite Z.mod_mod_divide; [reflexivity|].
  exists (2 ^ 63). reflexivity.
Qed.

Lemma wrap64_sub_le a b :
  uint64 a -> uint64 b -> b <= a -> wrap64 (a - b) = a - b.
Proof. unfold uint64. intros Ha Hb Hle. apply wrap64_small. lia. Qed.

Lemma wrap64_sub_gt a b :
  uint64 a -> uint64 b -> a < b -> wrap64 (a - b) = a - b + 2 ^ 64.
Proof.
  unfold uint64, wrap64. intros Ha Hb Hlt.
  symmetry. apply (Z.mod_unique _ _ (-1)); lia.
Qed.

(** ** Lists: sorting and the stride-2 walk *)

Lemma insert_by_perm {A} (lt : A -> A -> bool) x l :
  Permutation (insert_by lt x l) (x :: l).
Proof.
  induction l as [|y l IH]; simpl.
  - reflexivity.
  - destruct (lt x y).
    + reflexivity.
    + rewrite IH. apply perm_swap.
Qed.

Lemma std_sort_perm {A} (lt : A -> A -> bool) l :
  Permutation (std_sort lt l) l.
Proof.
  induction l as [|x l IH]; simpl.
  - reflexivity.
  - rewrite insert_by_perm. apply perm_skip. exact IH.
Qed.

Lemma std_sort_length {A} (lt : A -> A -> bool) l :
  length (std_sort lt l) = length l.
Proof. apply Permutation_length, std_sort_perm. Qed.

Lemma every_other_length {A} (l : list A) :
  Z.of_nat (length (every_other l)) = (Z.of_nat (length l) + 1) / 2.
Proof.
  enough (H : forall l : list A,
             Z.of_nat (length (every_other l)) = (Z.of_nat (length l) + 1) / 2
             /\ forall x, Z.of_nat (length (every_other (x :: l)))
                          = (Z.of_nat (length (x :: l)) + 1) / 2)
    by apply H.
  clear l. induction l as [|y l [IH1 IH2]]; split.
  - reflexivity.
  - intros x. reflexivity.
  - apply IH2.
  - intros x. cbn [every_other length].
    rewrite !Nat2Z.inj_succ, IH1.
    Z.div_mod_to_equations. lia.
Qed.

Lemma every_other_Forall {A} (Q : A -> Prop) (l : list A) :
  Forall Q l -> Forall Q (every_other l).
Proof.
  enough (H : forall l : list A,
             (Forall Q l -> Forall Q (every_other l))
             /\ forall x, Forall Q (x :: l) -> Forall Q (every_other (x :: l)))
    by apply H.
  clear l. induction l as [|y l [IH1 IH2]]; split.
  - auto.
  - auto.
  - apply IH2.
  - intros x Hxyl. cbn [every_other].
    inversion Hxyl as [|? ? Hx Hyl]; subst.
    inversion Hyl as [|? ? Hy Hl]; subst.
    constructor; [assumption|apply IH1; assumption].
Qed.

(** ** The schedule: trailing one-bits *)

Lemma trailing_ones_loop_acc fuel c acc :
  Compactor.trailing_ones_loop fuel c acc
  = acc + Compactor.trailing_ones_loop fuel c 0.
Proof.
  revert c acc. induction fuel as [|fuel IH]; intros c acc; simpl.
  - lia.
  - destruct (Z.land c 1 =? 1).
    + rewrite (IH _ (acc + 1)), (IH _ (0 + 1)). lia.
    + lia.
Qed.

Lemma land_1_odd c : (Z.land c 1 =? 1) = Z.odd c.
Proof.
  change 1 with (Z.ones 1) at 1. rewrite Z.land_ones by lia.
  change (2 ^ 1) with 2. rewrite Zodd_mod. reflexivity.
Qed.

Lemma trailing_ones_loop_spec fuel c :
  0 <= c < 2 ^ Z.of_nat fuel ->
  trailing_ones c (Compactor.trailing_ones_loop fuel c 0)
  /\ Compactor.trailing_ones_loop fuel c 0 <= Z.of_nat fuel.
Proof.
  revert c. induction fuel as [|fuel IH]; intros c Hc.
  - simpl in *. assert (c = 0) by lia. subst c.
    split; [|lia]. split; [lia|]. split; [intros j Hj; lia|reflexivity].
  - cbn [Compactor.trailing_ones_loop]. rewrite land_1_odd.
    destruct (Z.odd c) eqn:Hodd.
    + rewrite trailing_ones_loop_acc.
      assert (Hhalf : 0 <= Z.shiftr c 1 < 2 ^ Z.of_nat fuel).
      { rewrite Z.shiftr_div_pow2 by lia. change (2 ^ 1) with 2.
        rewrite Nat2Z.inj_succ, Z.pow_succ_r in Hc by lia.
        split; [apply Z.div_pos; lia|].
        apply Z.div_lt_upper_bound; lia. }
      destruct (IH _ Hhalf) as [(Ht0 & Hlow & Hhigh) Hle].
      set (t := Compactor.trailing_ones_loop fuel (Z.shiftr c 1) 0) in *.
      split; [|lia]. split; [lia|]. split.
      * intros j Hj. destruct (Z.eq_dec j 0) as [->|Hne].
        -- rewrite Z.bit0_odd. exact Hodd.
        -- specialize (Hlow (j - 1) ltac:(lia)).
           rewrite Z.shiftr_spec in Hlow by lia.
           replace (j - 1 + 1) with j in Hlow by lia. exact Hlow.
      * rewrite Z.shiftr_spec in Hhigh by lia.
        replace (0 + 1 + t) with (t + 1) by lia. exact Hhigh.
    + split; [|lia]. split; [lia|]. split.
      * intros j Hj. lia.
      * rewrite Z.bit0_odd. exact Hodd.
Qed.

Lemma trailing_ones_unique c t t' :
  trailing_ones c t -> trailing_ones c t' -> t = t'.
Proof.
  intros (H0 & Hlow & Hhigh) (H0' & Hlow' & Hhigh').
  destruct (Z.lt_trichotomy t t') as [Hlt|[Heq|Hgt]].
  - rewrite Hlow' in Hhigh by lia. discriminate.
  - exact Heq.
  - rewrite Hlow in Hhigh' by lia. discriminate.
Qed.

Lemma trailing_ones_ones t : 0 <= t -> trailing_ones (Z.ones t) t.
Proof.
  intros Ht. split; [lia|]. split.
  - intros j Hj. apply Z.ones_spec_low. lia.
  - apply Z.ones_spec_high. lia.
Qed.

Lemma trailing_ones_lower c t :
  0 <= c -> trailing_ones c t -> 2 ^ t - 1 <= c.
Proof.
  intros Hc (Ht & Hlow & _).
  assert (Hland : Z.land c (Z.ones t) = Z.ones t).
  { apply Z.bits_inj'. intros j Hj. rewrite Z.land_spec.
    destruct (Z.lt_ge_cases j t) as [Hlt|Hge].
    - rewrite Hlow by lia. rewrite Z.ones_spec_low by lia. reflexivity.
    - rewrite Z.ones_spec_high by lia. apply andb_false_r. }
  rewrite Z.land_ones in Hland by lia.
  rewrite Z.ones_equiv in Hland.
  pose proof (Z.mod_le c (2 ^ t) Hc ltac:(lia)). lia.
Qed.

Lemma sections_to_compact_spec C :
  uint64 C ->
  exists t, trailing_ones C t /\ t <= 64
            /\ Compactor.sections_to_compact C = t + 1.
Proof.
  intros HC. unfold Compactor.sections_to_compact.
  destruct (trailing_ones_loop_spec 64 C HC) as [Ht Hle].
  eexists. split; [exact Ht|]. split; [exact Hle|reflexivity].
Qed.

Lemma sections_to_compact_ones t :
  0 <= t <= 64 -> Compactor.sections_to_compact (Z.ones t) = t + 1.
Proof.
  intros Ht.
  assert (HC : uint64 (Z.ones t)).
  { unfold uint64. rewrite Z.ones_equiv.
    assert (2 ^ t <= 2 ^ 64) by (apply Z.pow_le_mono_r; lia).
    assert (0 < 2 ^ t) by (apply Z.pow_pos_nonneg; lia). lia. }
  destruct (sections_to_compact_spec _ HC) as (t' & Ht' & _ & ->).
  rewrite (trailing_ones_unique _ _ _ Ht' (trailing_ones_ones t ltac:(lia))).
  reflexivity.
Qed.

(** ** One compactor *)

(** With an even section size and an even capacity both cosets of the
    compacted tail have half its size. *)
Lemma start_index_half (even : bool) cap etc :
  uint64 cap -> 0 <= etc <= cap ->
  Z.even cap = true -> Z.even etc = true ->
  (Z.max 0 (cap - Compactor.start_index even (cap - etc)) + 1) / 2 = etc / 2.
Proof.
  intros Hcap Hetc Hecap Heetc. unfold Compactor.start_index.
  rewrite Zeven_mod in Hecap, Heetc.
  apply Z.eqb_eq in Hecap, Heetc.
  assert (Hs : (cap - etc) mod 2 = 0).
  { rewrite Zminus_mod, Hecap, Heetc. reflexivity. }
  rewrite Hs. cbn [Z.eqb]. rewrite andb_true_r.
  unfold uint64 in Hcap.
  destruct even; cbn [negb].
  - replace (cap - (cap - etc)) with etc by lia.
    Z.div_mod_to_equations. lia.
  - rewrite wrap64_small by (Z.div_mod_to_equations; lia).
    Z.div_mod_to_equations. lia.
Qed.

Section CompactorFacts.
Context {T : Type}.
Variable T_lt : T -> T -> bool.
Variable log2_ceil : Z -> Z -> Z.
Variable rest_order : list T -> list T -> list T.
Hypothesis rest_order_perm :
  forall buf rest, Permutation (rest_order buf rest) rest.

Lemma partial_sort_back_perm S buf :
  Permutation (Compactor.partial_sort_back T_lt rest_order S buf) buf.
Proof.
  unfold Compactor.partial_sort_back.
  rewrite rest_order_perm, take_drop. apply std_sort_perm.
Qed.

Lemma partial_sort_back_length S buf :
  length (Compactor.partial_sort_back T_lt rest_order S buf) = length buf.
Proof. apply Permutation_length, partial_sort_back_perm. Qed.

Lemma new_max_buffer_size_range k n h :
  uint64 (Compactor.max_buffer_size (Compactor.new (T:=T) log2_ceil k n h)).
Proof. apply wrap64_range. Qed.

Lemma new_max_buffer_size_even k n h :
  Z.even (Compactor.max_buffer_size (Compactor.new (T:=T) log2_ceil k n h))
  = true.
Proof.
  cbn. rewrite wrap64_even, Z.even_mul, wrap64_even, Z.even_mul.
  reflexivity.
Qed.

Lemma elements_to_compact_range (c : Compactor.t T) :
  uint64 (Compactor.elements_to_compact c).
Proof. apply wrap64_range. Qed.

Lemma elements_to_compact_even (c : Compactor.t T) :
  Z.even (Compactor.k c) = true ->
  Z.even (Compactor.elements_to_compact c) = true.
Proof.
  intros Hk. unfold Compactor.elements_to_compact,
    Compactor.elements_to_compact_at.
  rewrite wrap64_even, Z.even_mul, Hk. apply orb_true_r.
Qed.

(** What a compaction that fits the buffer computes. *)
Lemma compact_fits (c : Compactor.t T) coins :
  uint64 (Compactor.max_buffer_size c) ->
  Z.of_nat (length (Compactor.buffer c)) = Compactor.max_buffer_size c ->
  Compactor.elements_to_compact c <= Compactor.max_buffer_size c ->
  let S := Compactor.max_buffer_size c - Compactor.elements_to_compact c in
  let sorted :=
    Compactor.partial_sort_back T_lt rest_order (Z.to_nat S)
      (Compactor.buffer c) in
  Compactor.compact T_lt rest_order c coins
  = Returns
      (Compactor.set_C
         (Compactor.set_buffer c (take (Z.to_nat S) sorted))
         (wrap64 (Compactor.C c + 1)),
       every_other
         (drop (Z.to_nat (Compactor.start_index (shead coins) S)) sorted),
       stail coins).
Proof.
  intros Hmax Hfull Hfit S sorted.
  pose proof (elements_to_compact_range c) as Hetc.
  unfold Compactor.compact.
  rewrite (wrap64_sub_le _ _ Hmax Hetc Hfit).
  fold S. fold sorted.
  destruct (Z.ltb_spec (Z.of_nat (length (Compactor.buffer c))) S);
    [unfold uint64 in *; lia|].
  assert (Hlen : length sorted = length (Compactor.buffer c))
    by apply partial_sort_back_length.
  rewrite Hlen.
  destruct (Z.ltb_spec (Z.of_nat (length (Compactor.buffer c))) S);
    [unfold uint64 in *; lia|].
  reflexivity.
Qed.

(** A compaction the buffer cannot hold is undefined behaviour. *)
Lemma compact_overflows (c : Compactor.t T) coins :
  uint64 (Compactor.max_buffer_size c) ->
  Z.of_nat (length (Compactor.buffer c)) = Compactor.max_buffer_size c ->
  Compactor.max_buffer_size c < Compactor.elements_to_compact c ->
  Compactor.compact T_lt rest_order c coins = Fault PartialSortRange.
Proof.
  intros Hmax Hfull Hover.
  pose proof (elements_to_compact_range c) as Hetc.
  unfold Compactor.compact.
  rewrite (wrap64_sub_gt _ _ Hmax Hetc Hover).
  destruct (Z.ltb_spec (Z.of_nat (length (Compactor.buffer c)))
              (Compactor.max_buffer_size c
               - Compactor.elements_to_compact c + 2 ^ 64));
    [reflexivity|unfold uint64 in *; lia].
Qed.

Lemma compact_inv (c : Compactor.t T) coins c' output coins' :
  uint64 (Compactor.max_buffer_size c) ->
  Z.of_nat (length (Compactor.buffer c)) = Compactor.max_buffer_size c ->
  Compactor.compact T_lt rest_order c coins = Returns (c', output, coins') ->
  let etc := Compactor.elements_to_compact c in
  let cap := Compactor.max_buffer_size c in
  0 <= etc <= cap
  /\ Compactor.n c' = Compactor.n c /\ Compactor.k c' = Compactor.k c
  /\ Compactor.max_buffer_size c' = cap
  /\ Compactor.h c' = Compactor.h c
  /\ Compactor.C c' = wrap64 (Compactor.C c + 1)
  /\ Z.of_nat (length (Compactor.buffer c')) = cap - etc
  /\ Z.of_nat (length output)
     = (Z.max 0
          (cap - Compactor.start_index (shead coins) (cap - etc)) + 1) / 2
  /\ coins' = stail coins.
Proof.
  intros Hmax Hfull Hrun etc cap.
  pose proof (elements_to_compact_range c) as Hetc.
  destruct (Z.le_gt_cases etc cap) as [Hfit|Hover].
  - rewrite compact_fits in Hrun by assumption.
    injection Hrun as <- <- <-. cbn.
    fold etc cap.
    pose proof (partial_sort_back_length (Z.to_nat (cap - etc))
                  (Compactor.buffer c)) as Hsorted.
    set (sorted := Compactor.partial_sort_back T_lt rest_order
                     (Z.to_nat (cap - etc)) (Compactor.buffer c)) in *.
    fold etc in Hetc. unfold uint64 in *.
    split; [lia|]. do 5 (split; [reflexivity|]).
    split; [|split; [|reflexivity]].
    + rewrite length_take. lia.
    + rewrite every_other_length, length_drop.
      assert (Hi : 0 <= Compactor.start_index (shead coins) (cap - etc)).
      { unfold Compactor.start_index.
        destruct (negb (shead coins) && (_ =? 0));
          [apply wrap64_range|lia]. }
      f_equal. lia.
  - unfold etc, cap in Hover.
    rewrite compact_overflows in Hrun by (assumption || lia).
    discriminate.
Qed.

Lemma Insert_inv (c : Compactor.t T) element coins c' output coins' :
  Compactor.Insert T_lt rest_order c element coins
    = Returns (c', output, coins') ->
  (Z.of_nat (length (Compactor.buffer c)) <> Compactor.max_buffer_size c
   /\ Z.of_nat (length (Compactor.buffer c)) < vector_max_size
   /\ c' = Compactor.set_buffer c (Compactor.buffer c ++ [element])
   /\ output = [] /\ coins' = coins)
  \/ (Z.of_nat (length (Compactor.buffer c)) = Compactor.max_buffer_size c
      /\ exists c1,
           Compactor.compact T_lt rest_order c coins
             = Returns (c1, output, coins')
           /\ Z.of_nat (length (Compactor.buffer c1)) < vector_max_size
           /\ c' = Compactor.set_buffer c1 (Compactor.buffer c1 ++ [element])).
Proof.
  unfold Compactor.Insert, push_back. intros Hrun.
  destruct (Z.eqb_spec (Z.of_nat (length (Compactor.buffer c)))
              (Compactor.max_buffer_size c)) as [Hfull|Hroom].
  - right. split; [exact Hfull|].
    destruct (Compactor.compact T_lt rest_order c coins)
      as [[[c1 out1] coins1]| |]; cbn in Hrun; try discriminate.
    destruct (Z.ltb_spec (Z.of_nat (length (Compactor.buffer c1)))
                vector_max_size); cbn in Hrun; try discriminate.
    injection Hrun as <- <- <-. exists c1. auto.
  - left. cbn in Hrun.
    destruct (Z.ltb_spec (Z.of_nat (length (Compactor.buffer c)))
                vector_max_size); cbn in Hrun; try discriminate.
    injection Hrun as <- <- <-. auto.
Qed.

(** Compaction and insertion only move items around. *)
Lemma Insert_contents (Q : T -> Prop) (c : Compactor.t T) element coins
    c' output coins' :
  Forall Q (Compactor.buffer c) -> Q element ->
  Compactor.Insert T_lt rest_order c element coins
    = Returns (c', output, coins') ->
  Forall Q (Compactor.buffer c') /\ Forall Q output.
Proof.
  intros Hbuf Hx Hrun.
  destruct (Insert_inv _ _ _ _ _ _ Hrun)
    as [(_ & _ & -> & -> & _)|(_ & c1 & Hc1 & _ & ->)]; cbn.
  - split; [|constructor].
    apply Forall_app. split; [assumption|]. constructor; [assumption|constructor].
  - unfold Compactor.compact in Hc1.
    destruct (_ <? _) in Hc1; try discriminate.
    destruct (_ <? _) in Hc1; try discriminate.
    injection Hc1 as <- <- _. cbn.
    assert (Hsorted : forall S,
               Forall Q (Compactor.partial_sort_back T_lt rest_order S
                           (Compactor.buffer c))).
    { intros S. eapply Permutation_Forall; [|exact Hbuf].
      symmetry. apply partial_sort_back_perm. }
    split.
    + apply Forall_app. split; [|constructor; [assumption|constructor]].
      apply Forall_take, Hsorted.
    + apply every_other_Forall, Forall_drop, Hsorted.
Qed.

End CompactorFacts.

Section CompactorInvariant.
Context {T : Type}.
Variable T_lt : T -> T -> bool.
Variable log2_ceil : Z -> Z -> Z.
Variable rest_order : list T -> list T -> list T.
Hypothesis rest_order_perm :
  forall buf rest, Permutation (rest_order buf rest) rest.

Lemma compactor_ok_max_range (c : Compactor.t T) :
  compactor_ok log2_ceil c -> uint64 (Compactor.max_buffer_size c).
Proof. intros (_ & _ & _ & ->). apply wrap64_range. Qed.

Lemma compactor_ok_max_even (c : Compactor.t T) :
  compactor_ok log2_ceil c -> Z.even (Compactor.max_buffer_size c) = true.
Proof. intros (_ & _ & _ & ->). apply new_max_buffer_size_even. Qed.

(** A full buffer never meets a compaction of zero elements: the two
    earlier compactions of one section and of one section less would
    have needed a buffer beyond [max_size()]. *)
Lemma elements_to_compact_pos (c : Compactor.t T) :
  compactor_inv log2_ceil c ->
  Z.of_nat (length (Compactor.buffer c)) = Compactor.max_buffer_size c ->
  0 < Compactor.elements_to_compact c.
Proof.
  intros ((Hk & HC & Hvec & Hmax) & Hkpos & Hfit & _) Hfull.
  pose proof (elements_to_compact_range c) as [Hge _].
  destruct (Z.eq_dec (Compactor.elements_to_compact c) 0) as [Hzero|];
    [exfalso|lia].
  unfold Compactor.elements_to_compact, Compactor.elements_to_compact_at
    in Hzero.
  destruct (sections_to_compact_spec _ HC) as (t & Ht & Ht64 & Hsec).
  rewrite Hsec in Hzero.
  assert (Ht0 : 0 <= t) by apply Ht.
  unfold uint64 in Hk, HC. unfold vector_max_size in Hvec.
  destruct (Z.eq_dec t 0) as [->|Htpos].
  { rewrite wrap64_small in Hzero by lia. lia. }
  pose proof (trailing_ones_lower _ _ (proj1 HC) Ht) as Hlow.
  assert (Hpow : 2 ^ (t - 1) < 2 ^ t) by (apply Z.pow_lt_mono_r; lia).
  assert (Hpow0 : 0 < 2 ^ (t - 1)) by (apply Z.pow_pos_nonneg; lia).
  (* the compaction at schedule 0 took one section *)
  assert (H1 : Compactor.k c <= Compactor.max_buffer_size c).
  { specialize (Hfit 0 ltac:(lia)).
    unfold Compactor.elements_to_compact_at in Hfit.
    change (Compactor.sections_to_compact 0) with 1 in Hfit.
    rewrite wrap64_small in Hfit by lia. lia. }
  (* the compaction at schedule 2^(t-1) - 1 took t sections *)
  assert (H2 : 2 ^ 64 - Compactor.k c <= Compactor.max_buffer_size c).
  { specialize (Hfit (Z.ones (t - 1))
                  ltac:(rewrite Z.ones_equiv; lia)).
    unfold Compactor.elements_to_compact_at in Hfit.
    rewrite sections_to_compact_ones in Hfit by lia.
    replace (t - 1 + 1) with t in Hfit by lia.
    unfold wrap64 in Hzero, Hfit.
    apply Z.mod_divide in Hzero; [|lia]. destruct Hzero as [q Hq].
    assert (Hmod : (t * Compactor.k c) mod 2 ^ 64 = 2 ^ 64 - Compactor.k c)
      by (symmetry; apply (Z.mod_unique _ _ (q - 1)); lia).
    lia. }
  lia.
Qed.

Lemma new_compactor_inv k n h :
  0 < k < 2 ^ 64 -> compactor_inv log2_ceil (Compactor.new (T:=T) log2_ceil k n h).
Proof.
  intros Hk. unfold compactor_inv, compactor_ok, schedule_fitted, uint64.
  cbn. pose proof (wrap64_range (wrap64 (2 * k) * log2_ceil n k)).
  unfold vector_max_size.
  split; [|split; [lia|split; [intros C' HC'; lia|lia]]].
  split; [lia|]. split; [lia|]. split; [lia|reflexivity].
Qed.

Lemma Insert_compactor_inv (c : Compactor.t T) element coins c' output coins' :
  compactor_inv log2_ceil c ->
  Compactor.Insert T_lt rest_order c element coins
    = Returns (c', output, coins') ->
  compactor_inv log2_ceil c'
  /\ 1 <= Z.of_nat (length (Compactor.buffer c')).
Proof.
  intros Hinv Hrun.
  pose proof Hinv as ((Hk & HC & Hvec & Hmax) & Hkpos & Hfit & Hle).
  cbn in Hmax.
  destruct (Insert_inv _ _ _ _ _ _ _ _ Hrun)
    as [(Hroom & Hvec' & -> & _ & _)|(Hfull & c1 & Hc1 & Hvec' & ->)].
  - unfold compactor_inv, compactor_ok, schedule_fitted. cbn.
    rewrite length_app. cbn.
    split; [|lia].
    split; [|split; [assumption|split; [assumption|lia]]].
    split; [assumption|]. split; [assumption|]. split; [lia|assumption].
  - pose proof (elements_to_compact_pos _ Hinv Hfull) as Hpos.
    apply compact_inv in Hc1;
      [|assumption|apply (compactor_ok_max_range c); apply Hinv|assumption].
    destruct Hc1 as (Hetc & Hn & Hk1 & Hmax1 & Hh1 & HC1 & Hlen1 & _ & _).
    unfold compactor_inv, compactor_ok, schedule_fitted. cbn.
    rewrite length_app, Hn, Hk1, Hmax1, HC1. cbn.
    split; [|lia].
    split; [|split; [assumption|split; [|lia]]].
    + split; [assumption|]. split; [apply wrap64_range|].
      split; [lia|assumption].
    + intros C' HC'.
      destruct (Z.eq_dec C' (Compactor.C c)) as [->|Hne].
      * apply Hetc.
      * apply Hfit. unfold uint64 in HC.
        destruct (Z.eq_dec (Compactor.C c + 1) (2 ^ 64)) as [Hwrap|Hnowrap].
        -- rewrite Hwrap in HC'. change (wrap64 (2 ^ 64)) with 0 in HC'. lia.
        -- rewrite wrap64_small in HC' by lia. lia.
Qed.

Lemma compactor_reachable_inv k n h (c : Compactor.t T) :
  0 < k < 2 ^ 64 ->
  compactor_reachable T_lt log2_ceil rest_order k n h c ->
  compactor_inv log2_ceil c.
Proof.
  intros Hk Hreach. induction Hreach as [|c e coins c' out coins' _ IH Hrun].
  - apply new_compactor_inv. exact Hk.
  - apply (Insert_compactor_inv _ _ _ _ _ _ IH Hrun).
Qed.

(** With an even section size a compaction promotes half of what it
    removes. *)
Lemma Insert_balance (c : Compactor.t T) element coins c' output coins' :
  compactor_even c ->
  Compactor.Insert T_lt rest_order c element coins
    = Returns (c', output, coins') ->
  compactor_even c'
  /\ Z.of_nat (length (Compactor.buffer c')) + 2 * Z.of_nat (length output)
     = Z.of_nat (length (Compactor.buffer c)) + 1.
Proof.
  intros (Hmax & Hek & Hemax) Hrun.
  destruct (Insert_inv _ _ _ _ _ _ _ _ Hrun)
    as [(Hroom & Hvec' & -> & -> & _)|(Hfull & c1 & Hc1 & Hvec' & ->)].
  - unfold compactor_even. cbn. rewrite length_app. cbn.
    split; [split; [assumption|split; assumption]|lia].
  - apply compact_inv in Hc1; try assumption.
    destruct Hc1 as (Hetc & Hn & Hk1 & Hmax1 & Hh1 & HC1 & Hlen1 & Hout & _).
    pose proof (elements_to_compact_even c Hek) as Heetc.
    rewrite (start_index_half _ _ _ Hmax Hetc Hemax Heetc) in Hout.
    rewrite Zeven_mod in Heetc. apply Z.eqb_eq in Heetc.
    unfold compactor_even. cbn. rewrite length_app, Hk1, Hmax1. cbn.
    split; [split; [assumption|split; assumption]|].
    rewrite Nat2Z.inj_add, Hlen1, Hout, <- Hfull. cbn.
    Z.div_mod_to_equations. lia.
Qed.

End CompactorInvariant.

(** ** The hierarchy *)

Lemma for_each_invariant_on {A S : Type} (f : S -> A -> outcome S)
    (Q : A -> Prop) (I : S -> Prop) (mu : S -> Z) (d : Z) :
  (forall s x s', Q x -> I s -> f s x = Returns s' ->
     I s' /\ mu s' = mu s + d) ->
  forall l s s', Forall Q l -> I s -> for_each f l s = Returns s' ->
    I s' /\ mu s' = mu s + Z.of_nat (length l) * d.
Proof.
  intros Hstep l s s' Hl. revert s s'.
  induction Hl as [|x l Hx _ IH]; intros s s' HI Hrun; cbn in Hrun.
  - injection Hrun as <-. split; [assumption|cbn; lia].
  - destruct (f s x) as [s1| |] eqn:Hf; cbn in Hrun; try discriminate.
    destruct (Hstep _ _ _ Hx HI Hf) as [HI1 Hmu1].
    destruct (IH _ _ HI1 Hrun) as [HI' Hmu'].
    split; [assumption|]. rewrite Hmu', Hmu1. cbn [length]. lia.
Qed.

Lemma for_each_invariant {A S : Type} (f : S -> A -> outcome S)
    (I : S -> Prop) (mu : S -> Z) (d : Z) :
  (forall s x s', I s -> f s x = Returns s' -> I s' /\ mu s' = mu s + d) ->
  forall l s s', I s -> for_each f l s = Returns s' ->
    I s' /\ mu s' = mu s + Z.of_nat (length l) * d.
Proof.
  intros Hstep l s s'.
  apply (for_each_invariant_on f (fun _ => True)).
  - intros s0 x s0' _. apply Hstep.
  - apply Forall_forall. intros x _. exact Logic.I.
Qed.

Lemma stored_weight_app {T} h (cs cs' : list (Compactor.t T)) :
  stored_weight h (cs ++ cs')
  = stored_weight h cs + stored_weight (h + Z.of_nat (length cs)) cs'.
Proof.
  revert h. induction cs as [|c cs IH]; intros h; cbn [stored_weight app length].
  - rewrite Z.add_0_r. reflexivity.
  - rewrite IH. replace (h + 1 + Z.of_nat (length cs))
      with (h + Z.of_nat (S (length cs))) by lia. lia.
Qed.

Lemma stored_weight_insert {T} h (cs : list (Compactor.t T)) i c c' :
  cs !! i = Some c ->
  stored_weight h (<[i:=c']> cs)
  = stored_weight h cs
    + 2 ^ (h + Z.of_nat i)
      * (Z.of_nat (length (Compactor.buffer c'))
         - Z.of_nat (length (Compactor.buffer c))).
Proof.
  revert h i. induction cs as [|c0 cs IH]; intros h i Hi.
  - discriminate.
  - destruct i as [|i]; cbn in Hi |- *.
    + injection Hi as ->. rewrite Z.add_0_r. lia.
    + rewrite (IH _ _ Hi).
      replace (h + 1 + Z.of_nat i) with (h + Z.pos (Pos.of_succ_nat i)) by lia.
      lia.
Qed.

Section SketchFacts.
Context {T : Type}.
Variable T_lt : T -> T -> bool.
Variable log2_ceil : Z -> Z -> Z.
Variable rest_order : list T -> list T -> list T.
Hypothesis rest_order_perm :
  forall buf rest, Permutation (rest_order buf rest) rest.

Import RelativeErrorQuantilesSketch.

Abbreviation Sketch_Insert :=
  (RelativeErrorQuantilesSketch.Insert T_lt log2_ceil rest_order).

Lemma Insert_S_inv fuel (s : t T) element h coins s' coins' :
  Sketch_Insert (S fuel) s element h coins = Returns (s', coins') ->
  exists s1 c c' output coins1,
    ensure_level log2_ceil s h = Returns s1
    /\ compactors_ s1 !! Z.to_nat h = Some c
    /\ Compactor.Insert T_lt rest_order c element coins
       = Returns (c', output, coins1)
    /\ for_each
         (fun st x => Sketch_Insert fuel (fst st) x (wrap64 (h + 1)) (snd st))
         output
         (set_compactors s1 (H_ s1) (<[Z.to_nat h := c']> (compactors_ s1)),
          coins1)
       = Returns (s', coins').
Proof.
  cbn [RelativeErrorQuantilesSketch.Insert]. intros Hrun.
  destruct (ensure_level log2_ceil s h) as [s1| |]; cbn in Hrun;
    try discriminate.
  destruct (compactors_ s1 !! Z.to_nat h) as [c|] eqn:Hc; try discriminate.
  destruct (Compactor.Insert T_lt rest_order c element coins)
    as [[[c' output] coins1]| |] eqn:Hins; cbn in Hrun; try discriminate.
  exists s1, c, c', output, coins1. auto.
Qed.

Section Invariant.
(** [P] holds of every fresh compactor and is kept by an insertion of
    an item that satisfies [Q], whose output satisfies [Q] again. *)
Variable P : Compactor.t T -> Prop.
Variable Q : T -> Prop.
Variable options : RelativeErrorQuantilesSketchOptions.
Hypothesis P_new :
  forall h, P (Compactor.new log2_ceil (k options) (n options) h).
Hypothesis P_Insert :
  forall c element coins c' output coins',
    P c -> Q element ->
    Compactor.Insert T_lt rest_order c element coins
      = Returns (c', output, coins') ->
    P c' /\ Forall Q output.

Lemma new_sketch_inv : sketch_inv P options (new log2_ceil options).
Proof.
  unfold sketch_inv, vector_max_size. cbn.
  split; [reflexivity|]. split; [lia|]. split; [lia|]. split; [lia|].
  constructor; [apply P_new|constructor].
Qed.

Lemma ensure_level_inv (s s1 : t T) h c :
  sketch_inv P options s -> 0 <= h ->
  ensure_level log2_ceil s h = Returns s1 ->
  compactors_ s1 !! Z.to_nat h = Some c ->
  sketch_inv P options s1
  /\ h <= H_ s1
  /\ stored_weight 0 (compactors_ s1) = stored_weight 0 (compactors_ s)
  /\ weighted_elements_ s1 = weighted_elements_ s
  /\ total_weight_ s1 = total_weight_ s.
Proof.
  intros (Hopt & HH & Hlen & Hvec & HP) Hh Hrun Hc.
  unfold ensure_level, push_back in Hrun.
  destruct (Z.ltb_spec (H_ s) h) as [Hnew|Hold].
  - destruct (Z.ltb_spec (Z.of_nat (length (compactors_ s)))
                vector_max_size) as [Hroom|]; cbn in Hrun;
      try discriminate.
    injection Hrun as <-. cbn in Hc |- *.
    apply lookup_lt_Some in Hc. rewrite length_app in Hc. cbn in Hc.
    unfold sketch_inv. cbn. rewrite length_app. cbn.
    split; [|split; [lia|split; [|auto]]].
    + split; [assumption|]. split; [lia|]. split; [lia|]. split; [lia|].
      apply Forall_app. split; [assumption|].
      constructor; [|constructor]. rewrite Hopt. apply P_new.
    + rewrite stored_weight_app. cbn. lia.
  - injection Hrun as <-.
    split; [unfold sketch_inv; auto|]. split; [lia|auto].
Qed.

Lemma Insert_sketch_inv fuel (s : t T) element h coins s' coins' :
  sketch_inv P options s -> 0 <= h -> Q element ->
  Sketch_Insert fuel s element h coins = Returns (s', coins') ->
  sketch_inv P options s'
  /\ weighted_elements_ s' = weighted_elements_ s
  /\ total_weight_ s' = total_weight_ s.
Proof.
  revert s element h coins s' coins'.
  induction fuel as [|fuel IH]; intros s element h coins s' coins'
    Hinv Hh HQ Hrun; [discriminate|].
  apply Insert_S_inv in Hrun.
  destruct Hrun as (s1 & c & c' & output & coins1 & He & Hc & Hins & Hfor).
  destruct (ensure_level_inv _ _ _ _ Hinv Hh He Hc)
    as (Hinv1 & Hle & _ & Hw1 & Ht1).
  pose proof Hinv1 as (Hopt & HH & Hlen & Hvec & HP).
  assert (HPc : P c).
  { rewrite Forall_lookup in HP. apply (HP _ _ Hc). }
  destruct (P_Insert _ _ _ _ _ _ HPc HQ Hins) as [HPc' HQout].
  rewrite <- Hw1, <- Ht1.
  revert Hfor. generalize (wrap64 (h + 1)) (wrap64_range (h + 1)).
  intros h' Hh' Hfor.
  assert (Hstart :
            sketch_inv P options
              (set_compactors s1 (H_ s1)
                 (<[Z.to_nat h:=c']> (compactors_ s1)))).
  { unfold sketch_inv. cbn. rewrite length_insert.
    split; [assumption|]. split; [assumption|]. split; [assumption|].
    split; [assumption|]. apply Forall_insert; assumption. }
  revert Hstart Hfor.
  change (weighted_elements_ s1)
    with (weighted_elements_
            (set_compactors s1 (H_ s1)
               (<[Z.to_nat h:=c']> (compactors_ s1)))).
  change (total_weight_ s1)
    with (total_weight_
            (set_compactors s1 (H_ s1)
               (<[Z.to_nat h:=c']> (compactors_ s1)))).
  generalize (set_compactors s1 (H_ s1)
                (<[Z.to_nat h:=c']> (compactors_ s1))).
  clear - IH HQout Hh'.
  revert coins1.
  induction HQout as [|x output HQx _ IHout]; intros coins1 s2 Hinv2 Hfor;
    cbn in Hfor.
  - injection Hfor as <- <-. auto.
  - destruct (Sketch_Insert fuel s2 x h' coins1) as [[s3 coins3]| |] eqn:Hx;
      cbn in Hfor; try discriminate.
    apply IH in Hx; [|assumption|apply Hh'|assumption].
    destruct Hx as (Hinv3 & Hw3 & Ht3).
    rewrite <- Hw3, <- Ht3. apply (IHout _ _ Hinv3 Hfor).
Qed.

End Invariant.

Lemma new_compactor_even k n h :
  Z.even k = true -> compactor_even (Compactor.new (T:=T) log2_ceil k n h).
Proof.
  intros Hk. split; [apply new_max_buffer_size_range|].
  split; [exact Hk|apply new_max_buffer_size_even].
Qed.

Lemma Insert_compactor_even (c : Compactor.t T) element coins c' output coins' :
  compactor_even c -> True ->
  Compactor.Insert T_lt rest_order c element coins
    = Returns (c', output, coins') ->
  compactor_even c' /\ Forall (fun _ => True) output.
Proof.
  intros Hc _ Hrun. split.
  - eapply Insert_balance; eassumption.
  - apply Forall_forall. auto.
Qed.

(** An insertion at level [h] adds [2^h] to the weight the buffers stand
    for, whatever is promoted on the way. *)
Lemma Insert_weight options fuel (s : t T) element h coins s' coins' :
  Z.even (k options) = true ->
  sketch_inv compactor_even options s -> 0 <= h ->
  Sketch_Insert fuel s element h coins = Returns (s', coins') ->
  sketch_inv compactor_even options s'
  /\ stored_weight 0 (compactors_ s')
     = stored_weight 0 (compactors_ s) + 2 ^ h.
Proof.
  intros Hk. revert s element h coins s' coins'.
  induction fuel as [|fuel IH]; intros s element h coins s' coins'
    Hinv Hh Hrun; [discriminate|].
  apply Insert_S_inv in Hrun.
  destruct Hrun as (s1 & c & c' & output & coins1 & He & Hc & Hins & Hfor).
  destruct (ensure_level_inv compactor_even options
              (fun h => new_compactor_even _ _ h Hk) _ _ _ _ Hinv Hh He Hc)
    as (Hinv1 & Hle & Hsw1 & _ & _).
  pose proof Hinv1 as (Hopt & HH & Hlen & Hvec & HP).
  assert (HPc : compactor_even c).
  { rewrite Forall_lookup in HP. apply (HP _ _ Hc). }
  assert (HPc' : compactor_even c'
                 /\ Z.of_nat (length (Compactor.buffer c'))
                      + 2 * Z.of_nat (length output)
                    = Z.of_nat (length (Compactor.buffer c)) + 1)
    by (eapply Insert_balance; eassumption).
  destruct HPc' as [HPc' Hbal].
  assert (Hnext : wrap64 (h + 1) = h + 1).
  { apply wrap64_small. unfold vector_max_size in Hvec. lia. }
  rewrite Hnext in Hfor.
  apply (for_each_invariant _
           (fun st => sketch_inv compactor_even options (fst st))
           (fun st => stored_weight 0 (compactors_ (fst st)))
           (2 ^ (h + 1))) in Hfor.
  - cbn [fst compactors_ set_compactors] in Hfor.
    destruct Hfor as [Hinv' Hsw']. split; [exact Hinv'|].
    rewrite Hsw', (stored_weight_insert _ _ _ _ _ Hc), Hsw1.
    rewrite Z.add_0_l, Z2Nat.id, Z.pow_add_r by lia.
    change (2 ^ 1) with 2. nia.
  - intros [s2 coins2] x [s3 coins3] Hinv2 Hstep. cbn [fst snd] in *.
    apply IH in Hstep; [exact Hstep|exact Hinv2|lia].
  - unfold sketch_inv. cbn. rewrite length_insert.
    split; [assumption|]. split; [assumption|]. split; [assumption|].
    split; [assumption|]. apply Forall_insert; assumption.
Qed.

End SketchFacts.

(** ** Termination of the cascade *)

Lemma stored_weight_nonneg {T} h (cs : list (Compactor.t T)) :
  0 <= stored_weight h cs.
Proof.
  revert h. induction cs as [|c cs IH]; intros h; cbn [stored_weight].
  - lia.
  - specialize (IH (h + 1)).
    assert (0 <= 2 ^ h) by apply Z.pow_nonneg, Z.le_0_2 || (apply Z.pow_nonneg; lia).
    nia.
Qed.

Lemma stored_weight_lookup_le {T} h (cs : list (Compactor.t T)) i c :
  cs !! i = Some c ->
  2 ^ (h + Z.of_nat i) * Z.of_nat (length (Compactor.buffer c))
  <= stored_weight h cs.
Proof.
  revert h i. induction cs as [|c0 cs IH]; intros h i Hi.
  - discriminate.
  - destruct i as [|i]; cbn in Hi; cbn [stored_weight].
    + injection Hi as ->. rewrite Z.add_0_r.
      pose proof (stored_weight_nonneg (h + 1) cs). lia.
    + specialize (IH (h + 1) i Hi).
      replace (h + Z.of_nat (S i)) with (h + 1 + Z.of_nat i) by lia.
      assert (0 <= 2 ^ h) by (apply Z.pow_nonneg; lia).
      nia.
Qed.

Lemma stored_weight_le_cap {T} cap h (cs : list (Compactor.t T)) :
  0 <= h ->
  Forall (fun c => Z.of_nat (length (Compactor.buffer c)) <= cap) cs ->
  stored_weight h cs <= cap * (2 ^ (h + Z.of_nat (length cs)) - 2 ^ h).
Proof.
  intros Hh Hcs. revert h Hh.
  induction Hcs as [|c cs Hc _ IH]; intros h Hh; cbn [stored_weight length].
  - rewrite Z.add_0_r. lia.
  - specialize (IH (h + 1) ltac:(lia)).
    replace (h + Z.of_nat (S (length cs)))
      with (h + 1 + Z.of_nat (length cs)) by lia.
    rewrite (Z.pow_add_r 2 h 1) in IH by lia. change (2 ^ 1) with 2 in IH.
    assert (0 < 2 ^ h) by (apply Z.pow_pos_nonneg; lia).
    nia.
Qed.

Section Termination.
Context {T : Type}.
Variable T_lt : T -> T -> bool.
Variable log2_ceil : Z -> Z -> Z.
Variable rest_order : list T -> list T -> list T.
Hypothesis rest_order_perm :
  forall buf rest, Permutation (rest_order buf rest) rest.

Import RelativeErrorQuantilesSketch.

Abbreviation Sketch_Insert :=
  (RelativeErrorQuantilesSketch.Insert T_lt log2_ceil rest_order).

Lemma Compactor_Insert_total (c : Compactor.t T) element coins :
  Compactor.Insert T_lt rest_order c element coins <> OutOfFuel.
Proof.
  unfold Compactor.Insert, Compactor.compact, push_back.
  destruct (_ =? _); cbn.
  - destruct (_ <? _); cbn; [discriminate|].
    destruct (_ <? _); cbn; [discriminate|].
    destruct (_ <? _); cbn; discriminate.
  - destruct (_ <? _); cbn; discriminate.
Qed.

Lemma Compactor_Insert_faults (c : Compactor.t T) element coins f :
  Compactor.Insert T_lt rest_order c element coins = Fault f ->
  f = PartialSortRange \/ f = LengthError.
Proof.
  unfold Compactor.Insert, Compactor.compact, push_back.
  destruct (_ =? _); cbn.
  - destruct (_ <? _); cbn; [intros [= <-]; auto|].
    destruct (_ <? _); cbn; [intros [= <-]; auto|].
    destruct (_ <? _); cbn; [discriminate|intros [= <-]; auto].
  - destruct (_ <? _); cbn; [discriminate|intros [= <-]; auto].
Qed.

Lemma Insert_max_buffer_size (c : Compactor.t T) element coins c' output coins' :
  Compactor.Insert T_lt rest_order c element coins
    = Returns (c', output, coins') ->
  Compactor.max_buffer_size c' = Compactor.max_buffer_size c.
Proof.
  intros Hrun.
  destruct (Insert_inv _ _ _ _ _ _ _ _ Hrun)
    as [(_ & _ & -> & _ & _)|(_ & c1 & Hc1 & _ & ->)]; cbn.
  - reflexivity.
  - unfold Compactor.compact in Hc1.
    destruct (_ <? _) in Hc1; try discriminate.
    destruct (_ <? _) in Hc1; try discriminate.
    injection Hc1 as <- _ _. reflexivity.
Qed.

Lemma ensure_level_H (s s1 : t T) h :
  ensure_level log2_ceil s h = Returns s1 -> H_ s1 = Z.max (H_ s) h.
Proof.
  unfold ensure_level, push_back. intros Hrun.
  destruct (Z.ltb_spec (H_ s) h).
  - destruct (_ <? _); cbn in Hrun; try discriminate.
    injection Hrun as <-. cbn. lia.
  - injection Hrun as <-. lia.
Qed.

Lemma ensure_level_total (s : t T) h :
  ensure_level log2_ceil s h <> OutOfFuel.
Proof.
  unfold ensure_level, push_back.
  destruct (_ <? _); [|discriminate].
  destruct (_ <? _); cbn; discriminate.
Qed.

Lemma ensure_level_faults (s : t T) h f :
  ensure_level log2_ceil s h = Fault f -> f = LengthError.
Proof.
  unfold ensure_level, push_back.
  destruct (_ <? _); [|discriminate].
  destruct (_ <? _); cbn; [discriminate|intros [= <-]; reflexivity].
Qed.

(** Levels are created dense: at a level up to [H + 1] the compactor
    [compactors_[h]] exists once [ensure_level] has run. *)
Lemma ensure_level_dense P options (s s1 : t T) h :
  sketch_inv P options s -> 0 <= h <= H_ s + 1 ->
  ensure_level log2_ceil s h = Returns s1 ->
  exists c, compactors_ s1 !! Z.to_nat h = Some c.
Proof.
  intros (_ & HH & Hlen & _ & _) Hh Hrun.
  apply lookup_lt_is_Some.
  unfold ensure_level, push_back in Hrun.
  destruct (Z.ltb_spec (H_ s) h).
  - destruct (_ <? _); cbn in Hrun; try discriminate.
    injection Hrun as <-. cbn. rewrite length_app. cbn. lia.
  - injection Hrun as <-. lia.
Qed.

Lemma Insert_H_mono fuel :
  forall (s : t T) element h coins s' coins',
    Sketch_Insert fuel s element h coins = Returns (s', coins') ->
    H_ s <= H_ s'.
Proof.
  induction fuel as [|fuel IH]; intros s element h coins s' coins' Hrun;
    [discriminate|].
  apply Insert_S_inv in Hrun.
  destruct Hrun as (s1 & c & c' & output & coins1 & He & _ & _ & Hfor).
  apply ensure_level_H in He.
  apply (for_each_invariant _ (fun st => H_ s <= H_ (fst st)) (fun _ => 0) 0)
    in Hfor.
  - apply Hfor.
  - intros [s2 coins2] x [s3 coins3] Hle Hstep. cbn [fst snd] in *.
    apply IH in Hstep. lia.
  - cbn. lia.
Qed.

Lemma sketch_inv_weaken (P P' : Compactor.t T -> Prop) options (s : t T) :
  (forall c, P c -> P' c) -> sketch_inv P options s -> sketch_inv P' options s.
Proof.
  intros Himp (Hopt & HH & Hlen & Hvec & HP).
  split; [assumption|]. split; [assumption|]. split; [assumption|].
  split; [assumption|]. eapply Forall_impl; eassumption.
Qed.

Section Options.
Variable options : RelativeErrorQuantilesSketchOptions.
Hypothesis k_positive : 0 < k options < 2 ^ 64.
Hypothesis k_even : Z.even (k options) = true.

Abbreviation cap :=
  (Compactor.max_buffer_size
     (Compactor.new (T:=T) log2_ceil (k options) (n options) 0)).

Abbreviation level := (level_ok (T:=T) log2_ceil options).

Lemma new_level_ok h :
  level
    (Compactor.new log2_ceil (k options) (n options) h).
Proof.
  split; [apply new_compactor_inv; exact k_positive|].
  split; [apply new_compactor_even; exact k_even|reflexivity].
Qed.

Lemma Insert_level_ok (c : Compactor.t T) element coins c' output coins' :
  level c -> True ->
  Compactor.Insert T_lt rest_order c element coins
    = Returns (c', output, coins') ->
  level c' /\ Forall (fun _ => True) output.
Proof.
  intros (Hinv & Heven & Hcap) _ Hrun.
  split; [|apply Forall_forall; intros y _; exact Logic.I].
  split; [eapply Insert_compactor_inv; eassumption|].
  split; [eapply Insert_balance; eassumption|].
  rewrite (Insert_max_buffer_size _ _ _ _ _ _ Hrun). exact Hcap.
Qed.

Lemma Insert_keeps_levels fuel (s : t T) element h coins s' coins' :
  sketch_inv (level) options s -> 0 <= h ->
  Sketch_Insert fuel s element h coins = Returns (s', coins') ->
  sketch_inv (level) options s'
  /\ stored_weight 0 (compactors_ s') = stored_weight 0 (compactors_ s) + 2 ^ h.
Proof.
  intros Hinv Hh Hrun. split.
  - apply (Insert_sketch_inv _ _ _ (level)
             (fun _ => True) options new_level_ok Insert_level_ok
             _ _ _ _ _ _ _ Hinv Hh Logic.I Hrun).
  - eapply (Insert_weight _ _ _ rest_order_perm options); try eassumption.
    eapply sketch_inv_weaken; [|exact Hinv]. intros c Hc. apply Hc.
Qed.

(** A cascade that starts at level 0 in a sketch whose top level is
    [top0] never goes deeper than level [top0 + 1]: the weight the cascade
    can move up is too small to fill a level created on the way. *)
Lemma Insert_bounded top0 :
  2 <= cap ->
  forall fuel (s : t T) element h coins,
    sketch_inv level options s ->
    0 <= h <= top0 + 1 ->
    h <= H_ s + 1 ->
    H_ s <= top0 + 1 ->
    top0 + 2 - h <= Z.of_nat fuel ->
    stored_weight 0 (compactors_ s) + 2 ^ h
      <= cap * (2 ^ (top0 + 1) - 1) + 1 ->
    ends_within (top0 + 1) (Sketch_Insert fuel s element h coins).
Proof.
  intros Hcap.
  induction fuel as [|fuel IH];
    intros s element h coins Hinv Hh Hdense HH Hfuel Hw; [lia|].
  cbn [RelativeErrorQuantilesSketch.Insert].
  destruct (ensure_level log2_ceil s h) as [s1|f|] eqn:He; cbn [bind];
    [|right; apply (ensure_level_faults _ _ _ He)
     |apply (ensure_level_total _ _ He)].
  destruct (ensure_level_dense _ _ _ _ _ Hinv (conj (proj1 Hh) Hdense) He)
    as [c Hc].
  rewrite Hc.
  destruct (ensure_level_inv _ _ _ new_level_ok _ _ _ _ Hinv (proj1 Hh) He Hc)
    as (Hinv1 & Hle & Hsw1 & _ & _).
  pose proof (ensure_level_H _ _ _ He) as HH1.
  destruct (Compactor.Insert T_lt rest_order c element coins)
    as [[[c' output] coins1]|f|] eqn:Hins; cbn [bind];
    [|apply (Compactor_Insert_faults _ _ _ _ Hins)
     |apply (Compactor_Insert_total _ _ _ Hins)].
  pose proof Hinv1 as (Hopt & HH0 & Hlen & Hvec & HP).
  assert (HPc : level c).
  { rewrite Forall_lookup in HP. apply (HP _ _ Hc). }
  destruct (Insert_level_ok _ _ _ _ _ _ HPc Logic.I Hins) as [HPc' _].
  assert (Hbal : Z.of_nat (length (Compactor.buffer c'))
                 + 2 * Z.of_nat (length output)
                 = Z.of_nat (length (Compactor.buffer c)) + 1).
  { apply (Insert_balance T_lt log2_ceil rest_order rest_order_perm
             _ _ _ _ _ _ (proj1 (proj2 HPc)) Hins). }
  set (s2 := set_compactors s1 (H_ s1) (<[Z.to_nat h:=c']> (compactors_ s1))).
  assert (Hinv2 : sketch_inv level options s2).
  { unfold sketch_inv, s2. cbn. rewrite length_insert.
    split; [assumption|]. split; [assumption|]. split; [assumption|].
    split; [assumption|]. apply Forall_insert; assumption. }
  assert (Hsw2 : stored_weight 0 (compactors_ s2)
                 + Z.of_nat (length output) * 2 ^ (h + 1)
                 = stored_weight 0 (compactors_ s) + 2 ^ h).
  { unfold s2. cbn [compactors_ set_compactors].
    rewrite (stored_weight_insert _ _ _ _ _ Hc), Hsw1.
    rewrite Z.add_0_l, Z2Nat.id, Z.pow_add_r by lia.
    change (2 ^ 1) with 2. nia. }
  assert (HH2 : H_ s2 <= top0 + 1) by (unfold s2; cbn; lia).
  assert (Hdense2 : h <= H_ s2) by (unfold s2; cbn; lia).
  assert (Hnext : wrap64 (h + 1) = h + 1).
  { apply wrap64_small. unfold vector_max_size in Hvec. lia. }
  rewrite Hnext.
  destruct (Z.eq_dec h (top0 + 1)) as [Htop|Hbelow].
  - (* the level the cascade created, or the old top: it has room *)
    assert (Hout : output = []).
    { destruct (Insert_inv _ _ _ _ _ _ _ _ Hins)
        as [(_ & _ & _ & -> & _)|(Hfull & _)]; [reflexivity|exfalso].
      pose proof (stored_weight_lookup_le 0 _ _ _ Hc) as Hlow.
      rewrite Z.add_0_l, Z2Nat.id, Hfull, Hsw1 in Hlow by lia.
      destruct HPc as (_ & _ & Hmaxc).
      rewrite Hmaxc in Hlow. subst h.
      assert (0 < 2 ^ (top0 + 1)) by (apply Z.pow_pos_nonneg; lia).
      nia. }
    subst output. cbn. exact HH2.
  - (* below: every promoted item fits the weight budget *)
    assert (Hfuel' : top0 + 2 - (h + 1) <= Z.of_nat fuel) by lia.
    assert (Hh' : 0 <= h + 1 <= top0 + 1) by lia.
    rewrite <- Hsw2 in Hw.
    clear Hsw2 Hbal Hins Hc HPc HPc' Hsw1 He HH1 Hinv1 Hopt HH0 Hlen Hvec HP
      Hle Hinv HH Hnext Hdense.
    revert HH2 Hdense2 Hinv2 Hw. generalize s2 coins1. clear s2.
    induction output as [|x output IHout];
      intros s2 coins2 HH2 Hdense2 Hinv2 Hw.
    + cbn. exact HH2.
    + cbn [for_each fst snd length] in *.
      rewrite Nat2Z.inj_succ in Hw.
      assert (Hpow : 0 < 2 ^ (h + 1)) by (apply Z.pow_pos_nonneg; lia).
      assert (Hchild : ends_within (top0 + 1)
                         (Sketch_Insert fuel s2 x (h + 1) coins2)).
      { apply IH; try assumption; try lia. }
      destruct (Sketch_Insert fuel s2 x (h + 1) coins2)
        as [[s3 coins3]|f|] eqn:Hx; cbn [bind];
        [|exact Hchild|exact Hchild].
      destruct (Insert_keeps_levels _ _ _ _ _ _ _ Hinv2 (proj1 Hh') Hx)
        as [Hinv3 Hsw3].
      pose proof (Insert_H_mono _ _ _ _ _ _ _ Hx) as Hmono.
      assert (Hdense3 : h <= H_ s3) by lia.
      apply (IHout s3 coins3 Hchild Hdense3 Hinv3).
      rewrite Hsw3. lia.
Qed.

(** Enough fuel: a depth of [H + 2] serves any insertion at level 0, and
    the insertion adds at most one level. *)
Lemma Insert_terminates fuel (s : t T) element coins :
  sketch_inv level options s ->
  H_ s + 2 <= Z.of_nat fuel ->
  ends_within (H_ s + 1) (Sketch_Insert fuel s element 0 coins).
Proof.
  intros Hinv Hfuel.
  pose proof Hinv as (Hopt & HH & Hlen & Hvec & HP).
  destruct (Z.le_gt_cases 2 cap) as [Hcap|Hsmall].
  - apply (Insert_bounded (H_ s) Hcap); try assumption; try lia.
    assert (Hsizes : Forall (fun c : Compactor.t T =>
                               Z.of_nat (length (Compactor.buffer c)) <= cap)
                       (compactors_ s)).
    { eapply Forall_impl; [|exact HP].
      intros c ((_ & _ & _ & Hle) & _ & Hmaxc). cbn beta.
      rewrite <- Hmaxc. exact Hle. }
    pose proof (stored_weight_le_cap cap 0 _ (Z.le_refl 0) Hsizes) as Hbound.
    rewrite Hlen, Z.add_0_l in Hbound. change (2 ^ 0) with 1 in Hbound.
    change (2 ^ 0) with 1. lia.
  - (* capacity 0: the first compaction cannot fit *)
    destruct fuel as [|fuel]; [lia|].
    cbn [RelativeErrorQuantilesSketch.Insert].
    destruct (ensure_level log2_ceil s 0) as [s1|f|] eqn:He; cbn [bind];
      [|right; apply (ensure_level_faults _ _ _ He)
       |apply (ensure_level_total _ _ He)].
    assert (Hzero : 0 <= 0 <= H_ s + 1) by lia.
    destruct (ensure_level_dense _ _ _ _ _ Hinv Hzero He) as [c Hc].
    rewrite Hc.
    destruct (ensure_level_inv _ _ _ new_level_ok _ _ _ _ Hinv (Z.le_refl 0)
                He Hc) as (Hinv1 & _).
    destruct Hinv1 as (_ & _ & _ & _ & HP1).
    assert (HPc : level c).
    { rewrite Forall_lookup in HP1. apply (HP1 _ _ Hc). }
    destruct (Compactor.Insert T_lt rest_order c element coins)
      as [[[c' output] coins1]|f|] eqn:Hins; cbn [bind];
      [exfalso|apply (Compactor_Insert_faults _ _ _ _ Hins)
      |apply (Compactor_Insert_total _ _ _ Hins)].
    destruct HPc as (Hcinv & _ & Hmaxc).
    destruct (Insert_compactor_inv _ _ _ rest_order_perm _ _ _ _ _ _ Hcinv Hins)
      as [(_ & _ & _ & Hle') Hone].
    rewrite (Insert_max_buffer_size _ _ _ _ _ _ Hins), Hmaxc in Hle'.
    pose proof (new_max_buffer_size_range (T:=T) log2_ceil (k options)
                  (n options) 0) as Hrange.
    pose proof (new_max_buffer_size_even (T:=T) log2_ceil (k options)
                  (n options) 0) as Heven.
    assert (Hcap1 : cap = 1) by lia.
    rewrite Hcap1 in Heven. discriminate.
Qed.

(** A run over [items] ends within a depth of [H + 1 + |items|], and it
    adds at most one level per item. *)
Lemma Insert_all_terminates fuel items :
  forall (s : t T) coins,
    sketch_inv level options s ->
    H_ s + 1 + Z.of_nat (length items) <= Z.of_nat fuel ->
    ends_within (H_ s + Z.of_nat (length items))
      (Insert_all T_lt log2_ceil rest_order fuel s items coins).
Proof.
  unfold Insert_all.
  induction items as [|x items IH]; intros s coins Hinv Hfuel;
    cbn [for_each fst snd length] in *; [cbn; lia|].
  rewrite Nat2Z.inj_succ in Hfuel |- *.
  assert (Hdeep : H_ s + 2 <= Z.of_nat fuel) by lia.
  pose proof (Insert_terminates fuel s x coins Hinv Hdeep) as Hfirst.
  destruct (Sketch_Insert fuel s x 0 coins) as [[s1 coins1]|f|] eqn:Hx;
    cbn [bind]; [|exact Hfirst|exact Hfirst].
  cbn in Hfirst.
  destruct (Insert_keeps_levels _ _ _ _ _ _ _ Hinv (Z.le_refl 0) Hx)
    as [Hinv1 _].
  assert (Hfuel1 : H_ s1 + 1 + Z.of_nat (length items) <= Z.of_nat fuel)
    by lia.
  specialize (IH s1 coins1 Hinv1 Hfuel1).
  destruct (for_each _ items (s1, coins1)) as [[s2 coins2]|f|];
    cbn in IH |- *; [lia|exact IH|exact IH].
Qed.

End Options.

Lemma Insert_S fuel (s : t T) element h coins :
  Sketch_Insert (S fuel) s element h coins
  = bind (ensure_level log2_ceil s h) (fun s1 =>
      match compactors_ s1 !! Z.to_nat h with
      | None => Fault VectorIndex
      | Some c =>
          bind (Compactor.Insert T_lt rest_order c element coins)
            (fun '(c', output_stream, coins1) =>
               for_each
                 (fun st x =>
                    Sketch_Insert fuel (fst st) x (wrap64 (h + 1)) (snd st))
                 output_stream
                 (set_compactors s1 (H_ s1)
                    (<[Z.to_nat h := c']> (compactors_ s1)), coins1))
      end).
Proof. reflexivity. Qed.

(** More fuel does not change an outcome that did not run out of it. *)
Lemma Insert_fuel_mono fuel :
  forall (s : t T) element h coins,
    Sketch_Insert fuel s element h coins <> OutOfFuel ->
    Sketch_Insert (S fuel) s element h coins
    = Sketch_Insert fuel s element h coins.
Proof.
  induction fuel as [|fuel IH]; intros s element h coins Hnot;
    [exfalso; apply Hnot; reflexivity|].
  revert Hnot. rewrite (Insert_S (S fuel)), (Insert_S fuel).
  destruct (ensure_level log2_ceil s h) as [s1| |]; cbn [bind]; try reflexivity.
  destruct (compactors_ s1 !! Z.to_nat h) as [c|]; try reflexivity.
  destruct (Compactor.Insert T_lt rest_order c element coins)
    as [[[c' output] coins1]| |]; cbn [bind]; try reflexivity.
  generalize (set_compactors s1 (H_ s1) (<[Z.to_nat h:=c']> (compactors_ s1))).
  generalize (wrap64 (h + 1)). intros h' s2. revert s2 coins1.
  induction output as [|x output IHout]; intros s2 coins1 Hnot;
    cbn [for_each fst snd] in *; [reflexivity|].
  destruct (Sketch_Insert fuel s2 x h' coins1) as [[s3 coins3]| |] eqn:Hx.
  - rewrite IH by (rewrite Hx; discriminate). rewrite Hx. cbn [bind] in *.
    apply IHout. exact Hnot.
  - rewrite IH by (rewrite Hx; discriminate). rewrite Hx. reflexivity.
  - exfalso. apply Hnot. reflexivity.
Qed.

End Termination.

(** ** Close and the total weight *)

Section CloseFacts.
Context {T : Type}.
Variable T_lt : T -> T -> bool.
Variable T_empty : T -> bool.

Import RelativeErrorQuantilesSketch.

Lemma fold_weight_from (l : list (WeightedElement T)) a :
  fold_left (fun d element => d + weight element) l a
  = a + accumulate_weight l.
Proof.
  unfold accumulate_weight. revert a.
  induction l as [|x l IH]; intros a; cbn.
  - lia.
  - rewrite (IH (a + weight x)), (IH (0 + weight x)). lia.
Qed.

Lemma accumulate_weight_cons x (l : list (WeightedElement T)) :
  accumulate_weight (x :: l) = weight x + accumulate_weight l.
Proof.
  unfold accumulate_weight at 1. cbn. apply fold_weight_from.
Qed.

Lemma accumulate_weight_app (l l' : list (WeightedElement T)) :
  accumulate_weight (l ++ l') = accumulate_weight l + accumulate_weight l'.
Proof.
  induction l as [|x l IH]; cbn [app].
  - reflexivity.
  - rewrite !accumulate_weight_cons, IH. lia.
Qed.

Lemma accumulate_weight_perm (l l' : list (WeightedElement T)) :
  Permutation l l' -> accumulate_weight l = accumulate_weight l'.
Proof.
  induction 1; rewrite ?accumulate_weight_cons; try congruence; lia.
Qed.

Lemma accumulate_weight_const w (buf : list T) :
  accumulate_weight (map (fun x => mkWeighted x w) buf)
  = w * Z.of_nat (length buf).
Proof.
  induction buf as [|x buf IH]; cbn [map length].
  - cbn. lia.
  - rewrite accumulate_weight_cons, IH. cbn [weight]. lia.
Qed.

Lemma Close_loop_weight (cs : list (Compactor.t T)) h acc ws :
  0 <= h -> h + Z.of_nat (length cs) < 2 ^ 64 ->
  Close_loop T_empty h cs acc = Returns ws ->
  accumulate_weight ws = accumulate_weight acc + stored_weight h cs.
Proof.
  revert h acc. induction cs as [|c cs IH]; intros h acc Hh Hlen Hrun;
    cbn in Hrun.
  - injection Hrun as <-. cbn. lia.
  - unfold weigh in Hrun.
    destruct (existsb T_empty (Compactor.buffer c)); cbn in Hrun;
      try discriminate.
    cbn [length] in Hlen.
    rewrite wrap64_small in Hrun by lia.
    apply IH in Hrun; [|lia|lia].
    rewrite Hrun, accumulate_weight_app, accumulate_weight_const.
    cbn [stored_weight]. lia.
Qed.

Lemma Close_loop_returns (cs : list (Compactor.t T)) h acc :
  Forall (fun c => Forall (fun x => T_empty x = false) (Compactor.buffer c))
    cs ->
  exists ws, Close_loop T_empty h cs acc = Returns ws.
Proof.
  intros Hcs. revert h acc.
  induction Hcs as [|c cs Hc _ IH]; intros h acc; cbn.
  - eexists. reflexivity.
  - unfold weigh.
    assert (Hnone : existsb T_empty (Compactor.buffer c) = false).
    { apply not_true_is_false. intros Hex.
      apply existsb_exists in Hex. destruct Hex as (x & Hin & Hx).
      rewrite Forall_forall in Hc.
      rewrite (Hc _ Hin) in Hx. discriminate. }
    rewrite Hnone. cbn. apply IH.
Qed.

Lemma Close_total_weight P options (s s' : t T) :
  sketch_inv P options s ->
  Close T_lt T_empty s = Returns s' ->
  total_weight_ s'
  = accumulate_weight (weighted_elements_ s)
    + stored_weight 0 (compactors_ s).
Proof.
  intros (_ & _ & _ & Hvec & _) Hrun. unfold Close in Hrun.
  destruct (negb _); try discriminate.
  destruct (Close_loop T_empty 0 (compactors_ s) (weighted_elements_ s))
    as [ws| |] eqn:Hloop; cbn in Hrun; try discriminate.
  injection Hrun as <-. cbn.
  rewrite (accumulate_weight_perm _ _ (std_sort_perm _ ws)).
  unfold vector_max_size in Hvec.
  apply Close_loop_weight in Hloop; [exact Hloop|lia|lia].
Qed.

Lemma Close_returns P options (s : t T) :
  sketch_inv P options s ->
  Forall (fun c => Forall (fun x => T_empty x = false) (Compactor.buffer c))
    (compactors_ s) ->
  exists s', Close T_lt T_empty s = Returns s'.
Proof.
  intros (_ & HH & Hlen & Hvec & _) Hitems. unfold Close.
  unfold vector_max_size in Hvec.
  rewrite wrap64_small by lia.
  destruct (Z.eqb_spec (H_ s + 1) (Z.of_nat (length (compactors_ s))));
    [|lia]. cbn [negb].
  destruct (Close_loop_returns _ 0 (weighted_elements_ s) Hitems)
    as [ws ->]. cbn. eexists. reflexivity.
Qed.

End CloseFacts.

Lemma keep_order_perm {T} (buf rest : list T) :
  Permutation (keep_order buf rest) rest.
Proof. reflexivity. Qed.

(** * The claims *)

Section WeightConservation.
Context {T : Type}.
Variable T_lt : T -> T -> bool.
Variable T_empty : T -> bool.
Variable log2_ceil : Z -> Z -> Z.
Variable rest_order : list T -> list T -> list T.
Hypothesis rest_order_perm :
  forall buf rest, Permutation (rest_order buf rest) rest.

Import RelativeErrorQuantilesSketch.

(** C1. Weight conservation: after any sequence of items has been
    inserted at level 0 into a fresh sketch with an even section size,
    without a compaction ever exceeding the buffer (the run returns),
    one [Close] sets [total_weight] to exactly the number of items, for
    every stream of coin outcomes; [Close] does return when no item trips
    its [!t.empty()] assertion; and with a positive section size and a
    recursion depth of more than the number of items the run always ends:
    it returns, with at most one level per item, or it stops at the
    compaction that exceeds the buffer (or at a vector that cannot
    grow). *)
Theorem total_weight_conserved options (items : list T) fuel coins :
  Z.even (k options) = true ->
  (0 < k options < 2 ^ 64 ->
   Z.of_nat (length items) < Z.of_nat fuel ->
   ends_within (Z.of_nat (length items))
     (Insert_all T_lt log2_ceil rest_order fuel (new log2_ceil options)
        items coins))
  /\ (forall s coins',
        Insert_all T_lt log2_ceil rest_order fuel (new log2_ceil options)
          items coins = Returns (s, coins') ->
        (forall s', Close T_lt T_empty s = Returns s' ->
                    TotalWeight s' = Z.of_nat (length items))
        /\ (Forall (fun x => T_empty x = false) items ->
            exists s', Close T_lt T_empty s = Returns s')).
Proof.
  intros Hk. split.
  { intros Hkpos Hfuel.
    apply (Insert_all_terminates _ _ _ rest_order_perm options Hkpos Hk
             fuel items (new log2_ceil options) coins).
    - apply new_sketch_inv. intros h. apply new_level_ok; assumption.
    - cbn. lia. }
  intros s coins' Hrun. unfold Insert_all in Hrun. split.
  - intros s' Hclose.
    apply (for_each_invariant _
             (fun st => sketch_inv compactor_even options (fst st)
                        /\ weighted_elements_ (fst st) = [])
             (fun st => stored_weight 0 (compactors_ (fst st))) 1)
      in Hrun.
    + cbn [fst] in Hrun. destruct Hrun as [[Hinv Hwe] Hsw].
      unfold TotalWeight.
      rewrite (Close_total_weight _ _ _ _ _ _ Hinv Hclose), Hwe, Hsw.
      cbn. lia.
    + intros [s1 coins1] x [s2 coins2] [Hinv1 Hwe1] Hstep.
      cbn [fst snd] in *.
      pose proof Hstep as Hstep'.
      apply (Insert_weight _ _ _ rest_order_perm options) in Hstep;
        [|assumption|assumption|lia].
      apply (Insert_sketch_inv _ _ _ compactor_even (fun _ => True) options)
        in Hstep';
        [|intros h; apply new_compactor_even; assumption
         |intros; eapply Insert_compactor_even; eassumption
         |assumption|lia|exact Logic.I].
      destruct Hstep as [Hinv2 Hsw2]. destruct Hstep' as (_ & Hwe2 & _).
      split; [split; [assumption|congruence]|].
      rewrite Hsw2. reflexivity.
    + cbn [fst]. split; [|reflexivity].
      apply new_sketch_inv. intros h. apply new_compactor_even. exact Hk.
  - intros Hitems.
    set (P := fun c : Compactor.t T =>
                Forall (fun x => T_empty x = false) (Compactor.buffer c)).
    apply (for_each_invariant_on _ (fun x => T_empty x = false)
             (fun st => sketch_inv P options (fst st))
             (fun _ => 0) 0) in Hrun.
    + cbn [fst] in Hrun. destruct Hrun as [Hinv _].
      apply (Close_returns _ _ _ _ _ Hinv). apply Hinv.
    + intros [s1 coins1] x [s2 coins2] Hx Hinv1 Hstep. cbn [fst snd] in *.
      apply (Insert_sketch_inv _ _ _ P (fun x => T_empty x = false) options)
        in Hstep;
        [|intros h; constructor
         |intros; eapply Insert_contents; eassumption
         |assumption|lia|assumption].
      split; [apply Hstep|lia].
    + exact Hitems.
    + cbn [fst]. apply new_sketch_inv. intros h. constructor.
Qed.

End WeightConservation.

Lemma total_weight_conserved_witness :
  ends_within 20
    (IntSketch.Insert_all 30 (IntSketch.new 8 2) (IntSketch.range 0 20)
       (srepeat true))
  /\ exists s coins',
       IntSketch.Insert_all 30 (IntSketch.new 8 2) (IntSketch.range 0 20)
         (srepeat true) = Returns (s, coins')
       /\ exists s', IntSketch.Close s = Returns s'
                     /\ RelativeErrorQuantilesSketch.TotalWeight s' = 20.
Proof.
  destruct (total_weight_conserved Z.ltb (fun _ : Z => false)
              log2_ceil_exact (@keep_order Z) keep_order_perm
              (RelativeErrorQuantilesSketch.mkOptions 8 2)
              (IntSketch.range 0 20) 30 (srepeat true) eq_refl)
    as [Hends Hweight].
  split.
  - apply Hends; cbn; lia.
  - assert (Hrun : exists r,
               IntSketch.Insert_all 30 (IntSketch.new 8 2)
                 (IntSketch.range 0 20) (srepeat true) = Returns r)
      by (eexists; vm_compute; reflexivity).
    destruct Hrun as [[s coins'] Hrun].
    exists s, coins'. split; [exact Hrun|].
    destruct (Hweight s coins' Hrun) as [Htotal Hreturns].
    destruct Hreturns as [s' Hs']; [apply Forall_forall; reflexivity|].
    exists s'. split; [exact Hs'|exact (Htotal s' Hs')].
Defined.

Section BufferBounds.
Context {T : Type}.
Variable T_lt : T -> T -> bool.
Variable log2_ceil : Z -> Z -> Z.
Variable rest_order : list T -> list T -> list T.
Hypothesis rest_order_perm :
  forall buf rest, Permutation (rest_order buf rest) rest.

Import RelativeErrorQuantilesSketch.

Lemma sketch_reachable_inv options (s : t T) :
  0 < k options < 2 ^ 64 ->
  sketch_reachable T_lt log2_ceil rest_order options s ->
  sketch_inv (compactor_inv log2_ceil) options s.
Proof.
  intros Hk Hreach.
  induction Hreach as [|s fuel x h coins s' coins' _ IH Hh Hrun].
  - apply new_sketch_inv. intros h. apply new_compactor_inv. exact Hk.
  - apply (Insert_sketch_inv _ _ _ (compactor_inv log2_ceil)
             (fun _ => True) options) in Hrun;
      [apply Hrun
      |intros h'; apply new_compactor_inv; exact Hk
      |
      |exact IH|apply Hh|exact Logic.I].
    intros c x' coins0 c' output coins0' Hc _ Hins. split.
    + eapply Insert_compactor_inv; eassumption.
    + apply Forall_forall. intros y _. exact Logic.I.
Qed.

Lemma Compactor_Insert_all_reachable k n h items :
  forall (c : Compactor.t T) coins c' coins',
  compactor_reachable T_lt log2_ceil rest_order k n h c ->
  Compactor_Insert_all T_lt rest_order c items coins = Returns (c', coins') ->
  compactor_reachable T_lt log2_ceil rest_order k n h c'.
Proof.
  unfold Compactor_Insert_all.
  induction items as [|x items IH]; intros c coins c' coins' Hc Hrun;
    cbn in Hrun.
  - injection Hrun as <- <-. exact Hc.
  - destruct (Compactor.Insert T_lt rest_order c x coins)
      as [[[c1 out1] coins1]| |] eqn:Hins; cbn in Hrun; try discriminate.
    apply (IH _ _ _ _ (cr_Insert _ _ _ _ _ _ _ _ _ _ _ _ Hc Hins) Hrun).
Qed.

(** C2. Buffer bound: in every state reached from the constructor of a
    compactor, or of a sketch, with a positive section size by any
    sequence of [Insert] calls (at any level, with any coin outcomes),
    every buffer holds at most [max_buffer_size] items. *)
Theorem buffer_bound :
  (forall k n h (c : Compactor.t T),
      0 < k < 2 ^ 64 ->
      compactor_reachable T_lt log2_ceil rest_order k n h c ->
      Z.of_nat (length (Compactor.buffer c)) <= Compactor.max_buffer_size c)
  /\ (forall options (s : t T) c,
        0 < k options < 2 ^ 64 ->
        sketch_reachable T_lt log2_ceil rest_order options s ->
        In c (compactors_ s) ->
        Z.of_nat (length (Compactor.buffer c))
          <= Compactor.max_buffer_size c).
Proof.
  split.
  - intros k n h c Hk Hreach.
    apply (compactor_reachable_inv _ _ _ rest_order_perm _ _ _ _ Hk Hreach).
  - intros options s c Hk Hreach Hin.
    destruct (sketch_reachable_inv _ _ Hk Hreach) as (_ & _ & _ & _ & Hall).
    rewrite Forall_forall in Hall. apply (Hall _ Hin).
Qed.

Lemma compactor_reachable_k k n h (c : Compactor.t T) :
  compactor_reachable T_lt log2_ceil rest_order k n h c ->
  Compactor.k c = k.
Proof.
  induction 1 as [|c element coins c' output coins' _ IH Hrun];
    [reflexivity|].
  destruct (Insert_inv _ _ _ _ _ _ _ _ Hrun)
    as [(_ & _ & -> & _ & _)|(_ & c1 & Hc1 & _ & ->)];
    cbn [Compactor.k Compactor.set_buffer]; [exact IH|].
  unfold Compactor.compact in Hc1.
  destruct (_ <? _) in Hc1; try discriminate.
  destruct (_ <? _) in Hc1; try discriminate.
  injection Hc1 as <- _ _. exact IH.
Qed.

(** C5, amended. Immediately after any [Compactor::Insert] call returns,
    the buffer holds at least one and at most [max_buffer_size] items. It
    is full exactly when the call found [max_buffer_size - 1] items and
    filled the last free slot (the compaction waits for the next call),
    or found the buffer full and compacted a single element; with an even
    section size only the first can happen, so that the buffer is below
    [max_buffer_size] after every other call. *)
Theorem Insert_leaves_at_most_max k n h (c : Compactor.t T)
    element coins c' output coins' :
  0 < k < 2 ^ 64 ->
  compactor_reachable T_lt log2_ceil rest_order k n h c ->
  Compactor.Insert T_lt rest_order c element coins
    = Returns (c', output, coins') ->
  1 <= Z.of_nat (length (Compactor.buffer c'))
    <= Compactor.max_buffer_size c'
  /\ (Z.of_nat (length (Compactor.buffer c')) = Compactor.max_buffer_size c'
      <-> Z.of_nat (length (Compactor.buffer c)) + 1
          = Compactor.max_buffer_size c
          \/ (Z.of_nat (length (Compactor.buffer c))
              = Compactor.max_buffer_size c
              /\ Compactor.elements_to_compact c = 1))
  /\ (Z.even k = true ->
      (Z.of_nat (length (Compactor.buffer c')) < Compactor.max_buffer_size c'
       <-> Z.of_nat (length (Compactor.buffer c)) + 1
           <> Compactor.max_buffer_size c)).
Proof.
  intros Hk Hreach Hrun.
  pose proof (compactor_reachable_inv _ _ _ rest_order_perm _ _ _ _ Hk Hreach)
    as Hinv.
  pose proof (compactor_reachable_k _ _ _ _ Hreach) as Hkc.
  destruct (Insert_compactor_inv _ _ _ rest_order_perm _ _ _ _ _ _ Hinv Hrun)
    as [(_ & _ & _ & Hle) Hone].
  split; [split; assumption|].
  pose proof Hinv as (Hok & _ & _ & Hlen).
  pose proof (compactor_ok_max_range _ _ Hok) as Hmax.
  assert (Hcases :
            (Z.of_nat (length (Compactor.buffer c))
               <> Compactor.max_buffer_size c
             /\ Z.of_nat (length (Compactor.buffer c'))
                = Z.of_nat (length (Compactor.buffer c)) + 1
             /\ Compactor.max_buffer_size c' = Compactor.max_buffer_size c)
            \/ (Z.of_nat (length (Compactor.buffer c))
                  = Compactor.max_buffer_size c
                /\ Z.of_nat (length (Compactor.buffer c'))
                   = Compactor.max_buffer_size c
                     - Compactor.elements_to_compact c + 1
                /\ Compactor.max_buffer_size c' = Compactor.max_buffer_size c
                /\ 0 < Compactor.elements_to_compact c)).
  { destruct (Insert_inv _ _ _ _ _ _ _ _ Hrun)
      as [(Hroom & _ & -> & _ & _)|(Hfull & c1 & Hc1 & _ & ->)];
      cbn [Compactor.buffer Compactor.max_buffer_size Compactor.set_buffer].
    - left. rewrite length_app. cbn [length]. split; [exact Hroom|]. lia.
    - right.
      destruct (compact_inv T_lt rest_order rest_order_perm c coins c1 output
                  coins' Hmax Hfull Hc1)
        as (_ & _ & _ & Hmax1 & _ & _ & Hlen1 & _).
      pose proof (elements_to_compact_pos _ _ Hinv Hfull) as Hpos.
      rewrite length_app. cbn [length]. split; [exact Hfull|]. lia. }
  split.
  - destruct Hcases as [(Hroom & Hl & Hm)|(Hfull & Hl & Hm & Hpos)];
      rewrite Hl, Hm; lia.
  - intros Heven.
    assert (Hetc : Compactor.elements_to_compact c <> 1).
    { pose proof (elements_to_compact_even c ltac:(rewrite Hkc; exact Heven))
        as He.
      intros H1. rewrite H1 in He. discriminate. }
    destruct Hcases as [(Hroom & Hl & Hm)|(Hfull & Hl & Hm & Hpos)];
      rewrite Hl, Hm; lia.
Qed.

(** C3. The schedule counter: [C] is [0] after construction; an [Insert]
    that returns leaves it unchanged when the buffer had room and
    increments it ([++C] on a [uint64_t]) when it compacted, that is, adds
    exactly one below the top of the type, so it never decreases; and the
    number of sections a compaction takes, from which it computes
    [elements_to_compact], is one more than the number of trailing
    one-bits of [C] at that moment. *)
Theorem schedule_counter :
  (forall k n h, Compactor.C (Compactor.new (T:=T) log2_ceil k n h) = 0)
  /\ (forall (c : Compactor.t T) element coins c' output coins',
        compactor_ok log2_ceil c ->
        Compactor.Insert T_lt rest_order c element coins
          = Returns (c', output, coins') ->
        Compactor.C c'
        = (if Z.of_nat (length (Compactor.buffer c))
              =? Compactor.max_buffer_size c
           then wrap64 (Compactor.C c + 1) else Compactor.C c)
        /\ (Compactor.C c < 2 ^ 64 - 1 ->
            Compactor.C c <= Compactor.C c'
            /\ Compactor.C c'
               = if Z.of_nat (length (Compactor.buffer c))
                    =? Compactor.max_buffer_size c
                 then Compactor.C c + 1 else Compactor.C c))
  /\ (forall c : Compactor.t T,
        uint64 (Compactor.C c) ->
        exists t, trailing_ones (Compactor.C c) t
                  /\ Compactor.sections_to_compact (Compactor.C c) = t + 1
                  /\ Compactor.elements_to_compact c
                     = wrap64 ((t + 1) * Compactor.k c)).
Proof.
  split; [reflexivity|]. split.
  - intros c element coins c' output coins' Hok Hrun.
    pose proof (compactor_ok_max_range _ _ Hok) as Hmax.
    destruct Hok as (_ & HC & _ & _). unfold uint64 in HC.
    destruct (Insert_inv _ _ _ _ _ _ _ _ Hrun)
      as [(Hroom & _ & -> & _ & _)|(Hfull & c1 & Hc1 & _ & ->)]; cbn.
    + apply Z.eqb_neq in Hroom. rewrite Hroom. split; [reflexivity|lia].
    + apply (compact_inv _ _ rest_order_perm) in Hc1; try assumption.
      destruct Hc1 as (_ & _ & _ & _ & _ & -> & _).
      apply Z.eqb_eq in Hfull. rewrite Hfull. split; [reflexivity|].
      intros Htop. rewrite wrap64_small by lia. lia.
  - intros c HC.
    destruct (sections_to_compact_spec _ HC) as (t & Ht & _ & Hsec).
    exists t. split; [exact Ht|]. split; [exact Hsec|].
    unfold Compactor.elements_to_compact, Compactor.elements_to_compact_at.
    rewrite Hsec. reflexivity.
Qed.

End BufferBounds.

Lemma buffer_bound_witness :
  (exists c output coins',
      IntSketch.Compactor_Insert (IntSketch.Compactor_new 2 8 0) 5
        (srepeat true) = Returns (c, output, coins')
      /\ Z.of_nat (length (Compactor.buffer c)) <= Compactor.max_buffer_size c)
  /\ (exists s coins',
        IntSketch.Insert 10 (IntSketch.new 8 2) 5 0 (srepeat true)
          = Returns (s, coins')
        /\ forall c, In c (RelativeErrorQuantilesSketch.compactors_ s) ->
             Z.of_nat (length (Compactor.buffer c))
               <= Compactor.max_buffer_size c).
Proof.
  pose proof (buffer_bound Z.ltb log2_ceil_exact (@keep_order Z)
                keep_order_perm) as [Hcompactor Hsketch].
  split.
  - assert (Hrun : exists r,
               IntSketch.Compactor_Insert (IntSketch.Compactor_new 2 8 0) 5
                 (srepeat true) = Returns r)
      by (eexists; vm_compute; reflexivity).
    destruct Hrun as [[[c output] coins'] Hrun].
    exists c, output, coins'. split; [exact Hrun|].
    apply (Hcompactor 2 8 0 c); [lia|].
    exact (@cr_Insert Z Z.ltb log2_ceil_exact (@keep_order Z) 2 8 0
             (IntSketch.Compactor_new 2 8 0) 5 (srepeat true) c output coins'
             (cr_new _ _ _ _ _ _) Hrun).
  - assert (Hrun : exists r,
               IntSketch.Insert 10 (IntSketch.new 8 2) 5 0 (srepeat true)
                 = Returns r)
      by (eexists; vm_compute; reflexivity).
    destruct Hrun as [[s coins'] Hrun].
    exists s, coins'. split; [exact Hrun|].
    intros c Hin.
    apply (Hsketch (RelativeErrorQuantilesSketch.mkOptions 8 2) s c);
      [cbn; lia| |exact Hin].
    apply (@sr_Insert Z Z.ltb log2_ceil_exact (@keep_order Z)
             (RelativeErrorQuantilesSketch.mkOptions 8 2)
             (IntSketch.new 8 2) 10%nat 5 0 (srepeat true) s coins'
             (sr_new _ _ _ _)); [|exact Hrun].
    unfold uint64. lia.
Defined.

(** C5 as stated fails: the eighth insertion into a compactor with
    [max_buffer_size = 8] returns with a buffer of exactly 8 items. *)
Lemma Insert_below_max_counterexample :
  ~ (forall (c : Compactor.t Z) element coins c' output coins',
        compactor_reachable Z.ltb log2_ceil_exact (@keep_order Z) 2 8 0 c ->
        IntSketch.Compactor_Insert c element coins
          = Returns (c', output, coins') ->
        Z.of_nat (length (Compactor.buffer c'))
          < Compactor.max_buffer_size c').
Proof.
  intros Hclaim.
  assert (Hfill :
            IntSketch.Compactor_fill (IntSketch.Compactor_new 2 8 0)
              (IntSketch.range 0 7) (srepeat true)
            = Returns (Compactor.mk 8 2 8 0 0 [0; 1; 2; 3; 4; 5; 6],
                       srepeat true))
    by (vm_compute; reflexivity).
  assert (Hins :
            IntSketch.Compactor_Insert
              (Compactor.mk 8 2 8 0 0 [0; 1; 2; 3; 4; 5; 6]) 7 (srepeat true)
            = Returns (Compactor.mk 8 2 8 0 0 [0; 1; 2; 3; 4; 5; 6; 7], [],
                       srepeat true))
    by (vm_compute; reflexivity).
  apply (Compactor_Insert_all_reachable Z.ltb log2_ceil_exact (@keep_order Z)
           2 8 0) in Hfill; [|apply cr_new].
  specialize (Hclaim _ _ _ _ _ _ Hfill Hins). cbn in Hclaim. lia.
Qed.

Lemma Insert_leaves_at_most_max_witness :
  exists c' output coins',
    IntSketch.Compactor_Insert
      (Compactor.mk 8 2 8 0 0 [0; 1; 2; 3; 4; 5; 6]) 7 (srepeat true)
      = Returns (c', output, coins')
    /\ 1 <= Z.of_nat (length (Compactor.buffer c'))
         <= Compactor.max_buffer_size c'
    /\ Z.of_nat (length (Compactor.buffer c')) = Compactor.max_buffer_size c'
    /\ ~ Z.of_nat (length (Compactor.buffer c')) < Compactor.max_buffer_size c'.
Proof.
  assert (Hfill :
            IntSketch.Compactor_fill (IntSketch.Compactor_new 2 8 0)
              (IntSketch.range 0 7) (srepeat true)
            = Returns (Compactor.mk 8 2 8 0 0 [0; 1; 2; 3; 4; 5; 6],
                       srepeat true))
    by (vm_compute; reflexivity).
  apply (Compactor_Insert_all_reachable Z.ltb log2_ceil_exact (@keep_order Z)
           2 8 0) in Hfill; [|apply cr_new].
  assert (Hrun : exists r,
             IntSketch.Compactor_Insert
               (Compactor.mk 8 2 8 0 0 [0; 1; 2; 3; 4; 5; 6]) 7 (srepeat true)
             = Returns r)
    by (eexists; vm_compute; reflexivity).
  destruct Hrun as [[[c' output] coins'] Hrun].
  exists c', output, coins'. split; [exact Hrun|].
  destruct (Insert_leaves_at_most_max Z.ltb log2_ceil_exact (@keep_order Z)
              keep_order_perm 2 8 0
              (Compactor.mk 8 2 8 0 0 [0; 1; 2; 3; 4; 5; 6]) 7
              (srepeat true) c' output coins')
    as (Hbound & Hfull & Hbelow);
    [lia|exact Hfill|exact Hrun|].
  split; [exact Hbound|]. split.
  - apply Hfull. left. reflexivity.
  - intros Hlt. apply (proj1 (Hbelow eq_refl)) in Hlt. apply Hlt. reflexivity.
Defined.

Lemma schedule_counter_witness :
  exists c' output coins',
    IntSketch.Compactor_Insert
      (Compactor.mk 8 2 8 1 0 [0; 1; 2; 3; 4; 5; 6; 7]) 8 (srepeat true)
      = Returns (c', output, coins')
    /\ 1 <= Compactor.C c' /\ Compactor.C c' = 2
    /\ exists t, trailing_ones 1 t /\ Compactor.sections_to_compact 1 = t + 1
                 /\ Compactor.elements_to_compact
                      (Compactor.mk 8 2 8 1 0 [0; 1; 2; 3; 4; 5; 6; 7])
                    = wrap64 ((t + 1) * 2).
Proof.
  pose proof (schedule_counter Z.ltb log2_ceil_exact (@keep_order Z)
                keep_order_perm) as (_ & Hstep & Hsections).
  assert (Hrun : exists r,
             IntSketch.Compactor_Insert
               (Compactor.mk 8 2 8 1 0 [0; 1; 2; 3; 4; 5; 6; 7]) 8
               (srepeat true) = Returns r)
    by (eexists; vm_compute; reflexivity).
  destruct Hrun as [[[c' output] coins'] Hrun].
  exists c', output, coins'. split; [exact Hrun|].
  assert (Hok : compactor_ok log2_ceil_exact
                  (Compactor.mk 8 2 8 1 0 [0; 1; 2; 3; 4; 5; 6; 7])).
  { unfold compactor_ok, uint64, vector_max_size. cbn.
    split; [lia|]. split; [lia|]. split; [lia|reflexivity]. }
  destruct (Hstep _ _ _ _ _ _ Hok Hrun) as [_ Hbelow].
  destruct Hbelow as [Hle Heq]; [cbn; lia|].
  cbn in Hle, Heq. split; [exact Hle|]. split; [exact Heq|].
  apply (Hsections (Compactor.mk 8 2 8 1 0 [0; 1; 2; 3; 4; 5; 6; 7])).
  unfold uint64. cbn. lia.
Defined.

Section Compaction.
Context {T : Type}.
Variable T_lt : T -> T -> bool.
Variable log2_ceil : Z -> Z -> Z.
Variable rest_order : list T -> list T -> list T.
Hypothesis rest_order_perm :
  forall buf rest, Permutation (rest_order buf rest) rest.

(** An [Insert] into a full buffer whose compaction fits: it compacts,
    appends and returns what the compaction promoted. *)
Lemma Insert_full (c : Compactor.t T) element coins :
  uint64 (Compactor.max_buffer_size c) ->
  Z.of_nat (length (Compactor.buffer c)) = Compactor.max_buffer_size c ->
  Compactor.elements_to_compact c <= Compactor.max_buffer_size c ->
  Compactor.max_buffer_size c - Compactor.elements_to_compact c
    < vector_max_size ->
  exists c1 output,
    Compactor.compact T_lt rest_order c coins
      = Returns (c1, output, stail coins)
    /\ Compactor.Insert T_lt rest_order c element coins
       = Returns (Compactor.set_buffer c1 (Compactor.buffer c1 ++ [element]),
                  output, stail coins).
Proof.
  intros Hmax Hfull Hfit Hroom.
  pose proof (compact_fits T_lt rest_order rest_order_perm c coins
                Hmax Hfull Hfit) as Hcompact.
  cbv zeta in Hcompact.
  eexists. eexists. split; [exact Hcompact|].
  unfold Compactor.Insert.
  apply Z.eqb_eq in Hfull. rewrite Hfull. apply Z.eqb_eq in Hfull.
  rewrite Hcompact. cbn -[Z.sub Z.of_nat vector_max_size].
  unfold push_back.
  pose proof (elements_to_compact_range c) as Hetc.
  rewrite length_take, partial_sort_back_length by assumption.
  destruct (Z.ltb_spec
              (Z.of_nat
                 (Z.to_nat (Compactor.max_buffer_size c
                            - Compactor.elements_to_compact c)
                  `min` length (Compactor.buffer c))) vector_max_size)
    as [_|Hbad]; [reflexivity|].
  unfold uint64 in *. lia.
Qed.

(** The compaction of streaming-quantiles/compactor.cpp, when it fits
    and takes at least one element. *)
Lemma compact_cpp_fits (c : Compactor.t T) coins :
  uint64 (Compactor.max_buffer_size c) ->
  Z.of_nat (length (Compactor.buffer c)) = Compactor.max_buffer_size c ->
  0 < Compactor.elements_to_compact c <= Compactor.max_buffer_size c ->
  let S := Compactor.max_buffer_size c - Compactor.elements_to_compact c in
  let sorted :=
    Compactor.partial_sort_back T_lt rest_order (Z.to_nat (S + 1))
      (Compactor.buffer c) in
  Compactor.compact_cpp T_lt rest_order c coins
  = Returns
      (Compactor.set_C
         (Compactor.set_buffer c (take (Z.to_nat S) sorted))
         (wrap64 (Compactor.C c + 1)),
       every_other
         (drop (Z.to_nat (Compactor.start_index (shead coins) S)) sorted),
       stail coins).
Proof.
  intros Hmax Hfull Hfit S sorted.
  pose proof (elements_to_compact_range c) as Hetc.
  unfold Compactor.compact_cpp.
  rewrite (wrap64_sub_le _ _ Hmax Hetc (proj2 Hfit)).
  fold S.
  assert (HS : 0 <= S < 2 ^ 64 - 1) by (unfold S, uint64 in *; lia).
  rewrite (wrap64_small (S + 1)) by lia.
  replace (S + 1 - 1) with S by lia.
  rewrite (wrap64_small S) by lia.
  fold sorted.
  assert (Hlen : length sorted = length (Compactor.buffer c))
    by apply (partial_sort_back_length _ _ rest_order_perm).
  rewrite Hlen.
  destruct (Z.ltb_spec (Z.of_nat (length (Compactor.buffer c))) (S + 1));
    [unfold S in *; lia|].
  destruct (Z.ltb_spec (Z.of_nat (length (Compactor.buffer c))) S);
    [unfold S in *; lia|].
  reflexivity.
Qed.

(** C10. Whenever [Compactor::Insert] compacts and the compaction fits
    the buffer, it returns exactly [elements_to_compact / 2] promoted
    items whatever the coin shows, given the even section size; the
    compactor of streaming-quantiles/compactor.cpp does the same when the
    compaction takes at least one element. *)
Theorem promoted_count (c : Compactor.t T) element coins :
  compactor_ok log2_ceil c ->
  Z.even (Compactor.k c) = true ->
  Z.of_nat (length (Compactor.buffer c)) = Compactor.max_buffer_size c ->
  Compactor.elements_to_compact c <= Compactor.max_buffer_size c ->
  (exists c' output,
      Compactor.Insert T_lt rest_order c element coins
        = Returns (c', output, stail coins)
      /\ Z.of_nat (length output) = Compactor.elements_to_compact c / 2)
  /\ (0 < Compactor.elements_to_compact c ->
      exists c' output,
        Compactor.Insert_cpp T_lt rest_order c element coins
          = Returns (c', output, stail coins)
        /\ Z.of_nat (length output) = Compactor.elements_to_compact c / 2).
Proof.
  intros Hok Hek Hfull Hfit.
  pose proof (compactor_ok_max_range _ _ Hok) as Hmax.
  pose proof (compactor_ok_max_even _ _ Hok) as Hemax.
  pose proof (elements_to_compact_range c) as Hetc.
  pose proof (elements_to_compact_even c Hek) as Heetc.
  destruct Hok as (_ & _ & Hvec & _).
  assert (Hroom : Compactor.max_buffer_size c < vector_max_size).
  { rewrite Zeven_mod in Hemax. apply Z.eqb_eq in Hemax.
    unfold vector_max_size in *. rewrite Hfull in Hvec.
    destruct (Z.eq_dec (Compactor.max_buffer_size c) (2 ^ 63 - 1)) as [E|];
      [|lia].
    rewrite E in Hemax. discriminate. }
  assert (Hhalf : forall even,
             (Z.max 0 (Compactor.max_buffer_size c
                       - Compactor.start_index even
                           (Compactor.max_buffer_size c
                            - Compactor.elements_to_compact c)) + 1) / 2
             = Compactor.elements_to_compact c / 2).
  { intros even. apply start_index_half; try assumption.
    unfold uint64 in Hetc. lia. }
  split.
  - destruct (Insert_full c element coins Hmax Hfull Hfit ltac:(unfold uint64 in Hetc; lia))
      as (c1 & output & Hcompact & Hinsert).
    eexists. exists output. split; [exact Hinsert|].
    apply (compact_inv _ _ rest_order_perm) in Hcompact; try assumption.
    destruct Hcompact as (_ & _ & _ & _ & _ & _ & _ & Hout & _).
    rewrite Hout. apply Hhalf.
  - intros Hpos.
    pose proof (compact_cpp_fits c coins Hmax Hfull (conj Hpos Hfit))
      as Hcompact.
    cbv zeta in Hcompact.
    unfold Compactor.Insert_cpp.
    apply Z.eqb_eq in Hfull. rewrite Hfull. apply Z.eqb_eq in Hfull.
    rewrite Hcompact. cbn -[Z.sub Z.add Z.of_nat vector_max_size].
    unfold push_back.
    rewrite length_take, partial_sort_back_length by assumption.
    destruct (Z.ltb_spec
                (Z.of_nat
                   (Z.to_nat (Compactor.max_buffer_size c
                              - Compactor.elements_to_compact c)
                    `min` length (Compactor.buffer c))) vector_max_size)
      as [_|Hbad]; [|unfold uint64 in *; lia].
    cbn -[Z.sub Z.add Z.of_nat]. eexists. eexists. split; [reflexivity|].
    rewrite every_other_length, length_drop, partial_sort_back_length
      by assumption.
    rewrite <- (Hhalf (shead coins)).
    assert (Hi : 0 <= Compactor.start_index (shead coins)
                        (Compactor.max_buffer_size c
                         - Compactor.elements_to_compact c)).
    { unfold Compactor.start_index.
      destruct (negb (shead coins) && (_ =? 0));
        [apply wrap64_range|unfold uint64 in *; lia]. }
    f_equal. lia.
Qed.

End Compaction.

Lemma promoted_count_witness :
  (exists c' output,
      IntSketch.Compactor_Insert
        (Compactor.mk 8 2 8 1 0 [0; 1; 2; 3; 4; 5; 6; 7]) 8 (srepeat false)
        = Returns (c', output, stail (srepeat false))
      /\ Z.of_nat (length output) = 2)
  /\ (exists c' output,
        Compactor.Insert_cpp Z.ltb (@keep_order Z)
          (Compactor.mk 8 2 8 1 0 [0; 1; 2; 3; 4; 5; 6; 7]) 8 (srepeat false)
          = Returns (c', output, stail (srepeat false))
        /\ Z.of_nat (length output) = 2).
Proof.
  assert (Hok : compactor_ok log2_ceil_exact
                  (Compactor.mk 8 2 8 1 0 [0; 1; 2; 3; 4; 5; 6; 7])).
  { unfold compactor_ok, uint64, vector_max_size. cbn.
    split; [lia|]. split; [lia|]. split; [lia|reflexivity]. }
  assert (Hfit : Compactor.elements_to_compact
                   (Compactor.mk 8 2 8 1 0 [0; 1; 2; 3; 4; 5; 6; 7])
                 <= Compactor.max_buffer_size
                      (Compactor.mk 8 2 8 1 0 [0; 1; 2; 3; 4; 5; 6; 7]))
    by (vm_compute; discriminate).
  destruct (promoted_count Z.ltb log2_ceil_exact (@keep_order Z)
              keep_order_perm
              (Compactor.mk 8 2 8 1 0 [0; 1; 2; 3; 4; 5; 6; 7]) 8
              (srepeat false) Hok eq_refl eq_refl Hfit) as [Hh Hcpp].
  split.
  - exact Hh.
  - apply Hcpp. vm_compute. reflexivity.
Defined.

(** C7. The forced compaction of a compactor with [k = 2], [n = 8]: after
    [0 .. 7] are inserted the buffer is full; with [C] set to [1] the
    insertion of [8] compacts two sections, four elements, from the split
    point [4], and leaves five items in the buffer and two promoted ones,
    for every coin outcome and every order [std::partial_sort] may leave.
    In general the buffer of a compactor holds
    [max_buffer_size - elements_to_compact] items after a compaction. *)
Theorem forced_compaction :
  (forall rest_order : list Z -> list Z -> list Z,
      (forall buf rest, Permutation (rest_order buf rest) rest) ->
      forall coins0 coins : stream bool,
        let c8 := Compactor.mk 8 2 8 0 0 [0; 1; 2; 3; 4; 5; 6; 7] in
        Compactor_Insert_all Z.ltb rest_order
          (Compactor.new log2_ceil_exact 2 8 0) (IntSketch.range 0 8) coins0
        = Returns (c8, coins0)
        /\ let c := Compactor.set_C c8 1 in
           Compactor.sections_to_compact (Compactor.C c) = 2
           /\ Compactor.elements_to_compact c = 4
           /\ Compactor.max_buffer_size c - Compactor.elements_to_compact c = 4
           /\ exists c' output,
                Compactor.Insert Z.ltb rest_order c 8 coins
                  = Returns (c', output, stail coins)
                /\ length (Compactor.buffer c') = 5%nat
                /\ length output = 2%nat)
  /\ (forall (T : Type) (T_lt : T -> T -> bool)
        (rest_order : list T -> list T -> list T),
        (forall buf rest, Permutation (rest_order buf rest) rest) ->
        forall (c : Compactor.t T) coins c1 output coins1,
          uint64 (Compactor.max_buffer_size c) ->
          Z.of_nat (length (Compactor.buffer c)) = Compactor.max_buffer_size c ->
          Compactor.compact T_lt rest_order c coins
            = Returns (c1, output, coins1) ->
          Z.of_nat (length (Compactor.buffer c1))
          = Compactor.max_buffer_size c - Compactor.elements_to_compact c).
Proof.
  split.
  - intros rest_order Hperm coins0 coins c8.
    split; [vm_compute; reflexivity|].
    intros c.
    split; [reflexivity|]. split; [reflexivity|]. split; [reflexivity|].
    assert (Hmax : uint64 (Compactor.max_buffer_size c))
      by (unfold uint64; cbn; lia).
    assert (Hfull : Z.of_nat (length (Compactor.buffer c))
                    = Compactor.max_buffer_size c) by reflexivity.
    destruct (Insert_full Z.ltb rest_order Hperm c 8 coins Hmax Hfull)
      as (c1 & output & Hcompact & Hinsert).
    { vm_compute. discriminate. }
    { vm_compute. reflexivity. }
    eexists. exists output. split; [exact Hinsert|].
    apply (compact_inv _ _ Hperm) in Hcompact; try assumption.
    destruct Hcompact as (_ & _ & _ & _ & _ & _ & Hlen & Hout & _).
    rewrite start_index_half in Hout;
      [|assumption|vm_compute; split; discriminate|reflexivity|reflexivity].
    cbn [Compactor.buffer Compactor.set_buffer]. rewrite length_app.
    change (Compactor.max_buffer_size c - Compactor.elements_to_compact c)
      with 4 in Hlen.
    change (Compactor.elements_to_compact c / 2) with 2 in Hout.
    cbn [length]. lia.
  - intros T T_lt rest_order Hperm c coins c1 output coins1 Hmax Hfull Hrun.
    apply (compact_inv _ _ Hperm) in Hrun; try assumption.
    apply Hrun.
Qed.

Lemma forced_compaction_witness :
  (exists c' output,
      IntSketch.Compactor_Insert
        (Compactor.mk 8 2 8 1 0 [0; 1; 2; 3; 4; 5; 6; 7]) 8 (srepeat true)
        = Returns (c', output, stail (srepeat true))
      /\ length (Compactor.buffer c') = 5%nat /\ length output = 2%nat)
  /\ (exists c1 output coins1,
        Compactor.compact Z.ltb (@keep_order Z)
          (Compactor.mk 8 2 8 1 0 [0; 1; 2; 3; 4; 5; 6; 7]) (srepeat true)
          = Returns (c1, output, coins1)
        /\ Z.of_nat (length (Compactor.buffer c1)) = 4).
Proof.
  pose proof forced_compaction as [Hscenario Hgeneral].
  split.
  - apply (Hscenario (@keep_order Z) keep_order_perm (srepeat true)
             (srepeat true)).
  - assert (Hrun : exists r,
               Compactor.compact Z.ltb (@keep_order Z)
                 (Compactor.mk 8 2 8 1 0 [0; 1; 2; 3; 4; 5; 6; 7])
                 (srepeat true) = Returns r)
      by (eexists; vm_compute; reflexivity).
    destruct Hrun as [[[c1 output] coins1] Hrun].
    exists c1, output, coins1. split; [exact Hrun|].
    apply (Hgeneral Z Z.ltb (@keep_order Z) keep_order_perm
             (Compactor.mk 8 2 8 1 0 [0; 1; 2; 3; 4; 5; 6; 7])
             (srepeat true) c1 output coins1); [|reflexivity|exact Hrun].
    unfold uint64. cbn. lia.
Defined.

Section QueryBeforeClose.
Context {T : Type}.
Variable T_lt : T -> T -> bool.
Variable log2_ceil : Z -> Z -> Z.
Variable rest_order : list T -> list T -> list T.
Variable ratio_ge : Z -> Z -> Z -> Z -> bool.

Import RelativeErrorQuantilesSketch.

Lemma Insert_all_reachable options fuel items :
  forall (s : t T) coins s' coins',
  sketch_reachable T_lt log2_ceil rest_order options s ->
  Insert_all T_lt log2_ceil rest_order fuel s items coins
    = Returns (s', coins') ->
  sketch_reachable T_lt log2_ceil rest_order options s'.
Proof.
  unfold Insert_all.
  induction items as [|x items IH]; intros s coins s' coins' Hs Hrun;
    cbn in Hrun.
  - injection Hrun as <- <-. exact Hs.
  - destruct (Insert T_lt log2_ceil rest_order fuel s x 0 coins)
      as [[s1 coins1]| |] eqn:Hins; cbn in Hrun; try discriminate.
    apply (IH s1 coins1 s' coins'); [|exact Hrun].
    apply (sr_Insert _ _ _ _ s fuel x 0 coins s1 coins1 Hs); [|exact Hins].
    unfold uint64. lia.
Qed.

Lemma sketch_reachable_unclosed options (s : t T) :
  sketch_reachable T_lt log2_ceil rest_order options s ->
  weighted_elements_ s = [] /\ total_weight_ s = 0.
Proof.
  intros Hreach.
  enough (H : sketch_inv (fun _ => True) options s
              /\ weighted_elements_ s = [] /\ total_weight_ s = 0)
    by apply H.
  induction Hreach as [|s fuel x h coins s' coins' _ IH Hh Hrun].
  - split; [|split; reflexivity].
    apply new_sketch_inv. intros h. exact Logic.I.
  - destruct IH as (Hinv & Hw & Ht).
    apply (Insert_sketch_inv _ _ _ (fun _ => True) (fun _ => True) options)
      in Hrun;
      [|intros h'; exact Logic.I
       |intros; split; [exact Logic.I|apply Forall_forall; auto]
       |exact Hinv|apply Hh|exact Logic.I].
    destruct Hrun as (Hinv' & Hw' & Ht').
    split; [exact Hinv'|]. split; congruence.
Qed.

(** C8. Query before close: on every sketch that has only been constructed
    and inserted into, [EstimateRank] returns rank 0, [Quantiles] returns
    the empty list and [total_weight] is 0; the comparison of
    [Quantiles], with its division by [total_weight], is never evaluated,
    so the result is the same whatever that comparison computes. *)
Theorem query_before_close options (s : t T) x q :
  sketch_reachable T_lt log2_ceil rest_order options s ->
  EstimateRank T_lt s x = 0
  /\ Quantiles ratio_ge s q = []
  /\ TotalWeight s = 0.
Proof.
  intros Hreach.
  destruct (sketch_reachable_unclosed _ _ Hreach) as [Hw Ht].
  unfold EstimateRank, Quantiles, TotalWeight. rewrite Hw, Ht.
  split; [reflexivity|]. split; reflexivity.
Qed.

End QueryBeforeClose.

Lemma query_before_close_witness :
  exists s coins',
    IntSketch.Insert_all 10 (IntSketch.new 8 2) [1; 2; 3] (srepeat true)
      = Returns (s, coins')
    /\ IntSketch.EstimateRank s 2 = 0
    /\ IntSketch.Quantiles s 4 = []
    /\ RelativeErrorQuantilesSketch.TotalWeight s = 0.
Proof.
  assert (Hrun : exists r,
             IntSketch.Insert_all 10 (IntSketch.new 8 2) [1; 2; 3]
               (srepeat true) = Returns r)
    by (eexists; vm_compute; reflexivity).
  destruct Hrun as [[s coins'] Hrun].
  exists s, coins'. split; [exact Hrun|].
  apply (query_before_close Z.ltb log2_ceil_exact (@keep_order Z)
           ratio_ge_exact (RelativeErrorQuantilesSketch.mkOptions 8 2) s 2 4).
  apply (Insert_all_reachable Z.ltb log2_ceil_exact (@keep_order Z)
           (RelativeErrorQuantilesSketch.mkOptions 8 2) 10 [1; 2; 3]
           (IntSketch.new 8 2) (srepeat true) s coins'); [|exact Hrun].
  apply sr_new.
Defined.

(** C4, the code at the failing input. A sketch with [k = 2], [n = 8] has
    [max_buffer_size = 8]. After the items [0 .. 59] the level-0 buffer is
    full and [C = 15], so the schedule asks for [5 * 2 = 10] elements; the
    code does not cap them, [S = 8 - 10] wraps around, and the next
    [Insert] calls [std::partial_sort] with a middle iterator past the
    end of the buffer. *)
Theorem compaction_not_capped :
  exists s coins' c0,
    IntSketch.Insert_all 10 (IntSketch.new 8 2) (IntSketch.range 0 60)
      (srepeat true) = Returns (s, coins')
    /\ RelativeErrorQuantilesSketch.compactors_ s !! 0%nat = Some c0
    /\ Compactor.C c0 = 15
    /\ Z.of_nat (length (Compactor.buffer c0)) = 8
    /\ Compactor.max_buffer_size c0 = 8
    /\ Compactor.elements_to_compact c0 = 10
    /\ wrap64 (Compactor.max_buffer_size c0 - Compactor.elements_to_compact c0)
       = 2 ^ 64 - 2
    /\ (forall element coins,
          IntSketch.Compactor_Insert c0 element coins = Fault PartialSortRange)
    /\ (forall coins,
          IntSketch.Insert 10 s 60 0 coins = Fault PartialSortRange)
    /\ IntSketch.Insert_all 10 (IntSketch.new 8 2) (IntSketch.range 0 61)
         (srepeat true) = Fault PartialSortRange.
Proof.
  eexists. eexists. eexists.
  split; [vm_compute; reflexivity|].
  split; [vm_compute; reflexivity|].
  split; [reflexivity|]. split; [reflexivity|]. split; [reflexivity|].
  split; [reflexivity|]. split; [reflexivity|].
  split; [intros element coins; vm_compute; reflexivity|].
  split; [intros coins; vm_compute; reflexivity|].
  vm_compute. reflexivity.
Qed.

(** C6, the code at the failing input. On a fresh sketch ([H = 0]),
    [Insert(x, 2)] sets [H_ = 2] and appends one compactor, so that
    [compactors_.size() = 2 <> H_ + 1], and then indexes [compactors_[2]]
    past the end; nothing is signalled to the caller, and the state it
    has built fails the assertion of [Close]. *)
Theorem level_gap_unchecked :
  exists s1,
    RelativeErrorQuantilesSketch.ensure_level log2_ceil_exact
      (IntSketch.new 8 2) 2 = Returns s1
    /\ RelativeErrorQuantilesSketch.H_ s1 = 2
    /\ length (RelativeErrorQuantilesSketch.compactors_ s1) = 2%nat
    /\ RelativeErrorQuantilesSketch.compactors_ s1 !! 2%nat = None
    /\ IntSketch.Close s1 = Fault AssertFailed
    /\ forall fuel x coins,
         IntSketch.Insert (S fuel) (IntSketch.new 8 2) x 2 coins
         = Fault VectorIndex.
Proof.
  eexists.
  split; [vm_compute; reflexivity|].
  split; [reflexivity|]. split; [reflexivity|]. split; [reflexivity|].
  split; [vm_compute; reflexivity|].
  intros fuel x coins. reflexivity.
Qed.

(** C9, the code at the failing input. After [1 .. 100] are inserted into
    a sketch with [k = 4], [n = 100] and the sketch is closed, the total
    weight is 100 and, for every stream of coin outcomes, [Quantiles(2)]
    returns two boundary points, not one: the median boundary, whose item
    lies in [[35, 65]], and a second one at the last item, where the
    cumulative weight reaches the total and [1.0 >= 2 / 2] holds. Every
    compaction of this run takes at most half of the buffer, inside the
    range [std::partial_sort] sorts, so the order it leaves elsewhere
    (here [keep_order]) has no part in the result. *)
Theorem quantiles_2_returns_two :
  forall coins : stream bool,
  exists s coins' s' q1,
    IntSketch.Insert_all 10 (IntSketch.new 100 4) (IntSketch.range 1 100) coins
      = Returns (s, coins')
    /\ IntSketch.Close s = Returns s'
    /\ RelativeErrorQuantilesSketch.TotalWeight s' = 100
    /\ IntSketch.Quantiles s' 2
       = [q1; RelativeErrorQuantilesSketch.mkQuantile 2 100 100]
    /\ RelativeErrorQuantilesSketch.quantile q1 = 1
    /\ 35 <= RelativeErrorQuantilesSketch.q_item q1 <= 65.
Proof.
  intros [b0 [b1 [b2 [b3 [b4 [b5 [b6 [b7 coins]]]]]]]].
  destruct b0, b1, b2, b3, b4, b5, b6, b7;
    (eexists; eexists; eexists; eexists;
     split; [vm_compute; reflexivity|];
     split; [vm_compute; reflexivity|];
     split; [reflexivity|];
     split; [vm_compute; reflexivity|];
     split; [reflexivity|];
     vm_compute; split; discriminate).
Qed.

(** * The sorted cache and the queries *)

(** ** Sorting with a strict weak ordering *)

Section Ascending.
Context {A : Type}.
Variable lt : A -> A -> bool.
Hypothesis lt_irrefl : forall a, lt a a = false.
Hypothesis lt_trans :
  forall a b c, lt a b = true -> lt b c = true -> lt a c = true.

Lemma insert_by_ascending x l :
  ascending lt l -> ascending lt (insert_by lt x l).
Proof.
  unfold ascending. induction l as [|y l IH]; intros Hl; simpl.
  - constructor; constructor.
  - inversion Hl as [|? ? Hsl Hy]; subst.
    destruct (lt x y) eqn:Hxy.
    + constructor; [exact Hl|].
      constructor.
      * destruct (lt y x) eqn:Hyx; [|reflexivity].
        rewrite <- (lt_irrefl x). symmetry. eapply lt_trans; eassumption.
      * rewrite Forall_forall in Hy |- *. intros z Hz.
        destruct (lt z x) eqn:Hzx; [|reflexivity].
        rewrite <- (Hy z Hz). symmetry. eapply lt_trans; eassumption.
    + constructor; [apply IH; exact Hsl|].
      eapply Permutation_Forall.
      * symmetry. apply insert_by_perm.
      * constructor; assumption.
Qed.

Lemma std_sort_ascending l : ascending lt (std_sort lt l).
Proof.
  induction l as [|x l IH]; simpl.
  - constructor.
  - apply insert_by_ascending, IH.
Qed.

End Ascending.

Lemma ascending_app_inv {A} (lt : A -> A -> bool) l1 l2 :
  ascending lt (l1 ++ l2) ->
  ascending lt l1 /\ ascending lt l2
  /\ Forall (fun a => Forall (fun b => lt b a = false) l2) l1.
Proof.
  unfold ascending. induction l1 as [|x l1 IH]; simpl; intros H.
  - split; [constructor|]. split; [exact H|constructor].
  - inversion H as [|? ? Hs Hx]; subst.
    destruct (IH Hs) as (H1 & H2 & H12).
    apply Forall_app in Hx as [Hx1 Hx2].
    split; [constructor; assumption|]. split; [assumption|].
    constructor; assumption.
Qed.

Lemma ascending_take {A} (lt : A -> A -> bool) n l :
  ascending lt l -> ascending lt (take n l).
Proof.
  intros H. rewrite <- (take_drop n l) in H.
  apply ascending_app_inv in H. apply H.
Qed.

Lemma ascending_drop {A} (lt : A -> A -> bool) n l :
  ascending lt l -> ascending lt (drop n l).
Proof.
  intros H. rewrite <- (take_drop n l) in H.
  apply ascending_app_inv in H. apply H.
Qed.

Lemma ascending_lookup {A} (lt : A -> A -> bool) l i j a b :
  ascending lt l -> l !! i = Some a -> l !! j = Some b -> (i < j)%nat ->
  lt b a = false.
Proof.
  unfold ascending. intros H. revert i j.
  induction H as [|x l Hs IH Hx]; intros i j Hi Hj Hij.
  - discriminate.
  - destruct j as [|j]; [lia|]. cbn in Hj.
    destruct i as [|i]; cbn in Hi.
    + injection Hi as ->. rewrite Forall_forall in Hx.
      apply Hx. eapply list_elem_of_In, list_elem_of_lookup_2. exact Hj.
    + eapply IH; [exact Hi|exact Hj|lia].
Qed.

Lemma every_other_sublist {A} (l : list A) : sublist (every_other l) l.
Proof.
  enough (H : forall l : list A,
             sublist (every_other l) l
             /\ forall x, sublist (every_other (x :: l)) (x :: l))
    by apply H.
  clear l. induction l as [|y l [IH1 IH2]]; split.
  - constructor.
  - intros x. reflexivity.
  - apply IH2.
  - intros x. cbn [every_other].
    apply sublist_skip, sublist_cons, IH1.
Qed.

Lemma StronglySorted_sublist {A} (R : A -> A -> Prop) (l1 l2 : list A) :
  sublist l1 l2 -> StronglySorted R l2 -> StronglySorted R l1.
Proof.
  intros Hsub. induction Hsub as [|x l1 l2 Hsub IH|x l1 l2 Hsub IH];
    intros H2.
  - constructor.
  - inversion H2 as [|? ? Hs Hx]; subst.
    constructor; [apply IH; exact Hs|].
    rewrite Forall_forall in Hx |- *. intros z Hz.
    apply Hx. apply list_elem_of_In. eapply elem_of_sublist; [|exact Hsub].
    apply list_elem_of_In. exact Hz.
  - inversion H2; subst. apply IH. assumption.
Qed.

Lemma sublist_map {A B} (f : A -> B) (l1 l2 : list A) :
  sublist l1 l2 -> sublist (map f l1) (map f l2).
Proof.
  intros Hsub. induction Hsub; cbn [map].
  - constructor.
  - apply sublist_skip. assumption.
  - apply sublist_cons. assumption.
Qed.

Lemma sublist_Forall' {A} (P : A -> Prop) (l1 l2 : list A) :
  sublist l1 l2 -> Forall P l2 -> Forall P l1.
Proof.
  intros Hsub H2. rewrite Forall_forall in H2 |- *. intros x Hx.
  apply H2, list_elem_of_In. eapply elem_of_sublist; [|exact Hsub].
  apply list_elem_of_In. exact Hx.
Qed.

Lemma ascending_sublist {A} (lt : A -> A -> bool) (l1 l2 : list A) :
  sublist l1 l2 -> ascending lt l2 -> ascending lt l1.
Proof. apply StronglySorted_sublist. Qed.

Lemma ascending_map {A B} (f : A -> B) (lt : B -> B -> bool) (l : list A) :
  ascending (fun a b => lt (f a) (f b)) l <-> ascending lt (map f l).
Proof.
  unfold ascending. induction l as [|x l IH]; simpl.
  - split; constructor.
  - split; intros H; inversion H as [|? ? Hs Hx]; subst; constructor.
    + apply IH, Hs.
    + rewrite Forall_forall in Hx |- *. intros z Hz.
      apply in_map_iff in Hz as (a & <- & Ha). apply Hx, Ha.
    + apply IH, Hs.
    + rewrite Forall_forall in Hx |- *. intros z Hz.
      apply Hx, in_map, Hz.
Qed.

(** ** Close *)

Section CloseContents.
Context {T : Type}.
Variable T_lt : T -> T -> bool.
Variable T_empty : T -> bool.

Import RelativeErrorQuantilesSketch.

Lemma stored_elements_weight (cs : list (Compactor.t T)) h :
  accumulate_weight (stored_elements h cs) = stored_weight h cs.
Proof.
  revert h. induction cs as [|c cs IH]; intros h; cbn [stored_elements stored_weight].
  - reflexivity.
  - rewrite accumulate_weight_app, accumulate_weight_const, IH. reflexivity.
Qed.

Lemma Close_loop_elements (cs : list (Compactor.t T)) h acc ws :
  0 <= h -> h + Z.of_nat (length cs) < 2 ^ 64 ->
  Close_loop T_empty h cs acc = Returns ws ->
  ws = acc ++ stored_elements h cs.
Proof.
  revert h acc. induction cs as [|c cs IH]; intros h acc Hh Hlen Hrun.
  - cbn in Hrun. injection Hrun as <-. cbn. rewrite app_nil_r. reflexivity.
  - cbn [Close_loop] in Hrun. unfold weigh in Hrun.
    destruct (existsb T_empty (Compactor.buffer c)); [discriminate|].
    cbn [bind] in Hrun. cbn [length] in Hlen.
    rewrite wrap64_small in Hrun by lia.
    apply IH in Hrun; [|lia|lia].
    rewrite Hrun. cbn [stored_elements]. rewrite <- app_assoc. reflexivity.
Qed.

Lemma Close_loop_nonempty (cs : list (Compactor.t T)) h acc ws :
  Close_loop T_empty h cs acc = Returns ws ->
  Forall (fun c => Forall (fun x => T_empty x = false) (Compactor.buffer c)) cs.
Proof.
  revert h acc. induction cs as [|c cs IH]; intros h acc Hloop; [constructor|].
  cbn [Close_loop] in Hloop. unfold weigh in Hloop.
  destruct (existsb T_empty (Compactor.buffer c)) eqn:Hex; [discriminate|].
  cbn [bind] in Hloop. constructor; [|eapply IH; exact Hloop].
  apply Forall_forall. intros x Hx.
  destruct (T_empty x) eqn:Hx'; [|reflexivity].
  rewrite <- Hex. symmetry. apply existsb_exists. exists x. auto.
Qed.

Lemma Close_inv (s s' : t T) :
  Close T_lt T_empty s = Returns s' ->
  Z.of_nat (length (compactors_ s)) < 2 ^ 64
  /\ wrap64 (H_ s + 1) = Z.of_nat (length (compactors_ s))
  /\ exists ws,
       Close_loop T_empty 0 (compactors_ s) (weighted_elements_ s) = Returns ws
       /\ ws = weighted_elements_ s ++ stored_elements 0 (compactors_ s)
       /\ s' = {| options_ := options_ s; H_ := H_ s;
                  compactors_ := compactors_ s;
                  weighted_elements_ :=
                    std_sort (fun w1 w2 => T_lt (item w1) (item w2)) ws;
                  total_weight_ :=
                    accumulate_weight
                      (std_sort (fun w1 w2 => T_lt (item w1) (item w2)) ws) |}.
Proof.
  unfold Close. intros Hrun.
  destruct (Z.eqb_spec (wrap64 (H_ s + 1)) (Z.of_nat (length (compactors_ s))))
    as [Hlen|]; cbn [negb] in Hrun; [|discriminate].
  assert (Hlt : Z.of_nat (length (compactors_ s)) < 2 ^ 64).
  { rewrite <- Hlen. apply wrap64_range. }
  split; [exact Hlt|]. split; [exact Hlen|].
  destruct (Close_loop T_empty 0 (compactors_ s) (weighted_elements_ s))
    as [ws| |] eqn:Hloop; cbn [bind] in Hrun; try discriminate.
  injection Hrun as <-. exists ws. split; [reflexivity|].
  split; [|reflexivity].
  eapply Close_loop_elements; [| |exact Hloop]; lia.
Qed.

End CloseContents.

(** ** The binary search of EstimateRank *)

Section LowerBound.
Context {T : Type}.
Variable T_lt : T -> T -> bool.
Hypothesis T_lt_cotrans :
  forall a b c, T_lt a b = true -> T_lt a c = true \/ T_lt c b = true.

Import RelativeErrorQuantilesSketch.

Abbreviation by_item := (fun w1 w2 : WeightedElement T => T_lt (item w1) (item w2)).

Lemma lower_bound_loop_spec (v : list (WeightedElement T)) x :
  ascending by_item v ->
  forall fuel first len,
    (len <= fuel)%nat -> (first + len <= length v)%nat ->
    (forall j w, (j < first)%nat -> v !! j = Some w -> T_lt (item w) x = true) ->
    (forall j w, (first + len <= j)%nat -> v !! j = Some w ->
                 T_lt (item w) x = false) ->
    let r := lower_bound_loop T_lt fuel v x first len in
    (r <= length v)%nat
    /\ (forall j w, (j < r)%nat -> v !! j = Some w -> T_lt (item w) x = true)
    /\ (forall j w, (r <= j)%nat -> v !! j = Some w -> T_lt (item w) x = false).
Proof.
  intros Hsorted. induction fuel as [|fuel IH]; intros first len Hfuel Hin Hlow Hhigh.
  - cbn. assert (len = 0%nat) by lia. subst len.
    split; [lia|]. split; [exact Hlow|].
    intros j w Hj. apply Hhigh. lia.
  - cbn [lower_bound_loop].
    destruct (Nat.eqb_spec len 0) as [->|Hpos].
    { split; [lia|]. split; [exact Hlow|].
      intros j w Hj. apply Hhigh. lia. }
    assert (Hhalf : (Nat.div2 len < len)%nat).
    { apply Nat.lt_div2. lia. }
    set (half := Nat.div2 len) in *.
    destruct (v !! (first + half)%nat) as [element|] eqn:Hmid.
    2:{ apply lookup_ge_None in Hmid. lia. }
    destruct (T_lt (item element) x) eqn:Hcmp.
    + apply IH; [lia|lia| |].
      * intros j w Hj Hw.
        destruct (Nat.eq_dec j (first + half)%nat) as [->|Hne].
        -- rewrite Hmid in Hw. injection Hw as <-. exact Hcmp.
        -- destruct (Nat.lt_ge_cases j first) as [Hjf|Hjf];
             [eapply Hlow; eassumption|].
           assert (Hle : T_lt (item element) (item w) = false).
           { eapply (ascending_lookup by_item v j (first + half)%nat w element);
               [exact Hsorted|exact Hw|exact Hmid|lia]. }
           destruct (T_lt_cotrans _ _ (item w) Hcmp) as [Hc|Hc];
             [congruence|exact Hc].
      * intros j w Hj Hw. eapply Hhigh; [|exact Hw]. lia.
    + apply IH; [lia|lia|exact Hlow|].
      intros j w Hj Hw.
      destruct (Nat.eq_dec j (first + half)%nat) as [->|Hne].
      * rewrite Hmid in Hw. injection Hw as <-. exact Hcmp.
      * assert (Hle : T_lt (item w) (item element) = false).
        { eapply (ascending_lookup by_item v (first + half)%nat j element w);
            [exact Hsorted|exact Hmid|exact Hw|lia]. }
        destruct (T_lt (item w) x) eqn:Hwx; [|reflexivity].
        destruct (T_lt_cotrans _ _ (item element) Hwx) as [Hc|Hc]; congruence.
Qed.

Lemma filter_prefix {A} (p : A -> bool) (l : list A) r :
  (forall j a, (j < r)%nat -> l !! j = Some a -> p a = true) ->
  (forall j a, (r <= j)%nat -> l !! j = Some a -> p a = false) ->
  (r <= length l)%nat ->
  List.filter p l = take r l.
Proof.
  revert r. induction l as [|a l IH]; intros r Hlow Hhigh Hr.
  - destruct r; reflexivity.
  - destruct r as [|r].
    + cbn [take List.filter]. rewrite (Hhigh 0%nat a) by (lia || reflexivity).
      apply (IH 0%nat).
      * intros j b Hj. lia.
      * intros j b Hj Hb. apply (Hhigh (S j)); [lia|exact Hb].
      * lia.
    + cbn [take List.filter]. rewrite (Hlow 0%nat a) by (lia || reflexivity).
      f_equal. apply IH.
      * intros j b Hj Hb. apply (Hlow (S j)); [lia|exact Hb].
      * intros j b Hj Hb. apply (Hhigh (S j)); [lia|exact Hb].
      * cbn in Hr. lia.
Qed.

Lemma lower_bound_filter (v : list (WeightedElement T)) x :
  ascending by_item v ->
  take (lower_bound T_lt v x) v
  = List.filter (fun w => T_lt (item w) x) v.
Proof.
  intros Hsorted. unfold lower_bound.
  destruct (lower_bound_loop_spec v x Hsorted (length v) 0%nat (length v))
    as (Hr & Hlow & Hhigh); [lia|lia| | |].
  - intros j w Hj. lia.
  - intros j w Hj Hw. apply lookup_lt_Some in Hw. lia.
  - symmetry. apply filter_prefix; assumption.
Qed.

End LowerBound.

Lemma filter_perm_weight {T} (p : RelativeErrorQuantilesSketch.WeightedElement T -> bool)
    (l l' : list (RelativeErrorQuantilesSketch.WeightedElement T)) :
  Permutation l l' ->
  RelativeErrorQuantilesSketch.accumulate_weight (List.filter p l)
  = RelativeErrorQuantilesSketch.accumulate_weight (List.filter p l').
Proof.
  intros Hperm. induction Hperm as [|x l l' _ IH|x y l|l l' l'' _ IH1 _ IH2].
  - reflexivity.
  - cbn [List.filter]. destruct (p x); [|exact IH].
    rewrite !accumulate_weight_cons, IH. reflexivity.
  - cbn [List.filter]. destruct (p x), (p y);
      rewrite ?accumulate_weight_cons; lia.
  - congruence.
Qed.

Lemma filter_stored_elements {T} (p : T -> bool) h (cs : list (Compactor.t T)) :
  List.filter (fun w => p (RelativeErrorQuantilesSketch.item w))
    (stored_elements h cs)
  = stored_elements h
      (map (fun c => Compactor.set_buffer c (List.filter p (Compactor.buffer c)))
         cs).
Proof.
  revert h. induction cs as [|c cs IH]; intros h; cbn [stored_elements map].
  - reflexivity.
  - rewrite List.filter_app, IH. f_equal. cbn [Compactor.buffer Compactor.set_buffer].
    induction (Compactor.buffer c) as [|t b IHb]; cbn [map List.filter].
    + reflexivity.
    + cbn [RelativeErrorQuantilesSketch.item].
      destruct (p t); cbn [map]; rewrite IHb; reflexivity.
Qed.

Lemma filter_weight_le {T} (p q : RelativeErrorQuantilesSketch.WeightedElement T -> bool)
    (l : list (RelativeErrorQuantilesSketch.WeightedElement T)) :
  Forall (fun w => 0 <= RelativeErrorQuantilesSketch.weight w) l ->
  (forall w, p w = true -> q w = true) ->
  0 <= RelativeErrorQuantilesSketch.accumulate_weight (List.filter p l)
    <= RelativeErrorQuantilesSketch.accumulate_weight (List.filter q l).
Proof.
  intros Hpos Hpq. induction Hpos as [|w l Hw _ IH].
  - cbn. lia.
  - cbn [List.filter]. destruct (p w) eqn:Hp.
    + rewrite (Hpq w Hp), !accumulate_weight_cons. lia.
    + destruct (q w); rewrite ?accumulate_weight_cons; lia.
Qed.

Lemma stored_elements_weights {T} h (cs : list (Compactor.t T)) :
  0 <= h ->
  Forall (fun w => 0 < RelativeErrorQuantilesSketch.weight w)
    (stored_elements h cs).
Proof.
  revert h. induction cs as [|c cs IH]; intros h Hh; cbn [stored_elements].
  - constructor.
  - apply Forall_app. split; [|apply IH; lia].
    apply Forall_map. apply Forall_forall. intros t _. cbn.
    apply Z.pow_pos_nonneg; lia.
Qed.

Lemma Z_ltb_trans a b c : (a <? b) = true -> (b <? c) = true -> (a <? c) = true.
Proof. rewrite !Z.ltb_lt. lia. Qed.

Lemma Z_ltb_cotrans a b c :
  (a <? b) = true -> (a <? c) = true \/ (c <? b) = true.
Proof. rewrite !Z.ltb_lt. lia. Qed.

(** A partial sum of non-negative weights is between [0] and the whole
    sum. *)
Lemma accumulate_weight_take {T} n
    (l : list (RelativeErrorQuantilesSketch.WeightedElement T)) :
  Forall (fun w => 0 <= RelativeErrorQuantilesSketch.weight w) l ->
  0 <= RelativeErrorQuantilesSketch.accumulate_weight (take n l)
    <= RelativeErrorQuantilesSketch.accumulate_weight l.
Proof.
  intros Hpos. revert n. induction Hpos as [|w l Hw _ IH]; intros n.
  - destruct n; cbn; lia.
  - destruct n as [|n]; cbn [take]; rewrite ?accumulate_weight_cons.
    + specialize (IH 0%nat). cbn. lia.
    + specialize (IH n). lia.
Qed.

(** ** Closing and querying *)

(** The weights of the code are [double]s, [std::pow(2, h)], and its sums
    of weights are [double] additions. A [double] holds every integer up
    to [2^53], and adds two non-negative integers exactly when their sum
    is at most [2^53]; the theorems on sums of weights below therefore
    bound the weight the sketch stores by [2^53], where every weight and
    every partial sum the code forms is the integer computed here. *)

Section ClosedSketch.
Context {T : Type}.
Variable T_lt : T -> T -> bool.
Variable T_empty : T -> bool.
(** [operator<] is a strict weak ordering, as [std::sort] and
    [std::lower_bound] require. *)
Hypothesis T_lt_irrefl : forall a, T_lt a a = false.
Hypothesis T_lt_trans :
  forall a b c, T_lt a b = true -> T_lt b c = true -> T_lt a c = true.
Hypothesis T_lt_cotrans :
  forall a b c, T_lt a b = true -> T_lt a c = true \/ T_lt c b = true.

Import RelativeErrorQuantilesSketch.

Lemma Close_ascending (s s' : t T) :
  Close T_lt T_empty s = Returns s' ->
  ascending (fun w1 w2 => T_lt (item w1) (item w2)) (weighted_elements_ s').
Proof.
  intros Hrun. destruct (Close_inv _ _ _ _ Hrun) as (_ & _ & ws & _ & _ & ->).
  cbn [weighted_elements_]. apply std_sort_ascending.
  - intros a. apply T_lt_irrefl.
  - intros a b c. apply T_lt_trans.
Qed.

Lemma Close_perm (s s' : t T) :
  Close T_lt T_empty s = Returns s' ->
  Permutation (weighted_elements_ s')
    (weighted_elements_ s ++ stored_elements 0 (compactors_ s)).
Proof.
  intros Hrun. destruct (Close_inv _ _ _ _ Hrun) as (_ & _ & ws & _ & -> & ->).
  cbn [weighted_elements_]. apply std_sort_perm.
Qed.

Lemma Close_total (s s' : t T) :
  Close T_lt T_empty s = Returns s' ->
  total_weight_ s' = accumulate_weight (weighted_elements_ s').
Proof.
  intros Hrun. destruct (Close_inv _ _ _ _ Hrun) as (_ & _ & ws & _ & _ & ->).
  reflexivity.
Qed.

Lemma Close_weights_nonneg (s s' : t T) :
  Forall (fun w => 0 <= weight w) (weighted_elements_ s) ->
  Close T_lt T_empty s = Returns s' ->
  Forall (fun w => 0 <= weight w) (weighted_elements_ s').
Proof.
  intros Hold Hrun.
  eapply Permutation_Forall; [symmetry; apply Close_perm; exact Hrun|].
  apply Forall_app. split; [exact Hold|].
  eapply Forall_impl; [|apply (stored_elements_weights 0); lia].
  cbn. intros w Hw. lia.
Qed.

Lemma Close_total_stored (s s' : t T) :
  Close T_lt T_empty s = Returns s' ->
  total_weight_ s'
  = accumulate_weight (weighted_elements_ s)
    + stored_weight 0 (compactors_ s).
Proof.
  intros Hrun.
  rewrite (Close_total _ _ Hrun), (accumulate_weight_perm _ _ (Close_perm _ _ Hrun)).
  rewrite accumulate_weight_app, stored_elements_weight. reflexivity.
Qed.


(** X2. [Close] sets [total_weight] to the weight of what was cached
    before plus the sum over the levels of [2^level] times the size of the
    buffer, for any state it accepts, whatever levels the items were
    inserted at, as long as that weight is at most [2^53]: then every
    partial sum [std::accumulate] forms is an integer between [0] and
    [2^53], which a [double] addition computes exactly. *)
Theorem Close_weighs_levels (s s' : t T) :
  Forall (fun w => 0 <= weight w) (weighted_elements_ s) ->
  accumulate_weight (weighted_elements_ s) + stored_weight 0 (compactors_ s)
    <= 2 ^ 53 ->
  Close T_lt T_empty s = Returns s' ->
  TotalWeight s'
  = accumulate_weight (weighted_elements_ s)
    + stored_weight 0 (compactors_ s)
  /\ forall n,
       0 <= accumulate_weight (take n (weighted_elements_ s')) <= 2 ^ 53.
Proof.
  intros Hold Hbound Hrun. unfold TotalWeight.
  pose proof (Close_total_stored _ _ Hrun) as Htotal.
  split; [exact Htotal|].
  intros n.
  pose proof (accumulate_weight_take n _ (Close_weights_nonneg _ _ Hold Hrun))
    as Hn.
  rewrite <- (Close_total _ _ Hrun), Htotal in Hn. lia.
Qed.

(** X3. [Close] appends to the cache without clearing it: a second
    [Close] returns as the first one did, and doubles the number of
    weighted elements and, for a sketch that stores a weight of at most
    [2^52], the total weight: every sum of the second [Close] is then an
    integer of at most [2^53], exact in [double]. *)
Theorem Close_twice_doubles (s s1 : t T) :
  weighted_elements_ s = [] ->
  2 * stored_weight 0 (compactors_ s) <= 2 ^ 53 ->
  Close T_lt T_empty s = Returns s1 ->
  exists s2,
    Close T_lt T_empty s1 = Returns s2
    /\ length (weighted_elements_ s2) = (2 * length (weighted_elements_ s1))%nat
    /\ TotalWeight s2 = 2 * TotalWeight s1
    /\ TotalWeight s2 <= 2 ^ 53.
Proof.
  intros Hempty Hbound Hrun.
  destruct (Close_inv _ _ _ _ Hrun) as (Hlt & Hlen & ws & Hloop & Hws & Hs1).
  rewrite Hempty in Hws, Hloop. cbn [app] in Hws.
  assert (Hloop1 : exists ws1,
             Close_loop T_empty 0 (compactors_ s1) (weighted_elements_ s1)
             = Returns ws1).
  { apply Close_loop_returns.
    rewrite Hs1. cbn [compactors_].
    eapply Close_loop_nonempty. exact Hloop. }
  destruct Hloop1 as [ws1 Hloop1].
  assert (Hrun2 : exists s2, Close T_lt T_empty s1 = Returns s2).
  { unfold Close. rewrite Hloop1.
    replace (wrap64 (H_ s1 + 1) =? Z.of_nat (length (compactors_ s1))) with true.
    - cbn. eexists. reflexivity.
    - symmetry. apply Z.eqb_eq. rewrite Hs1. cbn. exact Hlen. }
  destruct Hrun2 as [s2 Hrun2]. exists s2. split; [exact Hrun2|].
  pose proof (Close_perm _ _ Hrun) as Hp1.
  pose proof (Close_perm _ _ Hrun2) as Hp2.
  assert (Hcs : compactors_ s1 = compactors_ s) by (rewrite Hs1; reflexivity).
  rewrite Hempty in Hp1. cbn [app] in Hp1. rewrite Hcs in Hp2.
  split.
  - rewrite (Permutation_length Hp2), length_app.
    rewrite <- (Permutation_length Hp1). lia.
  - assert (Htwice : TotalWeight s2 = 2 * TotalWeight s1).
    { unfold TotalWeight.
      rewrite (Close_total _ _ Hrun), (Close_total _ _ Hrun2).
      rewrite (accumulate_weight_perm _ _ Hp2), accumulate_weight_app.
      rewrite <- (accumulate_weight_perm _ _ Hp1). lia. }
    split; [exact Htwice|]. rewrite Htwice. unfold TotalWeight.
    rewrite (Close_total_stored _ _ Hrun), Hempty. cbn. lia.
Qed.

(** X4. After [Close] of a sketch whose weight is at most [2^53],
    [EstimateRank x] is the total weight of the cached elements whose
    item is less than [x], an integer between [0] and [2^53] that the
    [double] sum holds exactly; on a sketch closed once that is the sum
    over the levels of [2^level] times the number of items of the buffer
    that are less than [x]. *)
Theorem EstimateRank_weight_below (s s' : t T) (x : T) :
  Forall (fun w => 0 <= weight w) (weighted_elements_ s) ->
  accumulate_weight (weighted_elements_ s) + stored_weight 0 (compactors_ s)
    <= 2 ^ 53 ->
  Close T_lt T_empty s = Returns s' ->
  EstimateRank T_lt s' x
  = accumulate_weight
      (List.filter (fun w => T_lt (item w) x) (weighted_elements_ s'))
  /\ (weighted_elements_ s = [] ->
      EstimateRank T_lt s' x
      = stored_weight 0
          (map (fun c =>
                  Compactor.set_buffer c
                    (List.filter (fun t => T_lt t x) (Compactor.buffer c)))
             (compactors_ s)))
  /\ 0 <= EstimateRank T_lt s' x <= 2 ^ 53.
Proof.
  intros Hold Hbound Hrun.
  assert (Hrank : EstimateRank T_lt s' x
                  = accumulate_weight
                      (List.filter (fun w => T_lt (item w) x)
                         (weighted_elements_ s'))).
  { unfold EstimateRank. rewrite lower_bound_filter; [reflexivity| |].
    - exact T_lt_cotrans.
    - apply (Close_ascending s). exact Hrun. }
  split; [exact Hrank|]. split.
  - intros Hempty. rewrite Hrank.
    pose proof (Close_perm _ _ Hrun) as Hp. rewrite Hempty in Hp. cbn [app] in Hp.
    rewrite (filter_perm_weight _ _ _ Hp).
    rewrite (filter_stored_elements (fun t => T_lt t x)).
    apply stored_elements_weight.
  - unfold EstimateRank.
    pose proof (accumulate_weight_take
                  (lower_bound T_lt (weighted_elements_ s') x) _
                  (Close_weights_nonneg _ _ Hold Hrun)) as Hn.
    rewrite <- (Close_total _ _ Hrun), (Close_total_stored _ _ Hrun) in Hn.
    lia.
Qed.

(** X5. On a sketch closed once, [EstimateRank] lies between [0] and the
    total weight, and it is monotone: it does not decrease when the query
    does not. *)
Theorem EstimateRank_monotone (s s' : t T) (x y : T) :
  weighted_elements_ s = [] ->
  Close T_lt T_empty s = Returns s' ->
  0 <= EstimateRank T_lt s' x <= TotalWeight s'
  /\ (T_lt y x = false -> EstimateRank T_lt s' x <= EstimateRank T_lt s' y).
Proof.
  intros Hempty Hrun.
  assert (Hrank : forall z, EstimateRank T_lt s' z
                  = accumulate_weight
                      (List.filter (fun w => T_lt (item w) z)
                         (weighted_elements_ s'))).
  { intros z. unfold EstimateRank. rewrite lower_bound_filter; [reflexivity| |].
    - exact T_lt_cotrans.
    - apply (Close_ascending s). exact Hrun. }
  pose proof (Close_perm _ _ Hrun) as Hp. rewrite Hempty in Hp. cbn [app] in Hp.
  assert (Hpos : Forall (fun w => 0 <= weight w) (weighted_elements_ s')).
  { eapply Permutation_Forall; [symmetry; exact Hp|].
    eapply Forall_impl; [|apply (stored_elements_weights 0); lia].
    cbn. intros w Hw. lia. }
  split.
  - unfold TotalWeight. rewrite (Close_total _ _ Hrun), Hrank.
    pose proof (filter_weight_le (fun w => T_lt (item w) x) (fun _ => true)
                  _ Hpos ltac:(auto)) as Hle.
    replace (List.filter (fun _ => true) (weighted_elements_ s'))
      with (weighted_elements_ s') in Hle; [exact Hle|].
    clear. induction (weighted_elements_ s') as [|w l IH]; cbn; congruence.
  - intros Hxy. rewrite !Hrank.
    apply filter_weight_le; [exact Hpos|].
    intros w Hw. destruct (T_lt_cotrans _ _ y Hw) as [H|H]; congruence.
Qed.

End ClosedSketch.

(** ** Quantile boundaries *)

Section QuantilesFacts.
Context {T : Type}.
Variable ratio_ge : Z -> Z -> Z -> Z -> bool.

Import RelativeErrorQuantilesSketch.

Abbreviation boundary := (fun b : Quantile T => (q_item b, cumulative_weight b)).

Lemma running_weight_items acc (l : list (WeightedElement T)) :
  map fst (running_weight acc l) = map item l.
Proof.
  revert acc. induction l as [|e l IH]; intros acc; cbn; [reflexivity|].
  rewrite IH. reflexivity.
Qed.

Lemma running_weight_bounds acc (l : list (WeightedElement T)) :
  Forall (fun w => 0 < weight w) l ->
  Forall (fun c => acc < c <= acc + accumulate_weight l)
    (map snd (running_weight acc l))
  /\ StronglySorted Z.lt (map snd (running_weight acc l)).
Proof.
  intros Hpos. revert acc. induction Hpos as [|e l He Hl IH]; intros acc.
  - split; constructor.
  - cbn [running_weight map snd]. rewrite accumulate_weight_cons.
    destruct (IH (acc + weight e)) as [Hb Hs].
    assert (Hacc : 0 <= accumulate_weight l).
    { clear -Hl. induction Hl as [|w l Hw _ IH]; [cbn; lia|].
      rewrite accumulate_weight_cons. lia. }
    split.
    + constructor; [lia|].
      eapply Forall_impl; [|exact Hb]. cbn. intros c Hc. lia.
    + constructor; [exact Hs|].
      eapply Forall_impl; [|exact Hb]. cbn. intros c Hc. lia.
Qed.

Lemma Quantiles_fold total n (l : list (WeightedElement T)) :
  forall qs cur cum,
  exists new,
    fst (fst (fold_left (Quantiles_step ratio_ge total n) l (qs, cur, cum)))
    = qs ++ new
    /\ map quantile new = map (fun i => cur + Z.of_nat i) (seq 0 (length new))
    /\ sublist (map boundary new) (running_weight cum l).
Proof.
  induction l as [|e l IH]; intros qs cur cum.
  - exists []. cbn. rewrite app_nil_r. repeat split. constructor.
  - cbn [fold_left Quantiles_step running_weight].
    destruct (ratio_ge (cum + weight e) total cur n).
    + destruct (IH (qs ++ [mkQuantile cur (item e) (cum + weight e)])
                  (cur + 1) (cum + weight e)) as (new & Hfold & Hq & Hsub).
      exists (mkQuantile cur (item e) (cum + weight e) :: new).
      split; [rewrite Hfold, <- app_assoc; reflexivity|]. split.
      * cbn [map length seq quantile]. rewrite Hq.
        f_equal; [lia|]. rewrite <- seq_shift, map_map.
        apply map_ext. intros i. lia.
      * cbn [map]. apply sublist_skip. exact Hsub.
    + destruct (IH qs cur (cum + weight e)) as (new & Hfold & Hq & Hsub).
      exists new. split; [exact Hfold|]. split; [exact Hq|].
      apply sublist_cons. exact Hsub.
Qed.

Lemma Quantiles_sublist (s : t T) (q : Z) :
  let qs := Quantiles ratio_ge s q in
  map quantile qs = map (fun i => 1 + Z.of_nat i) (seq 0 (length qs))
  /\ sublist (map boundary qs) (running_weight 0 (weighted_elements_ s)).
Proof.
  unfold Quantiles.
  destruct (Quantiles_fold (total_weight_ s) q (weighted_elements_ s) [] 1 0)
    as (new & -> & Hq & Hsub).
  cbn [app]. split; [exact Hq|exact Hsub].
Qed.


End QuantilesFacts.

Section QuantilesClosed.
Context {T : Type}.
Variable T_lt : T -> T -> bool.
Variable T_empty : T -> bool.
Variable ratio_ge : Z -> Z -> Z -> Z -> bool.
Hypothesis T_lt_irrefl : forall a, T_lt a a = false.
Hypothesis T_lt_trans :
  forall a b c, T_lt a b = true -> T_lt b c = true -> T_lt a c = true.

Import RelativeErrorQuantilesSketch.

Lemma Close_weights_positive (s s' : t T) :
  weighted_elements_ s = [] ->
  Close T_lt T_empty s = Returns s' ->
  Forall (fun w => 0 < weight w) (weighted_elements_ s').
Proof.
  intros Hempty Hrun.
  pose proof (Close_perm _ _ _ _ Hrun) as Hp.
  rewrite Hempty in Hp. cbn [app] in Hp.
  eapply Permutation_Forall; [symmetry; exact Hp|].
  apply stored_elements_weights. lia.
Qed.

(** X7. On a sketch closed once that stores a weight of at most [2^53],
    the boundaries [Quantiles] returns are in ascending order of their
    items, their cumulative weights increase strictly, and each
    cumulative weight is positive and at most the total weight, itself at
    most [2^53]: every running total of the loop is an integer a [double]
    holds exactly. *)
Theorem Quantiles_ordered (s s' : t T) (q : Z) :
  weighted_elements_ s = [] ->
  stored_weight 0 (compactors_ s) <= 2 ^ 53 ->
  Close T_lt T_empty s = Returns s' ->
  let qs := Quantiles ratio_ge s' q in
  ascending T_lt (map q_item qs)
  /\ StronglySorted Z.lt (map cumulative_weight qs)
  /\ Forall (fun b => 0 < cumulative_weight b <= TotalWeight s') qs
  /\ TotalWeight s' <= 2 ^ 53.
Proof.
  intros Hempty Hbound Hrun qs.
  destruct (Quantiles_sublist ratio_ge s' q) as (_ & Hsub).
  fold qs in Hsub.
  pose proof (Close_weights_positive _ _ Hempty Hrun) as Hpos.
  destruct (running_weight_bounds 0 _ Hpos) as [Hb Hs].
  split; [|split; [|split]];
    [| | |unfold TotalWeight;
          rewrite (Close_total_stored _ _ _ _ Hrun), Hempty; cbn; lia].
  - apply (sublist_map fst) in Hsub.
    rewrite map_map, running_weight_items in Hsub. cbn [fst] in Hsub.
    eapply StronglySorted_sublist; [exact Hsub|].
    apply (proj1 (ascending_map item T_lt _)).
    apply (Close_ascending T_lt T_empty T_lt_irrefl T_lt_trans s). exact Hrun.
  - apply (sublist_map snd) in Hsub.
    rewrite map_map in Hsub. cbn [snd] in Hsub.
    eapply StronglySorted_sublist; [exact Hsub|exact Hs].
  - apply (sublist_map snd) in Hsub.
    rewrite map_map in Hsub. cbn [snd] in Hsub.
    pose proof (sublist_Forall' _ _ _ Hsub Hb) as Hq.
    rewrite Forall_map in Hq.
    unfold TotalWeight. rewrite (Close_total _ _ _ _ Hrun).
    eapply Forall_impl; [|exact Hq]. cbn. intros b Hbq. lia.
Qed.

End QuantilesClosed.

Section QuantilesLast.
Context {T : Type}.
Variable T_lt : T -> T -> bool.
Variable T_empty : T -> bool.
Variable ratio_ge : Z -> Z -> Z -> Z -> bool.
(** What the comparison [cum / total >= current / n] of two [double]
    quotients computes for a total weight of at most [2^53]: at the end of
    the cache, where [cum = total], the left quotient is [1.0] and the
    right one at most [1.0]; before it, the left quotient is at most
    [1 - 2^-53], below [1.0]. *)
Hypothesis ratio_at_total :
  forall total current n,
    0 < total <= 2 ^ 53 -> 1 <= current <= n ->
    ratio_ge total total current n = true.
Hypothesis ratio_below_total :
  forall cum total current n,
    0 < cum < total -> total <= 2 ^ 53 -> 1 <= current ->
    ratio_ge cum total current n = true -> current < n.

Import RelativeErrorQuantilesSketch.

Lemma accumulate_weight_positive (l : list (WeightedElement T)) :
  Forall (fun w => 0 < weight w) l -> l <> [] -> 0 < accumulate_weight l.
Proof.
  intros Hpos Hne. destruct Hpos as [|w l Hw Hl]; [congruence|].
  rewrite accumulate_weight_cons.
  assert (0 <= accumulate_weight l); [|lia].
  clear -Hl. induction Hl as [|w' l Hw _ IH]; [cbn; lia|].
  rewrite accumulate_weight_cons. lia.
Qed.

Lemma Quantiles_fold_last total n (l : list (WeightedElement T)) :
  Forall (fun w => 0 < weight w) l -> l <> [] ->
  forall qs cur cum,
    0 <= cum -> cum + accumulate_weight l = total -> total <= 2 ^ 53 ->
    1 <= cur <= n ->
    exists new b,
      fst (fst (fold_left (Quantiles_step ratio_ge total n) l (qs, cur, cum)))
      = qs ++ new ++ [b]
      /\ cumulative_weight b = total
      /\ list.last (map item l) = Some (q_item b)
      /\ quantile b = cur + Z.of_nat (length new)
      /\ quantile b <= n.
Proof.
  intros Hpos. induction Hpos as [|e l He Hl IH];
    intros Hne qs cur cum Hcum Htotal Hsmall Hcur; [congruence|].
  rewrite accumulate_weight_cons in Htotal.
  cbn [fold_left Quantiles_step].
  destruct l as [|e' l'].
  - cbn in Htotal. replace (cum + weight e) with total by lia.
    rewrite ratio_at_total by lia.
    exists [], (mkQuantile cur (item e) total). cbn.
    repeat split; lia.
  - assert (Hrest : 0 < accumulate_weight (e' :: l'))
      by (apply accumulate_weight_positive; [exact Hl|discriminate]).
    assert (Hlast : list.last (map item (e :: e' :: l')) = list.last (map item (e' :: l')))
      by reflexivity.
    rewrite Hlast.
    destruct (ratio_ge (cum + weight e) total cur n) eqn:Hcmp.
    + apply ratio_below_total in Hcmp; [|lia|lia|lia].
      destruct (IH ltac:(discriminate)
                  (qs ++ [mkQuantile cur (item e) (cum + weight e)])
                  (cur + 1) (cum + weight e))
        as (new & b & Hfold & Hb & Hl' & Hq & Hn); [lia|lia|lia|lia|].
      exists (mkQuantile cur (item e) (cum + weight e) :: new), b.
      split; [rewrite Hfold, <- app_assoc; reflexivity|].
      split; [exact Hb|]. split; [exact Hl'|].
      split; [cbn [length]; lia|exact Hn].
    + destruct (IH ltac:(discriminate) qs cur (cum + weight e))
        as (new & b & Hfold & Hb & Hl' & Hq & Hn); [lia|lia|lia|lia|].
      exists new, b. auto.
Qed.

(** X8. On a sketch closed once that stores at least one item and a
    weight of at most [2^53], [Quantiles(n)] for [n >= 1] always ends with
    a boundary at the last (largest) element of the cache, with the whole
    total weight as its cumulative weight, and it returns at most [n]
    boundaries: the running total is exact, so that at the last element
    the two ratios are [1.0] and at most [1.0], and before it the first
    is below [1.0]. *)
Theorem Quantiles_ends_at_maximum (s s' : t T) (q : Z) :
  weighted_elements_ s = [] ->
  stored_weight 0 (compactors_ s) <= 2 ^ 53 ->
  Close T_lt T_empty s = Returns s' ->
  weighted_elements_ s' <> [] ->
  1 <= q ->
  exists qs b,
    Quantiles ratio_ge s' q = qs ++ [b]
    /\ cumulative_weight b = TotalWeight s'
    /\ list.last (map item (weighted_elements_ s')) = Some (q_item b)
    /\ quantile b = Z.of_nat (length (Quantiles ratio_ge s' q))
    /\ Z.of_nat (length (Quantiles ratio_ge s' q)) <= q
    /\ TotalWeight s' <= 2 ^ 53.
Proof.
  intros Hempty Hbound Hrun Hne Hq.
  pose proof (Close_weights_positive T_lt T_empty _ _ Hempty Hrun) as Hpos.
  assert (Hsmall : accumulate_weight (weighted_elements_ s') <= 2 ^ 53).
  { rewrite <- (Close_total _ _ _ _ Hrun), (Close_total_stored _ _ _ _ Hrun).
    rewrite Hempty. cbn. lia. }
  unfold Quantiles, TotalWeight. rewrite (Close_total _ _ _ _ Hrun).
  destruct (Quantiles_fold_last (accumulate_weight (weighted_elements_ s')) q
              _ Hpos Hne [] 1 0)
    as (new & b & -> & Hb & Hlast & Hqb & Hn); [lia|lia|exact Hsmall|lia|].
  exists new, b. cbn [app].
  split; [reflexivity|]. split; [exact Hb|]. split; [exact Hlast|].
  rewrite length_app. cbn [length]. repeat split; lia.
Qed.

End QuantilesLast.

Lemma ratio_ge_exact_at_total total current n :
  0 < total <= 2 ^ 53 -> 1 <= current <= n ->
  ratio_ge_exact total total current n = true.
Proof. intros Ht Hc. unfold ratio_ge_exact. apply Z.leb_le. nia. Qed.

Lemma ratio_ge_exact_below_total cum total current n :
  0 < cum < total -> total <= 2 ^ 53 -> 1 <= current ->
  ratio_ge_exact cum total current n = true -> current < n.
Proof. unfold ratio_ge_exact. intros Hc _ H1 H. apply Z.leb_le in H. nia. Qed.

(** * What a compaction keeps and what it promotes *)

Lemma start_index_ge even S :
  0 <= S -> S + 1 < 2 ^ 64 ->
  S <= Compactor.start_index even S <= S + 1.
Proof.
  intros H0 H1. unfold Compactor.start_index.
  destruct (negb even && (S mod 2 =? 0)); [|lia].
  rewrite wrap64_small by lia. lia.
Qed.

Section CompactionContents.
Context {T : Type}.
Variable T_lt : T -> T -> bool.
Variable rest_order : list T -> list T -> list T.
Hypothesis rest_order_perm :
  forall buf rest, Permutation (rest_order buf rest) rest.

Lemma partial_sort_back_front_length S buf :
  length (rest_order buf (take (length buf - S) (std_sort T_lt buf)))
  = (length buf - S)%nat.
Proof.
  rewrite (Permutation_length (rest_order_perm _ _)).
  apply length_take_le. rewrite std_sort_length. lia.
Qed.

(** Past the elements [std::partial_sort] leaves unsorted, the buffer is
    the sorted buffer. *)
Lemma drop_partial_sort_back S buf i :
  (length buf - S <= i)%nat ->
  drop i (Compactor.partial_sort_back T_lt rest_order S buf)
  = drop i (std_sort T_lt buf).
Proof.
  intros Hi. unfold Compactor.partial_sort_back.
  rewrite drop_app_ge by (rewrite partial_sort_back_front_length; exact Hi).
  rewrite partial_sort_back_front_length, drop_drop.
  f_equal. lia.
Qed.

Lemma take_partial_sort_back S buf i :
  (length buf - S <= i)%nat ->
  Permutation (take i (Compactor.partial_sort_back T_lt rest_order S buf))
    (take i (std_sort T_lt buf)).
Proof.
  intros Hi. unfold Compactor.partial_sort_back.
  rewrite take_app_ge by (rewrite partial_sort_back_front_length; exact Hi).
  rewrite partial_sort_back_front_length, rest_order_perm, take_take_drop.
  replace (length buf - S + (i - (length buf - S)))%nat with i by lia.
  reflexivity.
Qed.

(** An [Insert] into a full buffer whose compaction takes at most half of
    it: all it compacts lies in the range [std::partial_sort] sorted. *)
Lemma Insert_at_sorted (c : Compactor.t T) element coins :
  uint64 (Compactor.max_buffer_size c) ->
  Z.of_nat (length (Compactor.buffer c)) = Compactor.max_buffer_size c ->
  2 * Compactor.elements_to_compact c <= Compactor.max_buffer_size c ->
  Compactor.max_buffer_size c - Compactor.elements_to_compact c
    < vector_max_size ->
  let S := Compactor.max_buffer_size c - Compactor.elements_to_compact c in
  Compactor.Insert T_lt rest_order c element coins
  = Returns
      (Compactor.set_C
         (Compactor.set_buffer c
            (take (Z.to_nat S)
               (Compactor.partial_sort_back T_lt rest_order (Z.to_nat S)
                  (Compactor.buffer c))
             ++ [element]))
         (wrap64 (Compactor.C c + 1)),
       every_other
         (drop (Z.to_nat (Compactor.start_index (shead coins) S))
            (std_sort T_lt (Compactor.buffer c))),
       stail coins).
Proof.
  intros Hmax Hfull Hhalf Hvec S.
  pose proof (elements_to_compact_range (T:=T) c) as Hetc.
  unfold uint64, vector_max_size in *.
  assert (Hfit : Compactor.elements_to_compact c <= Compactor.max_buffer_size c)
    by lia.
  pose proof (start_index_ge (shead coins) S ltac:(unfold S; lia)
                ltac:(unfold S; lia)) as Hi.
  unfold Compactor.Insert.
  rewrite (proj2 (Z.eqb_eq _ _) Hfull).
  rewrite (compact_fits T_lt rest_order rest_order_perm c coins Hmax Hfull Hfit).
  fold S. cbn [bind]. unfold push_back.
  cbn [Compactor.buffer Compactor.set_C Compactor.set_buffer].
  rewrite length_take, partial_sort_back_length by exact rest_order_perm.
  destruct (Z.ltb_spec (Z.of_nat (Z.to_nat S `min` length (Compactor.buffer c)))
              vector_max_size) as [_|Hge];
    [|unfold S, vector_max_size in Hge; lia].
  cbn [bind]. rewrite drop_partial_sort_back by lia.
  reflexivity.
Qed.

Lemma Insert_compacts_sorted (c : Compactor.t T) element coins :
  uint64 (Compactor.max_buffer_size c) ->
  Z.of_nat (length (Compactor.buffer c)) = Compactor.max_buffer_size c ->
  2 * Compactor.elements_to_compact c <= Compactor.max_buffer_size c ->
  Compactor.max_buffer_size c - Compactor.elements_to_compact c
    < vector_max_size ->
  let S := Compactor.max_buffer_size c - Compactor.elements_to_compact c in
  let sorted := std_sort T_lt (Compactor.buffer c) in
  exists kept,
    Compactor.Insert T_lt rest_order c element coins
    = Returns
        (Compactor.set_C (Compactor.set_buffer c (kept ++ [element]))
           (wrap64 (Compactor.C c + 1)),
         every_other
           (drop (Z.to_nat (Compactor.start_index (shead coins) S)) sorted),
         stail coins)
    /\ Permutation kept (take (Z.to_nat S) sorted).
Proof.
  intros Hmax Hfull Hhalf Hvec S sorted.
  pose proof (elements_to_compact_range (T:=T) c) as Hetc.
  eexists. split; [apply Insert_at_sorted; assumption|].
  apply take_partial_sort_back. unfold uint64 in *. unfold S. lia.
Qed.

(** The same for the compactor of streaming-quantiles/compactor.cpp. *)
Lemma Insert_cpp_compacts_sorted (c : Compactor.t T) element coins :
  uint64 (Compactor.max_buffer_size c) ->
  Z.of_nat (length (Compactor.buffer c)) = Compactor.max_buffer_size c ->
  0 < Compactor.elements_to_compact c ->
  2 * Compactor.elements_to_compact c <= Compactor.max_buffer_size c ->
  Compactor.max_buffer_size c - Compactor.elements_to_compact c
    < vector_max_size ->
  let S := Compactor.max_buffer_size c - Compactor.elements_to_compact c in
  let sorted := std_sort T_lt (Compactor.buffer c) in
  exists kept,
    Compactor.Insert_cpp T_lt rest_order c element coins
    = Returns
        (Compactor.set_C (Compactor.set_buffer c (kept ++ [element]))
           (wrap64 (Compactor.C c + 1)),
         every_other
           (drop (Z.to_nat (Compactor.start_index (shead coins) S)) sorted),
         stail coins)
    /\ Permutation kept (take (Z.to_nat S) sorted).
Proof.
  intros Hmax Hfull Hpos Hhalf Hvec S sorted.
  pose proof (elements_to_compact_range (T:=T) c) as Hetc.
  unfold uint64, vector_max_size in *.
  assert (Hfit : 0 < Compactor.elements_to_compact c
                 <= Compactor.max_buffer_size c) by lia.
  pose proof (start_index_ge (shead coins) S ltac:(unfold S; lia)
                ltac:(unfold S; lia)) as Hi.
  assert (Hcut : (length (Compactor.buffer c) - Z.to_nat (S + 1)
                  <= Z.to_nat S)%nat) by (unfold S; lia).
  exists (take (Z.to_nat S)
            (Compactor.partial_sort_back T_lt rest_order (Z.to_nat (S + 1))
               (Compactor.buffer c))).
  split; [|apply take_partial_sort_back; exact Hcut].
  unfold Compactor.Insert_cpp.
  rewrite (proj2 (Z.eqb_eq _ _) Hfull).
  rewrite (compact_cpp_fits T_lt rest_order rest_order_perm c coins Hmax Hfull Hfit).
  fold S. cbn [bind]. unfold push_back.
  cbn [Compactor.buffer Compactor.set_C Compactor.set_buffer].
  rewrite length_take, partial_sort_back_length by exact rest_order_perm.
  destruct (Z.ltb_spec (Z.of_nat (Z.to_nat S `min` length (Compactor.buffer c)))
              vector_max_size) as [_|Hge];
    [|unfold S, vector_max_size in Hge; lia].
  cbn [bind]. rewrite drop_partial_sort_back by lia.
  reflexivity.
Qed.

End CompactionContents.

Section CompactionTheorems.
Context {T : Type}.
Variable T_lt : T -> T -> bool.
Variable log2_ceil : Z -> Z -> Z.
Variable rest_order rest_order2 : list T -> list T -> list T.
Hypothesis rest_order_perm :
  forall buf rest, Permutation (rest_order buf rest) rest.
Hypothesis rest_order2_perm :
  forall buf rest, Permutation (rest_order2 buf rest) rest.

(** X9. The two compactors agree. When a full buffer is compacted and the
    compaction takes at least one element and at most half of the buffer,
    [Compactor::Insert] of compactor.h and of
    streaming-quantiles/compactor.cpp promote the same items in the same
    order, leave the same counters and leave buffers that hold the same
    items, whatever order each [std::partial_sort] leaves outside its
    sorted range. *)
Theorem compactors_agree (c : Compactor.t T) element coins :
  uint64 (Compactor.max_buffer_size c) ->
  Z.of_nat (length (Compactor.buffer c)) = Compactor.max_buffer_size c ->
  0 < Compactor.elements_to_compact c ->
  2 * Compactor.elements_to_compact c <= Compactor.max_buffer_size c ->
  Compactor.max_buffer_size c - Compactor.elements_to_compact c
    < vector_max_size ->
  exists c1 c2 output,
    Compactor.Insert T_lt rest_order c element coins
      = Returns (c1, output, stail coins)
    /\ Compactor.Insert_cpp T_lt rest_order2 c element coins
       = Returns (c2, output, stail coins)
    /\ Permutation (Compactor.buffer c1) (Compactor.buffer c2)
    /\ Compactor.C c1 = wrap64 (Compactor.C c + 1)
    /\ Compactor.C c2 = wrap64 (Compactor.C c + 1).
Proof.
  intros Hmax Hfull Hpos Hhalf Hvec.
  destruct (Insert_compacts_sorted T_lt rest_order rest_order_perm c element
              coins Hmax Hfull Hhalf Hvec) as (kept1 & Hrun1 & Hkept1).
  destruct (Insert_cpp_compacts_sorted T_lt rest_order2 rest_order2_perm c
              element coins Hmax Hfull Hpos Hhalf Hvec)
    as (kept2 & Hrun2 & Hkept2).
  do 3 eexists. split; [exact Hrun1|]. split; [exact Hrun2|].
  split; [|split; reflexivity].
  cbn [Compactor.buffer Compactor.set_C Compactor.set_buffer].
  rewrite Hkept1, Hkept2. reflexivity.
Qed.

(** X10. A compaction of at most half of a full buffer keeps the smallest
    items and promotes from the largest: the promoted items are every
    other one of the sorted buffer from the split point (or the position
    after it), in ascending order, and no kept item is larger than a
    promoted one. *)
Theorem compaction_keeps_smallest (c : Compactor.t T) element coins :
  (forall a, T_lt a a = false) ->
  (forall a b d, T_lt a b = true -> T_lt b d = true -> T_lt a d = true) ->
  uint64 (Compactor.max_buffer_size c) ->
  Z.of_nat (length (Compactor.buffer c)) = Compactor.max_buffer_size c ->
  2 * Compactor.elements_to_compact c <= Compactor.max_buffer_size c ->
  Compactor.max_buffer_size c - Compactor.elements_to_compact c
    < vector_max_size ->
  let S := Compactor.max_buffer_size c - Compactor.elements_to_compact c in
  exists c' kept output,
    Compactor.Insert T_lt rest_order c element coins
      = Returns (c', output, stail coins)
    /\ Compactor.buffer c' = kept ++ [element]
    /\ output
       = every_other
           (drop (Z.to_nat (Compactor.start_index (shead coins) S))
              (std_sort T_lt (Compactor.buffer c)))
    /\ Permutation (kept ++ drop (Z.to_nat S) (std_sort T_lt (Compactor.buffer c)))
         (Compactor.buffer c)
    /\ ascending T_lt output
    /\ Forall (fun x => Forall (fun y => T_lt y x = false) output) kept.
Proof.
  intros Hirrefl Htrans Hmax Hfull Hhalf Hvec S.
  destruct (Insert_compacts_sorted T_lt rest_order rest_order_perm c element
              coins Hmax Hfull Hhalf Hvec) as (kept & Hrun & Hkept).
  fold S in Hrun, Hkept.
  pose proof (elements_to_compact_range (T:=T) c) as Hetc.
  unfold uint64, vector_max_size in *.
  pose proof (start_index_ge (shead coins) S ltac:(unfold S; lia)
                ltac:(unfold S; lia)) as Hi.
  set (sorted := std_sort T_lt (Compactor.buffer c)) in *.
  set (i := Z.to_nat (Compactor.start_index (shead coins) S)) in *.
  assert (Hsorted : ascending T_lt sorted)
    by (apply std_sort_ascending; assumption).
  assert (Hsub : sublist (every_other (drop i sorted)) (drop (Z.to_nat S) sorted)).
  { etransitivity; [apply every_other_sublist|].
    replace i with (Z.to_nat S + (i - Z.to_nat S))%nat by (unfold i; lia).
    rewrite <- drop_drop. apply sublist_drop. }
  do 3 eexists. split; [exact Hrun|]. split; [reflexivity|].
  split; [reflexivity|]. split; [|split].
  - rewrite Hkept, take_drop. apply std_sort_perm.
  - eapply ascending_sublist; [exact Hsub|]. apply ascending_drop, Hsorted.
  - eapply Permutation_Forall; [symmetry; exact Hkept|].
    rewrite <- (take_drop (Z.to_nat S) sorted) in Hsorted.
    apply ascending_app_inv in Hsorted as (_ & _ & Hcross).
    eapply Forall_impl; [|exact Hcross]. cbn. intros x Hx.
    eapply sublist_Forall'; [exact Hsub|exact Hx].
Qed.

(** X11. [Compactor::Insert] only moves items: what is in the buffer and
    in the promoted output after the call was in the buffer before it or
    is the inserted element, counted with multiplicity; nothing is
    invented and nothing is duplicated. *)
Theorem Insert_conserves_items (c : Compactor.t T) element coins
    c' output coins' :
  Compactor.Insert T_lt rest_order c element coins
    = Returns (c', output, coins') ->
  submseteq (Compactor.buffer c' ++ output) (Compactor.buffer c ++ [element]).
Proof.
  intros Hrun.
  destruct (Insert_inv _ _ _ _ _ _ _ _ Hrun)
    as [(_ & _ & -> & -> & _)|(Hfull & c1 & Hc1 & Hvec & ->)];
    cbn [Compactor.buffer Compactor.set_buffer].
  - rewrite app_nil_r. reflexivity.
  - unfold Compactor.compact in Hc1.
    set (S := wrap64 (Compactor.max_buffer_size c
                      - Compactor.elements_to_compact c)) in *.
    destruct (Z.ltb_spec (Z.of_nat (length (Compactor.buffer c))) S)
      as [|Hlen]; [discriminate|].
    destruct (_ <? _) in Hc1; [discriminate|].
    injection Hc1 as <- <- _.
    cbn [Compactor.buffer Compactor.set_buffer Compactor.set_C] in *.
    set (sorted := Compactor.partial_sort_back T_lt rest_order (Z.to_nat S)
                     (Compactor.buffer c)) in *.
    assert (HS : 0 <= S) by apply wrap64_range.
    assert (Hsl : length sorted = length (Compactor.buffer c))
      by (apply partial_sort_back_length; exact rest_order_perm).
    rewrite length_take, Hsl in Hvec. unfold vector_max_size in Hvec.
    pose proof (start_index_ge (shead coins) S HS ltac:(lia)) as Hi.
    set (i := Z.to_nat (Compactor.start_index (shead coins) S)) in *.
    assert (Hsub : sublist (every_other (drop i sorted)) (drop (Z.to_nat S) sorted)).
    { etransitivity; [apply every_other_sublist|].
      replace i with (Z.to_nat S + (i - Z.to_nat S))%nat by (unfold i; lia).
      rewrite <- drop_drop. apply sublist_drop. }
    rewrite <- app_assoc.
    rewrite (Permutation_app_comm [element]), app_assoc.
    apply submseteq_skips_r.
    rewrite <- (partial_sort_back_perm T_lt rest_order rest_order_perm
                  (Z.to_nat S) (Compactor.buffer c)).
    fold sorted. rewrite <- (take_drop (Z.to_nat S) sorted) at 3.
    apply submseteq_skips_l, sublist_submseteq, Hsub.
Qed.

(** X12. Nothing caps a compaction at the size of the buffer: whenever
    the schedule asks a full buffer for more elements than it holds, the
    [Insert] of compactor.h calls [std::partial_sort] with its middle past
    the end, and the one of streaming-quantiles/compactor.cpp does the
    same or, one element over, asks [resize] for [2^64 - 1] elements; no
    element and no coin outcome makes either return. *)
Theorem Insert_over_capacity (c : Compactor.t T) element coins :
  uint64 (Compactor.max_buffer_size c) ->
  Z.of_nat (length (Compactor.buffer c)) = Compactor.max_buffer_size c ->
  Compactor.max_buffer_size c < Compactor.elements_to_compact c ->
  Compactor.Insert T_lt rest_order c element coins = Fault PartialSortRange
  /\ Compactor.Insert_cpp T_lt rest_order c element coins
     = Fault (if Compactor.elements_to_compact c
                 =? Compactor.max_buffer_size c + 1
              then LengthError else PartialSortRange).
Proof.
  intros Hmax Hfull Hover.
  pose proof (elements_to_compact_range (T:=T) c) as Hetc.
  split.
  - unfold Compactor.Insert. rewrite (proj2 (Z.eqb_eq _ _) Hfull).
    rewrite compact_overflows by assumption. reflexivity.
  - unfold Compactor.Insert_cpp. rewrite (proj2 (Z.eqb_eq _ _) Hfull).
    unfold Compactor.compact_cpp.
    rewrite (wrap64_sub_gt _ _ Hmax Hetc Hover).
    unfold uint64 in *.
    destruct (Z.eqb_spec (Compactor.elements_to_compact c)
                (Compactor.max_buffer_size c + 1)) as [Heq|Hne].
    + replace (Compactor.max_buffer_size c - Compactor.elements_to_compact c
               + 2 ^ 64 + 1) with (2 ^ 64) by lia.
      change (wrap64 (2 ^ 64)) with 0.
      destruct (Z.ltb_spec (Z.of_nat (length (Compactor.buffer c))) 0);
        [lia|].
      rewrite partial_sort_back_length by exact rest_order_perm.
      destruct (Z.ltb_spec (Z.of_nat (length (Compactor.buffer c)))
                  (Compactor.max_buffer_size c
                   - Compactor.elements_to_compact c + 2 ^ 64)); [|lia].
      reflexivity.
    + rewrite wrap64_small by lia.
      destruct (Z.ltb_spec (Z.of_nat (length (Compactor.buffer c)))
                  (Compactor.max_buffer_size c
                   - Compactor.elements_to_compact c + 2 ^ 64 + 1)); [|lia].
      reflexivity.
Qed.

End CompactionTheorems.

(** X13. The schedule is the ruler sequence: a compaction at an even
    counter takes one section, and one at an odd counter [2 c + 1] takes
    one section more than a compaction at counter [c]; a compaction never
    takes fewer than one section nor more than 65. *)
Theorem schedule_ruler (C : Z) :
  0 <= C -> 2 * C + 1 < 2 ^ 64 ->
  Compactor.sections_to_compact (2 * C) = 1
  /\ Compactor.sections_to_compact (2 * C + 1)
     = Compactor.sections_to_compact C + 1
  /\ 1 <= Compactor.sections_to_compact C <= 65.
Proof.
  intros H0 Hlt.
  assert (HC : uint64 C) by (unfold uint64; lia).
  assert (HC0 : uint64 (2 * C)) by (unfold uint64; lia).
  assert (HC1 : uint64 (2 * C + 1)) by (unfold uint64; lia).
  destruct (sections_to_compact_spec _ HC) as (t & Ht & Ht64 & ->).
  destruct (sections_to_compact_spec _ HC0) as (t0 & Ht0 & _ & ->).
  destruct (sections_to_compact_spec _ HC1) as (t1 & Ht1 & _ & ->).
  pose proof Ht as (Hge & Hlow & Hhigh).
  assert (H0' : trailing_ones (2 * C) 0).
  { split; [lia|]. split; [intros j Hj; lia|apply Z.testbit_even_0]. }
  assert (H1' : trailing_ones (2 * C + 1) (t + 1)).
  { split; [lia|]. split.
    - intros j Hj. destruct (Z.eq_dec j 0) as [->|Hne].
      + apply Z.testbit_odd_0.
      + replace j with (Z.succ (j - 1)) by lia.
        rewrite Z.testbit_odd_succ by lia. apply Hlow. lia.
    - replace (t + 1) with (Z.succ t) by lia.
      rewrite Z.testbit_odd_succ by lia. exact Hhigh. }
  rewrite (trailing_ones_unique _ _ _ Ht0 H0').
  rewrite (trailing_ones_unique _ _ _ Ht1 H1').
  split; [reflexivity|]. split; [reflexivity|lia].
Qed.

(** * The levels of a sketch *)

Section Levels.
Context {T : Type}.
Variable T_lt : T -> T -> bool.
Variable T_empty : T -> bool.
Variable log2_ceil : Z -> Z -> Z.
Variable rest_order : list T -> list T -> list T.

Import RelativeErrorQuantilesSketch.

Abbreviation Sketch_Insert :=
  (RelativeErrorQuantilesSketch.Insert T_lt log2_ceil rest_order).

Lemma Insert_fields (c : Compactor.t T) element coins c' output coins' :
  Compactor.Insert T_lt rest_order c element coins
    = Returns (c', output, coins') ->
  Compactor.k c' = Compactor.k c /\ Compactor.n c' = Compactor.n c
  /\ Compactor.h c' = Compactor.h c
  /\ Compactor.max_buffer_size c' = Compactor.max_buffer_size c.
Proof.
  intros Hrun.
  destruct (Insert_inv _ _ _ _ _ _ _ _ Hrun)
    as [(_ & _ & -> & _ & _)|(_ & c1 & Hc1 & _ & ->)]; cbn.
  - auto.
  - unfold Compactor.compact in Hc1.
    destruct (_ <? _) in Hc1; try discriminate.
    destruct (_ <? _) in Hc1; try discriminate.
    injection Hc1 as <- _ _. cbn. auto.
Qed.

(** The compactors of a sketch share its parameters. *)
Abbreviation shares options :=
  (fun c : Compactor.t T =>
     Compactor.k c = k options /\ Compactor.n c = n options
     /\ Compactor.max_buffer_size c
        = Compactor.max_buffer_size
            (Compactor.new (T:=T) log2_ceil (k options) (n options) 0)).

(** Level [i] knows that it is level [i]. *)
Abbreviation indexed :=
  (fun s : t T =>
     forall i c, compactors_ s !! i = Some c -> Compactor.h c = Z.of_nat i).

Lemma shares_new options h :
  shares options (Compactor.new log2_ceil (k options) (n options) h).
Proof. cbn. auto. Qed.

Lemma shares_Insert options (c : Compactor.t T) element coins c' output coins' :
  shares options c -> True ->
  Compactor.Insert T_lt rest_order c element coins
    = Returns (c', output, coins') ->
  shares options c' /\ Forall (fun _ => True) output.
Proof.
  intros (Hk & Hn & Hmax) _ Hrun.
  destruct (Insert_fields _ _ _ _ _ _ Hrun) as (-> & -> & _ & ->).
  split; [auto|]. apply Forall_forall. auto.
Qed.

Lemma Insert_indexed options fuel :
  forall (s : t T) element h coins s' coins',
    sketch_inv (shares options) options s -> 0 <= h -> indexed s ->
    Sketch_Insert fuel s element h coins = Returns (s', coins') ->
    indexed s'.
Proof.
  induction fuel as [|fuel IH]; intros s element h coins s' coins' Hinv Hh Hidx Hrun;
    [discriminate|].
  destruct (Insert_S_inv _ _ _ _ _ _ _ _ _ _ Hrun)
    as (s1 & c & c' & output & coins1 & Hens & Hlook & Hins & Hfor).
  destruct (ensure_level_inv log2_ceil (shares options) options
              (shares_new options) s s1 h c Hinv Hh Hens Hlook)
    as (Hinv1 & _).
  assert (Hidx1 : indexed s1).
  { unfold ensure_level in Hens.
    destruct (Z.ltb_spec (H_ s) h) as [Hlt|Hge].
    - unfold push_back in Hens.
      destruct (_ <? vector_max_size) in Hens; [|discriminate].
      cbn [bind] in Hens. injection Hens as <-.
      cbn [compactors_ set_compactors] in *.
      destruct Hinv as (_ & _ & Hlen & _).
      apply lookup_lt_Some in Hlook as Hlt'. rewrite length_app in Hlt'.
      cbn [length] in Hlt'.
      intros i ci Hi. apply lookup_app_Some in Hi as [Hi|[Hge Hi]].
      + apply Hidx, Hi.
      + apply list_lookup_singleton_Some in Hi as [Hi0 <-].
        cbn [Compactor.h Compactor.new]. lia.
    - injection Hens as <-. exact Hidx. }
  destruct (Insert_fields _ _ _ _ _ _ Hins) as (_ & _ & Hh' & _).
  destruct (shares_Insert options _ _ _ _ _ _
              (proj1 (Forall_forall _ _) (proj2 (proj2 (proj2 (proj2 Hinv1)))) c
                 (proj1 (list_elem_of_In _ _) (list_elem_of_lookup_2 _ _ _ Hlook)))
              I Hins) as [Hc' _].
  set (s2 := set_compactors s1 (H_ s1) (<[Z.to_nat h := c']> (compactors_ s1)))
    in *.
  assert (Hinv2 : sketch_inv (shares options) options s2).
  { destruct Hinv1 as (Hopt & H0 & Hlen & Hvec & Hall).
    unfold sketch_inv, s2. cbn [options_ H_ compactors_ set_compactors].
    rewrite length_insert. repeat split; try assumption.
    apply Forall_insert; assumption. }
  assert (Hidx2 : indexed s2).
  { intros i ci Hi. unfold s2 in Hi. cbn [compactors_ set_compactors] in Hi.
    destruct (Nat.eq_dec i (Z.to_nat h)) as [->|Hne].
    - rewrite list_lookup_insert_eq in Hi
        by (eapply lookup_lt_Some; exact Hlook).
      injection Hi as <-. rewrite Hh'. apply Hidx1, Hlook.
    - rewrite list_lookup_insert_ne in Hi by congruence.
      apply Hidx1, Hi. }
  destruct (for_each_invariant
              (fun st x => Sketch_Insert fuel (fst st) x (wrap64 (h + 1)) (snd st))
              (fun st => sketch_inv (shares options) options (fst st)
                         /\ indexed (fst st))
              (fun _ => 0) 0) with (l := output) (s := (s2, coins1))
                                   (s' := (s', coins'))
    as [[_ Hidx'] _]; [| |exact Hfor|exact Hidx'].
  - intros [st cn] x [st' cn'] [Hi1 Hi2] Hstep. cbn [fst snd] in *.
    split; [|lia]. split.
    + eapply (Insert_sketch_inv T_lt log2_ceil rest_order (shares options)
                (fun _ => True) options (shares_new options)
                (shares_Insert options)); [exact Hi1| |exact I|exact Hstep].
      apply wrap64_range.
    + eapply IH; [exact Hi1| |exact Hi2|exact Hstep]. apply wrap64_range.
  - split; assumption.
Qed.

Lemma sketch_reachable_levels options (s : t T) :
  sketch_reachable T_lt log2_ceil rest_order options s ->
  sketch_inv (shares options) options s /\ indexed s.
Proof.
  induction 1 as [|s fuel element h coins s' coins' _ [IH1 IH2] Hh Hrun].
  - split; [apply new_sketch_inv, shares_new|].
    intros i c Hi. cbn in Hi. destruct i; [|discriminate].
    injection Hi as <-. reflexivity.
  - split.
    + eapply (Insert_sketch_inv T_lt log2_ceil rest_order (shares options)
                (fun _ => True) options (shares_new options)
                (shares_Insert options)); [exact IH1| |exact I|exact Hrun].
      apply Hh.
    + eapply Insert_indexed; [exact IH1| |exact IH2|exact Hrun]. apply Hh.
Qed.

(** X14. In every state of a sketch reached from its constructor by
    [Insert] calls that returned, the levels are dense
    ([compactors_.size() = H_ + 1]), level [i] carries [h = i], all levels
    share the [k], the [n] and the capacity of the sketch, and [Close]
    returns exactly when no stored item is [empty()]. *)
Theorem reachable_levels options (s : t T) :
  sketch_reachable T_lt log2_ceil rest_order options s ->
  Z.of_nat (length (compactors_ s)) = Depth s + 1
  /\ (forall i c, compactors_ s !! i = Some c ->
        Compactor.h c = Z.of_nat i
        /\ Compactor.k c = k options /\ Compactor.n c = n options
        /\ Compactor.max_buffer_size c
           = Compactor.max_buffer_size
               (Compactor.new (T:=T) log2_ceil (k options) (n options) 0))
  /\ ((exists s', Close T_lt T_empty s = Returns s')
      <-> Forall (fun c => Forall (fun x => T_empty x = false)
                             (Compactor.buffer c)) (compactors_ s)).
Proof.
  intros Hreach.
  destruct (sketch_reachable_levels options s Hreach) as [Hinv Hidx].
  pose proof Hinv as (_ & _ & Hlen & _ & Hall).
  split; [exact Hlen|]. split.
  - intros i c Hi. split; [apply Hidx, Hi|].
    rewrite Forall_forall in Hall. apply Hall.
    eapply list_elem_of_In, list_elem_of_lookup_2. exact Hi.
  - split.
    + intros [s' Hclose].
      destruct (Close_inv _ _ _ _ Hclose) as (_ & _ & ws & Hloop & _).
      eapply Close_loop_nonempty. exact Hloop.
    + intros Hne. eapply Close_returns; [exact Hinv|exact Hne].
Qed.

End Levels.

(** * Below capacity *)

Section BelowCapacity.
Context {T : Type}.
Variable T_lt : T -> T -> bool.
Variable T_empty : T -> bool.
Variable log2_ceil : Z -> Z -> Z.
Variable rest_order : list T -> list T -> list T.

Import RelativeErrorQuantilesSketch.

(** An [Insert] at an existing level whose buffer has room appends there
    and does nothing else. *)
Lemma Insert_room fuel (s : t T) element h coins c :
  h <= H_ s ->
  compactors_ s !! Z.to_nat h = Some c ->
  Z.of_nat (length (Compactor.buffer c)) <> Compactor.max_buffer_size c ->
  Z.of_nat (length (Compactor.buffer c)) < vector_max_size ->
  RelativeErrorQuantilesSketch.Insert T_lt log2_ceil rest_order (S fuel) s
    element h coins
  = Returns
      (set_compactors s (H_ s)
         (<[Z.to_nat h :=
              Compactor.set_buffer c (Compactor.buffer c ++ [element])]>
            (compactors_ s)),
       coins).
Proof.
  intros Hh Hlook Hroom Hvec.
  cbn [RelativeErrorQuantilesSketch.Insert]. unfold ensure_level.
  destruct (Z.ltb_spec (H_ s) h); [lia|]. cbn [bind]. rewrite Hlook.
  unfold Compactor.Insert, push_back.
  destruct (Z.eqb_spec (Z.of_nat (length (Compactor.buffer c)))
              (Compactor.max_buffer_size c)); [contradiction|].
  cbn [bind].
  destruct (Z.ltb_spec (Z.of_nat (length (Compactor.buffer c)))
              vector_max_size); [|lia].
  reflexivity.
Qed.

(** The fresh sketch with [b] in its level-0 buffer. *)
Abbreviation holding options b :=
  (set_compactors (new (T:=T) log2_ceil options) 0
     [Compactor.set_buffer
        (Compactor.new log2_ceil (k options) (n options) 0) b]).

Lemma Insert_all_room options fuel items :
  forall b coins,
    Z.of_nat (length b) + Z.of_nat (length items)
      <= Compactor.max_buffer_size
           (Compactor.new (T:=T) log2_ceil (k options) (n options) 0) ->
    Z.of_nat (length b) + Z.of_nat (length items) <= vector_max_size ->
    Insert_all T_lt log2_ceil rest_order (S fuel) (holding options b) items coins
    = Returns (holding options (b ++ items), coins).
Proof.
  induction items as [|x items IH]; intros b coins Hcap Hvec.
  - rewrite app_nil_r. reflexivity.
  - cbn [length] in Hcap, Hvec.
    unfold Insert_all. cbn [for_each fst snd].
    rewrite (Insert_room fuel (holding options b) x 0 coins
               (Compactor.set_buffer
                  (Compactor.new log2_ceil (k options) (n options) 0) b));
      [|cbn; lia|reflexivity|cbn in *; lia|cbn; lia].
    cbn [bind]. specialize (IH (b ++ [x]) coins).
    rewrite length_app in IH. cbn [length] in IH.
    unfold Insert_all in IH. rewrite <- app_assoc in IH. cbn [app] in IH.
    apply IH; lia.
Qed.

(** X15. Below capacity nothing is compacted: after at most
    [max_buffer_size] items have been inserted at level 0 into a fresh
    sketch, the only level holds exactly these items in the order of
    insertion, the depth is 0, and no coin has been flipped. *)
Theorem Insert_all_below_capacity options fuel items coins :
  Z.of_nat (length items)
    <= Compactor.max_buffer_size
         (Compactor.new (T:=T) log2_ceil (k options) (n options) 0) ->
  Z.of_nat (length items) <= vector_max_size ->
  (0 < fuel)%nat ->
  exists s c,
    Insert_all T_lt log2_ceil rest_order fuel (new log2_ceil options) items coins
      = Returns (s, coins)
    /\ Depth s = 0
    /\ compactors_ s = [c]
    /\ Compactor.buffer c = items
    /\ Compactor.C c = 0.
Proof.
  intros Hcap Hvec Hfuel. destruct fuel as [|fuel]; [lia|].
  do 2 eexists. split.
  - apply (Insert_all_room options fuel items [] coins); cbn [length]; lia.
  - cbn. auto.
Qed.

End BelowCapacity.

Section ExactBelowCapacity.
Context {T : Type}.
Variable T_lt : T -> T -> bool.
Variable T_empty : T -> bool.
Variable log2_ceil : Z -> Z -> Z.
Variable rest_order : list T -> list T -> list T.
Hypothesis T_lt_irrefl : forall a, T_lt a a = false.
Hypothesis T_lt_trans :
  forall a b c, T_lt a b = true -> T_lt b c = true -> T_lt a c = true.
Hypothesis T_lt_cotrans :
  forall a b c, T_lt a b = true -> T_lt a c = true \/ T_lt c b = true.

Import RelativeErrorQuantilesSketch.

(** X16. Below capacity the sketch is exact: after at most
    [max_buffer_size] items, none of them [empty()], [Close] returns, the
    total weight is the number of items, and [EstimateRank x] is the
    number of inserted items less than [x]. *)
Theorem exact_below_capacity options fuel items coins :
  Forall (fun t => T_empty t = false) items ->
  Z.of_nat (length items)
    <= Compactor.max_buffer_size
         (Compactor.new (T:=T) log2_ceil (k options) (n options) 0) ->
  Z.of_nat (length items) <= vector_max_size ->
  (0 < fuel)%nat ->
  exists s s',
    Insert_all T_lt log2_ceil rest_order fuel (new log2_ceil options) items coins
      = Returns (s, coins)
    /\ Close T_lt T_empty s = Returns s'
    /\ TotalWeight s' = Z.of_nat (length items)
    /\ forall x,
         EstimateRank T_lt s' x
         = Z.of_nat (length (List.filter (fun t => T_lt t x) items)).
Proof.
  intros Hne Hcap Hvec Hfuel. destruct fuel as [|fuel]; [lia|].
  pose proof (Insert_all_room T_lt log2_ceil rest_order options fuel items []
                coins) as Hrun.
  cbn [length app] in Hrun. specialize (Hrun ltac:(lia) ltac:(lia)).
  set (s := set_compactors (new (T:=T) log2_ceil options) 0
              [Compactor.set_buffer
                 (Compactor.new log2_ceil (k options) (n options) 0) items])
    in *.
  assert (Hclose : exists s', Close T_lt T_empty s = Returns s').
  { apply (Close_returns T_lt T_empty (fun _ => True) options).
    - unfold sketch_inv, s. cbn. unfold vector_max_size.
      repeat split; try lia. constructor; [exact I|constructor].
    - constructor; [exact Hne|constructor]. }
  destruct Hclose as [s' Hclose]. exists s, s'.
  split; [exact Hrun|]. split; [exact Hclose|].
  assert (Hp : Permutation (weighted_elements_ s')
                 (stored_elements 0 (compactors_ s)))
    by exact (Close_perm _ _ _ _ Hclose).
  split.
  - unfold TotalWeight.
    rewrite (Close_total _ _ _ _ Hclose), (accumulate_weight_perm _ _ Hp).
    rewrite stored_elements_weight. cbn. lia.
  - intros x.
    assert (Hrank : EstimateRank T_lt s' x
                    = accumulate_weight
                        (List.filter (fun w => T_lt (item w) x)
                           (weighted_elements_ s'))).
    { unfold EstimateRank. rewrite lower_bound_filter; [reflexivity| |].
      - exact T_lt_cotrans.
      - apply (Close_ascending T_lt T_empty T_lt_irrefl T_lt_trans s).
        exact Hclose. }
    rewrite Hrank, (filter_perm_weight _ _ _ Hp).
    rewrite (filter_stored_elements (fun t => T_lt t x)).
    rewrite stored_elements_weight. cbn. lia.
Qed.

End ExactBelowCapacity.

(** * Growth of the hierarchy *)

Lemma for_each_app {A S} (f : S -> A -> outcome S) (l1 l2 : list A) (s : S) :
  for_each f (l1 ++ l2) s = bind (for_each f l1 s) (for_each f l2).
Proof.
  revert s. induction l1 as [|x l1 IH]; intros s; cbn [app for_each].
  - reflexivity.
  - destruct (f s x) as [s'| |]; cbn [bind]; [apply IH|reflexivity|reflexivity].
Qed.

Section Growth.
Context {T : Type}.
Variable T_lt : T -> T -> bool.
Variable log2_ceil : Z -> Z -> Z.
Variable rest_order : list T -> list T -> list T.
Hypothesis rest_order_perm :
  forall buf rest, Permutation (rest_order buf rest) rest.

Import RelativeErrorQuantilesSketch.

Abbreviation Sketch_Insert :=
  (RelativeErrorQuantilesSketch.Insert T_lt log2_ceil rest_order).

Lemma sketch_reachable_level_ok options (s : t T) :
  0 < k options < 2 ^ 64 -> Z.even (k options) = true ->
  sketch_reachable T_lt log2_ceil rest_order options s ->
  sketch_inv (level_ok log2_ceil options) options s.
Proof.
  intros Hk Heven.
  induction 1 as [|s fuel element h coins s' coins' _ IH Hh Hrun].
  - apply new_sketch_inv. intros h. apply new_level_ok; assumption.
  - eapply Insert_keeps_levels; try eassumption. apply Hh.
Qed.

(** X17. One insertion adds at most one level. On every reachable state
    of a sketch with a positive even section size, an [Insert] at level 0
    with room for a recursion one level past the top ends: it returns,
    with the depth unchanged or one more, or it stops at the compaction
    that exceeds the buffer (or at a vector that cannot grow); it never
    indexes a level that does not exist. *)
Theorem Insert_adds_at_most_one_level options (s : t T) element coins fuel :
  0 < k options < 2 ^ 64 -> Z.even (k options) = true ->
  sketch_reachable T_lt log2_ceil rest_order options s ->
  Depth s + 2 <= Z.of_nat fuel ->
  ends_within (Depth s + 1) (Sketch_Insert fuel s element 0 coins)
  /\ forall s' coins',
       Sketch_Insert fuel s element 0 coins = Returns (s', coins') ->
       Depth s <= Depth s' <= Depth s + 1.
Proof.
  intros Hk Heven Hreach Hfuel.
  pose proof (Insert_terminates T_lt log2_ceil rest_order rest_order_perm
                options Hk Heven fuel s element coins
                (sketch_reachable_level_ok options s Hk Heven Hreach) Hfuel)
    as Hends.
  split; [exact Hends|].
  intros s' coins' Hrun. unfold Depth in *. split.
  - eapply Insert_H_mono. exact Hrun.
  - rewrite Hrun in Hends. exact Hends.
Qed.

Lemma Insert_list_room fuel h (l : list T) :
  forall (s : t T) c coins,
    0 <= h <= H_ s ->
    compactors_ s !! Z.to_nat h = Some c ->
    Z.of_nat (length (Compactor.buffer c)) + Z.of_nat (length l)
      <= Compactor.max_buffer_size c ->
    Z.of_nat (length (Compactor.buffer c)) + Z.of_nat (length l)
      <= vector_max_size ->
    exists s' c',
      for_each (fun st x => Sketch_Insert (S fuel) (fst st) x h (snd st)) l
        (s, coins) = Returns (s', coins)
      /\ H_ s' = H_ s
      /\ compactors_ s' = <[Z.to_nat h := c']> (compactors_ s)
      /\ Compactor.buffer c' = Compactor.buffer c ++ l
      /\ Compactor.C c' = Compactor.C c
      /\ Compactor.h c' = Compactor.h c.
Proof.
  induction l as [|x l IH]; intros s c coins Hh Hlook Hcap Hvec.
  - exists s, c. cbn [for_each]. rewrite app_nil_r.
    rewrite list_insert_id by exact Hlook. repeat split.
  - cbn [length] in Hcap, Hvec. cbn [for_each fst snd].
    rewrite (Insert_room T_lt log2_ceil rest_order fuel s x h coins c);
      [|lia|exact Hlook|lia|lia].
    cbn [bind].
    set (c1 := Compactor.set_buffer c (Compactor.buffer c ++ [x])).
    set (s1 := set_compactors s (H_ s) (<[Z.to_nat h := c1]> (compactors_ s))).
    assert (Hlt : (Z.to_nat h < length (compactors_ s))%nat)
      by (eapply lookup_lt_Some; exact Hlook).
    destruct (IH s1 c1 coins) as (s' & c' & Hrun & HH & Hcs & Hbuf & HC & Hh').
    + cbn. lia.
    + cbn. apply list_lookup_insert_eq. exact Hlt.
    + cbn. rewrite length_app. cbn [length]. lia.
    + cbn. rewrite length_app. cbn [length]. lia.
    + exists s', c'. split; [exact Hrun|].
      split; [rewrite HH; reflexivity|].
      split; [rewrite Hcs; cbn; apply list_insert_insert_eq|].
      split; [rewrite Hbuf; cbn; rewrite <- app_assoc; reflexivity|].
      split; [rewrite HC; reflexivity|rewrite Hh'; reflexivity].
Qed.

(** An [Insert] at an existing level, given what its compactor returns. *)
Lemma Insert_existing_level fuel (s : t T) element h coins c c' output coins1 :
  h <= H_ s ->
  compactors_ s !! Z.to_nat h = Some c ->
  Compactor.Insert T_lt rest_order c element coins
    = Returns (c', output, coins1) ->
  Sketch_Insert (S fuel) s element h coins
  = for_each
      (fun st x => Sketch_Insert fuel (fst st) x (wrap64 (h + 1)) (snd st))
      output
      (set_compactors s (H_ s) (<[Z.to_nat h := c']> (compactors_ s)), coins1).
Proof.
  intros Hh Hlook Hins.
  cbn [RelativeErrorQuantilesSketch.Insert]. unfold ensure_level.
  destruct (Z.ltb_spec (H_ s) h); [lia|]. cbn [bind].
  rewrite Hlook, Hins. reflexivity.
Qed.

(** An [Insert] one level above the top creates the level. *)
Lemma Insert_new_level fuel (s : t T) element h coins :
  H_ s < h ->
  length (compactors_ s) = Z.to_nat h ->
  Z.of_nat (length (compactors_ s)) < vector_max_size ->
  Compactor.max_buffer_size
    (Compactor.new (T:=T) log2_ceil (k (options_ s)) (n (options_ s)) h) <> 0 ->
  exists s',
    Sketch_Insert (S fuel) s element h coins = Returns (s', coins)
    /\ H_ s' = h
    /\ compactors_ s'
       = compactors_ s
         ++ [Compactor.set_buffer
               (Compactor.new log2_ceil (k (options_ s)) (n (options_ s)) h)
               [element]].
Proof.
  intros Hh Hlen Hvec Hcap.
  cbn [RelativeErrorQuantilesSketch.Insert]. unfold ensure_level, push_back.
  destruct (Z.ltb_spec (H_ s) h); [|lia].
  destruct (Z.ltb_spec (Z.of_nat (length (compactors_ s))) vector_max_size);
    [|lia].
  cbn [bind compactors_ set_compactors H_].
  rewrite list_lookup_middle by (symmetry; exact Hlen).
  unfold Compactor.Insert, push_back.
  cbn [Compactor.buffer Compactor.new length].
  destruct (Z.eqb_spec (Z.of_nat 0)
              (Compactor.max_buffer_size
                 (Compactor.new (T:=T) log2_ceil (k (options_ s))
                    (n (options_ s)) h)))
    as [Hzero|_]; [lia|].
  cbn [bind Compactor.buffer Compactor.new length].
  change (Z.of_nat 0 <? vector_max_size) with true.
  cbn [bind for_each].
  eexists. split; [reflexivity|]. split; [reflexivity|].
  cbn [compactors_ set_compactors]. rewrite <- Hlen.
  rewrite insert_app_r_alt by lia. rewrite Nat.sub_diag. reflexivity.
Qed.

(** X18. The first overflow creates level 1. With an even section size
    [k >= 2] that fits the buffer, the insertion that follows
    [max_buffer_size] insertions at level 0 compacts one section: level 0
    is left with [max_buffer_size - k + 1] items and its counter at 1,
    level 1 is created to receive the [k / 2] promoted items, the depth
    becomes 1, and one coin has been flipped. *)
Theorem first_overflow_creates_level options fuel (front : list T) x coins :
  let cap :=
    Compactor.max_buffer_size
      (Compactor.new (T:=T) log2_ceil (k options) (n options) 0) in
  Z.even (k options) = true -> 2 <= k options <= cap ->
  cap < vector_max_size ->
  Z.of_nat (length front) = cap -> (2 <= fuel)%nat ->
  exists s c0 c1,
    Insert_all T_lt log2_ceil rest_order fuel (new log2_ceil options)
      (front ++ [x]) coins = Returns (s, stail coins)
    /\ Depth s = 1 /\ compactors_ s = [c0; c1]
    /\ Z.of_nat (length (Compactor.buffer c0)) = cap - k options + 1
    /\ Compactor.C c0 = 1
    /\ Z.of_nat (length (Compactor.buffer c1)) = k options / 2
    /\ Compactor.C c1 = 0 /\ Compactor.h c1 = 1.
Proof.
  intros cap Heven Hk Hvec Hfront Hfuel.
  destruct fuel as [|[|fuel]]; [lia|lia|].
  unfold vector_max_size in Hvec.
  assert (Hcap : uint64 cap) by apply wrap64_range.
  set (c := Compactor.set_buffer
              (Compactor.new log2_ceil (k options) (n options) 0) front).
  set (s0 := set_compactors (new (T:=T) log2_ceil options) 0 [c]).
  assert (Hetc : Compactor.elements_to_compact c = k options).
  { unfold Compactor.elements_to_compact, Compactor.elements_to_compact_at.
    cbn [Compactor.k Compactor.C Compactor.set_buffer Compactor.new c].
    change (Compactor.sections_to_compact 0) with 1.
    rewrite wrap64_small by lia. lia. }
  assert (Hmaxc : Compactor.max_buffer_size c = cap) by reflexivity.
  assert (Hfull : Z.of_nat (length (Compactor.buffer c))
                  = Compactor.max_buffer_size c) by exact Hfront.
  destruct (Insert_full T_lt rest_order rest_order_perm c x coins)
    as (c1 & output & Hcompact & Hinsert);
    [rewrite Hmaxc; exact Hcap|exact Hfull|rewrite Hetc, Hmaxc; lia
    |rewrite Hetc, Hmaxc; unfold vector_max_size; lia|].
  destruct (compact_inv T_lt rest_order rest_order_perm c coins c1 output
              (stail coins) ltac:(rewrite Hmaxc; exact Hcap) Hfull Hcompact)
    as (_ & _ & _ & Hmax1 & Hh1 & HC1 & Hlen1 & Hout & _).
  rewrite Hetc, Hmaxc in Hlen1, Hout.
  rewrite start_index_half in Hout;
    [|exact Hcap|lia|apply new_max_buffer_size_even|exact Heven].
  destruct output as [|y out].
  { cbn [length] in Hout. assert (1 <= k options / 2)
      by (apply Z.div_le_lower_bound; lia). lia. }
  cbn [length] in Hout.
  set (c0 := Compactor.set_buffer c1 (Compactor.buffer c1 ++ [x])) in *.
  set (s1 := set_compactors s0 (H_ s0) (<[Z.to_nat 0 := c0]> (compactors_ s0))).
  assert (Hdiv : k options / 2 <= cap / 2) by (apply Z.div_le_mono; lia).
  assert (Hhalf : cap / 2 < cap) by (apply Z.div_lt; lia).
  (* the first promoted item creates level 1 *)
  destruct (Insert_new_level fuel s1 y 1 (stail coins))
    as (s2 & Hrun2 & HH2 & Hcs2);
    [unfold s1, s0; cbn; lia|reflexivity
    |unfold s1, s0; cbn [compactors_ set_compactors];
     rewrite length_insert; cbn [length]; unfold vector_max_size; lia
    |change (cap <> 0); lia|].
  (* the others find room there *)
  destruct (Insert_list_room fuel 1 out s2
              (Compactor.set_buffer
                 (Compactor.new log2_ceil (k options) (n options) 1) [y])
              (stail coins))
    as (s' & c' & Hrun & HH & Hcs & Hbuf & HC & Hh').
  { lia. }
  { rewrite Hcs2. reflexivity. }
  { change (Z.of_nat (length [y]) + Z.of_nat (length out) <= cap).
    cbn [length]. lia. }
  { cbn [Compactor.buffer Compactor.set_buffer length].
    unfold vector_max_size. lia. }
  exists s', c0, c'.
  split.
  - unfold Insert_all. rewrite for_each_app.
    pose proof (Insert_all_room T_lt log2_ceil rest_order options (S fuel)
                  front [] coins) as Hfill.
    cbn [length app] in Hfill. unfold Insert_all in Hfill.
    specialize (Hfill ltac:(fold cap; lia)
                  ltac:(unfold vector_max_size; fold cap in Hfront; lia)).
    replace (for_each
               (fun st x0 => Sketch_Insert (S (S fuel)) (fst st) x0 0 (snd st))
               front (new log2_ceil options, coins))
      with (Returns (A:=t T * stream bool) (s0, coins))
      by (symmetry; exact Hfill).
    cbn [bind for_each fst snd].
    rewrite (Insert_existing_level (S fuel) s0 x 0 coins c c0 (y :: out)
               (stail coins)); [|unfold s0; cbn; lia|reflexivity|exact Hinsert].
    change (wrap64 (0 + 1)) with 1. fold s1.
    cbn [for_each fst snd]. rewrite Hrun2. cbn [bind]. rewrite Hrun.
    reflexivity.
  - split; [unfold Depth; rewrite HH, HH2; reflexivity|].
    split; [rewrite Hcs, Hcs2; reflexivity|].
    split; [unfold c0; cbn [Compactor.buffer Compactor.set_buffer];
            rewrite length_app; cbn [length]; lia|].
    split; [unfold c0; cbn [Compactor.C Compactor.set_buffer];
            rewrite HC1; reflexivity|].
    split; [rewrite Hbuf; cbn [Compactor.buffer Compactor.set_buffer app length];
            lia|].
    split; [rewrite HC; reflexivity|rewrite Hh'; reflexivity].
Qed.

End Growth.

Section Weights.
Context {T : Type}.
Variable T_lt : T -> T -> bool.
Variable log2_ceil : Z -> Z -> Z.
Variable rest_order : list T -> list T -> list T.
Hypothesis rest_order_perm :
  forall buf rest, Permutation (rest_order buf rest) rest.

Import RelativeErrorQuantilesSketch.

Lemma sketch_reachable_even options (s : t T) :
  Z.even (k options) = true ->
  sketch_reachable T_lt log2_ceil rest_order options s ->
  sketch_inv compactor_even options s.
Proof.
  intros Heven.
  induction 1 as [|s fuel element h coins s' coins' _ IH Hh Hrun].
  - apply new_sketch_inv. intros h. apply new_compactor_even. exact Heven.
  - eapply Insert_weight; try eassumption. apply Hh.
Qed.

(** X19. An item inserted at level [h] weighs [2^h]: on every reachable
    state of a sketch with an even section size, an [Insert(element, h)]
    that returns, with all the compactions and promotions it sets off,
    adds exactly [2^h] to the sum over the levels of [2^level] times the
    size of the buffer. *)
Theorem Insert_adds_level_weight options (s : t T) fuel element h coins
    s' coins' :
  Z.even (k options) = true ->
  sketch_reachable T_lt log2_ceil rest_order options s ->
  uint64 h ->
  RelativeErrorQuantilesSketch.Insert T_lt log2_ceil rest_order fuel s
    element h coins = Returns (s', coins') ->
  stored_weight 0 (compactors_ s') = stored_weight 0 (compactors_ s) + 2 ^ h.
Proof.
  intros Heven Hreach Hh Hrun.
  eapply Insert_weight; try eassumption.
  - apply sketch_reachable_even; assumption.
  - apply Hh.
Qed.

Lemma Insert_all_level_weight options fuel items :
  0 < k options < 2 ^ 64 -> Z.even (k options) = true ->
  forall (s : t T) coins s' coins',
    sketch_inv (level_ok log2_ceil options) options s ->
    Insert_all T_lt log2_ceil rest_order fuel s items coins
      = Returns (s', coins') ->
    sketch_inv (level_ok log2_ceil options) options s'
    /\ stored_weight 0 (compactors_ s')
       = stored_weight 0 (compactors_ s) + Z.of_nat (length items).
Proof.
  intros Hk Heven s coins s' coins' Hinv Hrun.
  destruct (for_each_invariant
              (fun st x =>
                 RelativeErrorQuantilesSketch.Insert T_lt log2_ceil rest_order
                   fuel (fst st) x 0 (snd st))
              (fun st => sketch_inv (level_ok log2_ceil options) options (fst st))
              (fun st => stored_weight 0 (compactors_ (fst st))) 1)
    with (l := items) (s := (s, coins)) (s' := (s', coins')) as [Hinv' Hw].
  - intros [st cn] x [st' cn'] Hi Hstep. cbn [fst snd] in *.
    destruct (Insert_keeps_levels T_lt log2_ceil rest_order rest_order_perm
                options Hk Heven fuel st x 0 cn st' cn' Hi (Z.le_refl 0) Hstep)
      as [H1 H2].
    split; [exact H1|rewrite H2; reflexivity].
  - exact Hinv.
  - exact Hrun.
  - split; [exact Hinv'|]. cbn [fst] in Hw. lia.
Qed.

(** X20. Depth grows at least logarithmically. A sketch of depth [H]
    stores a weight of at most [max_buffer_size * (2^(H+1) - 1)]: after
    [N] items have been inserted at level 0 into a fresh sketch with a
    positive even section size, [N] is at most that, whatever the coins
    showed. *)
Theorem depth_lower_bound options fuel items coins (s : t T) coins' :
  0 < k options < 2 ^ 64 -> Z.even (k options) = true ->
  Insert_all T_lt log2_ceil rest_order fuel (new log2_ceil options) items coins
    = Returns (s, coins') ->
  Z.of_nat (length items)
  <= Compactor.max_buffer_size
       (Compactor.new (T:=T) log2_ceil (k options) (n options) 0)
     * (2 ^ (Depth s + 1) - 1).
Proof.
  intros Hk Heven Hrun.
  destruct (Insert_all_level_weight options fuel items Hk Heven
              (new log2_ceil options) coins s coins') as [Hinv Hw];
    [apply new_sketch_inv; intros h; apply new_level_ok; assumption
    |exact Hrun|].
  cbn [stored_weight new compactors_ Compactor.buffer Compactor.new length]
    in Hw.
  destruct Hinv as (_ & H0 & Hlen & _ & Hall).
  pose proof (stored_weight_le_cap
                (Compactor.max_buffer_size
                   (Compactor.new (T:=T) log2_ceil (k options) (n options) 0))
                0 (compactors_ s) ltac:(lia)) as Hle.
  rewrite Hlen in Hle. unfold Depth.
  replace (0 + (H_ s + 1)) with (H_ s + 1) in Hle by lia.
  change (2 ^ 0) with 1 in Hle, Hw.
  assert (Hle' : stored_weight 0 (compactors_ s)
                 <= Compactor.max_buffer_size
                      (Compactor.new (T:=T) log2_ceil (k options) (n options) 0)
                    * (2 ^ (H_ s + 1) - 1)); [apply Hle|lia].
  eapply Forall_impl; [|exact Hall].
  intros c (Hci & _ & Hmax). cbv beta. rewrite <- Hmax. apply Hci.
Qed.

End Weights.

(** * The rank error of one compaction *)

Lemma filter_none {A} (p : A -> bool) (l : list A) :
  Forall (fun a => p a = false) l -> List.filter p l = [].
Proof.
  induction 1 as [|a l Ha _ IH]; cbn [List.filter]; [reflexivity|].
  rewrite Ha. exact IH.
Qed.

Lemma filter_perm_length {A} (p : A -> bool) (l l' : list A) :
  Permutation l l' -> length (List.filter p l) = length (List.filter p l').
Proof.
  intros Hperm. induction Hperm as [|x l l' _ IH|x y l|l l' l'' _ IH1 _ IH2].
  - reflexivity.
  - cbn [List.filter]. destruct (p x); cbn [length]; congruence.
  - cbn [List.filter]. destruct (p x), (p y); reflexivity.
  - congruence.
Qed.

(** In a list where [p] holds on a prefix only, the elements at the even
    offsets hold the larger half of those that satisfy [p], and the
    elements at the odd offsets the smaller half. *)
Lemma every_other_count {A} (p : A -> bool) (l : list A) :
  StronglySorted (fun a b => p b = true -> p a = true) l ->
  Z.of_nat (length (List.filter p (every_other l)))
  = (Z.of_nat (length (List.filter p l)) + 1) / 2
  /\ Z.of_nat (length (List.filter p (every_other (tail l))))
     = Z.of_nat (length (List.filter p l)) / 2.
Proof.
  assert (Hnone : forall a (l : list A),
             p a = false ->
             Forall (fun b => p b = true -> p a = true) l ->
             Forall (fun b => p b = false) l).
  { intros a l0 Ha Hall. eapply Forall_impl; [|exact Hall].
    cbn. intros b Hb. destruct (p b); [|reflexivity].
    rewrite <- Ha. symmetry. apply Hb. reflexivity. }
  assert (Heven : forall l : list A,
             (StronglySorted (fun a b => p b = true -> p a = true) l ->
              Z.of_nat (length (List.filter p (every_other l)))
              = (Z.of_nat (length (List.filter p l)) + 1) / 2)
             /\ forall x,
                 StronglySorted (fun a b => p b = true -> p a = true) (x :: l) ->
                 Z.of_nat (length (List.filter p (every_other (x :: l))))
                 = (Z.of_nat (length (List.filter p (x :: l))) + 1) / 2).
  { clear l. induction l as [|y l [IH1 IH2]]; split.
    - intros _. reflexivity.
    - intros x _. cbn. destruct (p x); reflexivity.
    - apply IH2.
    - intros x Hs. cbn [every_other].
      inversion Hs as [|? ? Hs' Hx]; subst.
      inversion Hs' as [|? ? Hs'' Hy]; subst.
      specialize (IH1 Hs'').
      assert (Hyl : p y = false -> List.filter p l = [])
        by (intros Hpy; apply filter_none, (Hnone y); assumption).
      assert (Hxl : p x = false -> List.filter p (y :: l) = [])
        by (intros Hpx; apply filter_none, (Hnone x); assumption).
      clear Hs Hs' Hx Hy.
      cbn [List.filter] in Hxl |- *.
      destruct (p x) eqn:Hpx.
      + destruct (p y) eqn:Hpy.
        * cbn [length]. rewrite !Nat2Z.inj_succ, IH1.
          Z.div_mod_to_equations. lia.
        * rewrite (Hyl eq_refl) in IH1 |- *.
          cbn [length] in IH1 |- *. rewrite Nat2Z.inj_succ, IH1. reflexivity.
      + specialize (Hxl eq_refl).
        destruct (p y) eqn:Hpy; [discriminate|].
        rewrite Hxl in IH1 |- *. exact IH1. }
  intros Hs. split; [apply Heven, Hs|].
  destruct l as [|a l]; [reflexivity|]. cbn [tail List.filter].
  inversion Hs as [|? ? Hs' Ha]; subst.
  rewrite (proj1 (Heven l) Hs').
  assert (Hal : p a = false -> List.filter p l = [])
    by (intros Hpa; apply filter_none, (Hnone a); assumption).
  clear Hs Ha.
  destruct (p a) eqn:Hpa.
  - cbn [length]. rewrite Nat2Z.inj_succ. f_equal; lia.
  - rewrite (Hal eq_refl). reflexivity.
Qed.

Lemma every_other_cosets {A} (l : list A) :
  Permutation (every_other l ++ every_other (tail l)) l.
Proof.
  enough (H : forall l : list A,
             Permutation (every_other l ++ every_other (tail l)) l
             /\ forall x, Permutation (every_other (x :: l) ++ every_other l)
                            (x :: l))
    by apply H.
  clear l. induction l as [|y l [IH1 IH2]]; split.
  - reflexivity.
  - intros x. reflexivity.
  - apply IH2.
  - intros x. cbn [every_other app]. apply perm_skip.
    rewrite Permutation_app_comm. apply IH2.
Qed.

Lemma drop_succ_tail {A} (l : list A) n : drop (S n) l = tail (drop n l).
Proof.
  revert l. induction n as [|n IH]; intros l.
  - destruct l; reflexivity.
  - destruct l as [|a l]; [reflexivity|]. cbn [drop]. apply IH.
Qed.

Section RankError.
Context {T : Type}.
Variable T_lt : T -> T -> bool.
Variable rest_order : list T -> list T -> list T.
Hypothesis rest_order_perm :
  forall buf rest, Permutation (rest_order buf rest) rest.

(** The number of items of [l] that are less than [x]. *)
Abbreviation below x l :=
  (Z.of_nat (length (List.filter (fun t : T => T_lt t x) l))).

Lemma below_app x (l l' : list T) :
  below x (l ++ l') = below x l + below x l'.
Proof. rewrite List.filter_app, length_app. lia. Qed.

Lemma ascending_below_closed x (l : list T) :
  (forall a b c, T_lt a b = true -> T_lt a c = true \/ T_lt c b = true) ->
  ascending T_lt l ->
  StronglySorted (fun a b => T_lt b x = true -> T_lt a x = true) l.
Proof.
  intros Hcotrans. unfold ascending. induction 1 as [|a l _ IH Ha].
  - constructor.
  - constructor; [exact IH|].
    eapply Forall_impl; [|exact Ha]. cbn. intros b Hba Hbx.
    destruct (Hcotrans _ _ a Hbx) as [H|H]; [congruence|exact H].
Qed.

Lemma start_index_coset (even : bool) S :
  0 <= S -> S + 1 < 2 ^ 64 -> Z.even S = true ->
  Z.to_nat (Compactor.start_index even S)
  = if even then Z.to_nat S else Datatypes.S (Z.to_nat S).
Proof.
  intros H0 H1 Heven. unfold Compactor.start_index.
  rewrite Zeven_mod in Heven. rewrite Heven.
  destruct even; cbn [negb andb]; [reflexivity|].
  rewrite wrap64_small by lia. lia.
Qed.

Lemma compacted_even (c : Compactor.t T) :
  Z.even (Compactor.max_buffer_size c) = true ->
  Z.even (Compactor.k c) = true ->
  Compactor.elements_to_compact c <= Compactor.max_buffer_size c ->
  Z.even (Compactor.max_buffer_size c - Compactor.elements_to_compact c) = true.
Proof.
  intros Hmax Hk Hfit.
  pose proof (elements_to_compact_even c Hk) as Hetc.
  rewrite Z.even_sub, Hmax, Hetc. reflexivity.
Qed.

(** The count of the items below [x] across a compaction of at most half
    of the buffer, with each promoted item counted twice: the [r] items of
    the compacted tail that are below [x] are replaced by twice the larger
    or twice the smaller half of them. *)
Lemma compaction_below (c : Compactor.t T) element coins x :
  (forall a, T_lt a a = false) ->
  (forall a b d, T_lt a b = true -> T_lt b d = true -> T_lt a d = true) ->
  (forall a b d, T_lt a b = true -> T_lt a d = true \/ T_lt d b = true) ->
  uint64 (Compactor.max_buffer_size c) ->
  Z.of_nat (length (Compactor.buffer c)) = Compactor.max_buffer_size c ->
  2 * Compactor.elements_to_compact c <= Compactor.max_buffer_size c ->
  Compactor.max_buffer_size c - Compactor.elements_to_compact c
    < vector_max_size ->
  Z.even (Compactor.max_buffer_size c) = true ->
  Z.even (Compactor.k c) = true ->
  exists c' output r,
    Compactor.Insert T_lt rest_order c element coins
      = Returns (c', output, stail coins)
    /\ 0 <= r
    /\ below x (Compactor.buffer c') + 2 * below x output
       = below x (Compactor.buffer c ++ [element]) - r
         + 2 * (if shead coins then (r + 1) / 2 else r / 2).
Proof.
  intros Hirrefl Htrans Hcotrans Hmax Hfull Hhalf Hvec Hemax Hek.
  pose proof (elements_to_compact_range (T:=T) c) as Hetc.
  set (S := Compactor.max_buffer_size c - Compactor.elements_to_compact c).
  set (sorted := std_sort T_lt (Compactor.buffer c)).
  exists (Compactor.set_C
            (Compactor.set_buffer c
               (take (Z.to_nat S)
                  (Compactor.partial_sort_back T_lt rest_order (Z.to_nat S)
                     (Compactor.buffer c))
                ++ [element]))
            (wrap64 (Compactor.C c + 1))),
    (every_other
       (drop (Z.to_nat (Compactor.start_index (shead coins) S)) sorted)),
    (below x (drop (Z.to_nat S) sorted)).
  split;
    [apply (Insert_at_sorted T_lt rest_order rest_order_perm); assumption|].
  split; [lia|].
  cbn [Compactor.buffer Compactor.set_C Compactor.set_buffer].
  assert (HS : 0 <= S /\ S + 1 < 2 ^ 64)
    by (unfold S, uint64, vector_max_size in *; lia).
  rewrite start_index_coset;
    [|apply HS|apply HS
     |apply compacted_even; [assumption|assumption|unfold uint64 in *; lia]].
  rewrite !below_app.
  assert (Hkept : below x (take (Z.to_nat S)
                     (Compactor.partial_sort_back T_lt rest_order (Z.to_nat S)
                        (Compactor.buffer c)))
                  = below x (take (Z.to_nat S) sorted)).
  { f_equal. apply filter_perm_length.
    apply take_partial_sort_back; [exact rest_order_perm|].
    unfold S, uint64 in *. lia. }
  assert (Hbuf : below x (Compactor.buffer c)
                 = below x (take (Z.to_nat S) sorted)
                   + below x (drop (Z.to_nat S) sorted)).
  { rewrite <- below_app, take_drop. f_equal.
    apply filter_perm_length. symmetry. apply std_sort_perm. }
  rewrite Hkept, Hbuf.
  assert (Hclosed : StronglySorted
                      (fun a b => T_lt b x = true -> T_lt a x = true)
                      (drop (Z.to_nat S) sorted)).
  { apply ascending_below_closed; [exact Hcotrans|].
    apply ascending_drop, std_sort_ascending; assumption. }
  destruct (every_other_count (fun t => T_lt t x) _ Hclosed) as [Heven Hodd].
  destruct (shead coins).
  - rewrite Heven. lia.
  - rewrite drop_succ_tail, Hodd. lia.
Qed.

(** X21. One compaction moves a rank by at most one item of its level.
    When a full buffer with an even capacity and an even section size is
    compacted and the compaction takes at most half of it, then for every
    query [x] the number of items below [x], counting each promoted item
    twice, is after the [Insert] what it was before or one more when the
    coin shows heads, and what it was before or one less when it shows
    tails. *)
Theorem compaction_rank_error (c : Compactor.t T) element coins x :
  (forall a, T_lt a a = false) ->
  (forall a b d, T_lt a b = true -> T_lt b d = true -> T_lt a d = true) ->
  (forall a b d, T_lt a b = true -> T_lt a d = true \/ T_lt d b = true) ->
  uint64 (Compactor.max_buffer_size c) ->
  Z.of_nat (length (Compactor.buffer c)) = Compactor.max_buffer_size c ->
  2 * Compactor.elements_to_compact c <= Compactor.max_buffer_size c ->
  Compactor.max_buffer_size c - Compactor.elements_to_compact c
    < vector_max_size ->
  Z.even (Compactor.max_buffer_size c) = true ->
  Z.even (Compactor.k c) = true ->
  exists c' output,
    Compactor.Insert T_lt rest_order c element coins
      = Returns (c', output, stail coins)
    /\ let before := below x (Compactor.buffer c ++ [element]) in
       let after := below x (Compactor.buffer c') + 2 * below x output in
       if shead coins then before <= after <= before + 1
       else before - 1 <= after <= before.
Proof.
  intros Hirrefl Htrans Hcotrans Hmax Hfull Hhalf Hvec Hemax Hek.
  destruct (compaction_below c element coins x Hirrefl Htrans Hcotrans Hmax
              Hfull Hhalf Hvec Hemax Hek) as (c' & output & r & Hrun & Hr & Hcount).
  exists c', output. split; [exact Hrun|].
  cbv zeta. rewrite Hcount.
  destruct (shead coins); Z.div_mod_to_equations; lia.
Qed.

(** X22. The coin makes a compaction unbiased. Under the same conditions
    the kept buffer does not depend on the coin, every compacted item is
    promoted under exactly one of the two outcomes, and for every query
    [x] the number of items below [x], counting each promoted item twice,
    averaged over heads and tails, is exactly what it was before the
    [Insert]. *)
Theorem compaction_unbiased (c : Compactor.t T) element :
  uint64 (Compactor.max_buffer_size c) ->
  Z.of_nat (length (Compactor.buffer c)) = Compactor.max_buffer_size c ->
  2 * Compactor.elements_to_compact c <= Compactor.max_buffer_size c ->
  Compactor.max_buffer_size c - Compactor.elements_to_compact c
    < vector_max_size ->
  Z.even (Compactor.max_buffer_size c) = true ->
  Z.even (Compactor.k c) = true ->
  let S := Compactor.max_buffer_size c - Compactor.elements_to_compact c in
  exists c' heads tails,
    (forall coins, shead coins = true ->
       Compactor.Insert T_lt rest_order c element coins
       = Returns (c', heads, stail coins))
    /\ (forall coins, shead coins = false ->
          Compactor.Insert T_lt rest_order c element coins
          = Returns (c', tails, stail coins))
    /\ Permutation (heads ++ tails)
         (drop (Z.to_nat S) (std_sort T_lt (Compactor.buffer c)))
    /\ forall x,
         (below x (Compactor.buffer c') + 2 * below x heads)
         + (below x (Compactor.buffer c') + 2 * below x tails)
         = 2 * below x (Compactor.buffer c ++ [element]).
Proof.
  intros Hmax Hfull Hhalf Hvec Hemax Hek S.
  pose proof (elements_to_compact_range (T:=T) c) as Hetc.
  set (sorted := std_sort T_lt (Compactor.buffer c)).
  assert (HS : 0 <= S /\ S + 1 < 2 ^ 64)
    by (unfold S, uint64, vector_max_size in *; lia).
  assert (HSeven : Z.even S = true)
    by (apply compacted_even; [assumption|assumption|unfold uint64 in *; lia]).
  assert (Hcosets : Permutation
                      (every_other (drop (Z.to_nat S) sorted)
                       ++ every_other (drop (Datatypes.S (Z.to_nat S)) sorted))
                      (drop (Z.to_nat S) sorted)).
  { rewrite drop_succ_tail. apply every_other_cosets. }
  exists (Compactor.set_C
            (Compactor.set_buffer c
               (take (Z.to_nat S)
                  (Compactor.partial_sort_back T_lt rest_order (Z.to_nat S)
                     (Compactor.buffer c))
                ++ [element]))
            (wrap64 (Compactor.C c + 1))),
    (every_other (drop (Z.to_nat S) sorted)),
    (every_other (drop (Datatypes.S (Z.to_nat S)) sorted)).
  split; [|split; [|split]].
  - intros coins Hcoin.
    rewrite (Insert_at_sorted T_lt rest_order rest_order_perm c element coins)
      by assumption.
    fold S sorted. rewrite start_index_coset by (apply HS || exact HSeven).
    rewrite Hcoin. reflexivity.
  - intros coins Hcoin.
    rewrite (Insert_at_sorted T_lt rest_order rest_order_perm c element coins)
      by assumption.
    fold S sorted. rewrite start_index_coset by (apply HS || exact HSeven).
    rewrite Hcoin. reflexivity.
  - exact Hcosets.
  - intros x.
    cbn [Compactor.buffer Compactor.set_C Compactor.set_buffer].
    rewrite !below_app.
    assert (Hkept : below x (take (Z.to_nat S)
                       (Compactor.partial_sort_back T_lt rest_order (Z.to_nat S)
                          (Compactor.buffer c)))
                    = below x (take (Z.to_nat S) sorted)).
    { f_equal. apply filter_perm_length.
      apply take_partial_sort_back; [exact rest_order_perm|].
      unfold S, uint64 in *. lia. }
    assert (Hbuf : below x (Compactor.buffer c)
                   = below x (take (Z.to_nat S) sorted)
                     + below x (drop (Z.to_nat S) sorted)).
    { rewrite <- below_app, take_drop. f_equal.
      apply filter_perm_length. symmetry. apply std_sort_perm. }
    assert (Hsum : below x (every_other (drop (Z.to_nat S) sorted))
                   + below x (every_other
                                (drop (Datatypes.S (Z.to_nat S)) sorted))
                   = below x (drop (Z.to_nat S) sorted)).
    { rewrite <- below_app. f_equal. apply filter_perm_length, Hcosets. }
    rewrite Hkept, Hbuf. lia.
Qed.

End RankError.

(** * The rank error of a sketch *)

Lemma level_sum_app {T} b f h (cs cs' : list (Compactor.t T)) :
  level_sum b f h (cs ++ cs')
  = level_sum b f h cs + level_sum b f (h + Z.of_nat (length cs)) cs'.
Proof.
  revert h. induction cs as [|c cs IH]; intros h; cbn [level_sum app length].
  - rewrite Z.add_0_r. reflexivity.
  - rewrite IH. replace (h + 1 + Z.of_nat (length cs))
      with (h + Z.of_nat (S (length cs))) by lia. lia.
Qed.

Lemma level_sum_insert {T} b f h (cs : list (Compactor.t T)) i c c' :
  cs !! i = Some c ->
  level_sum b f h (<[i:=c']> cs)
  = level_sum b f h cs + b ^ (h + Z.of_nat i) * (f c' - f c).
Proof.
  revert h i. induction cs as [|c0 cs IH]; intros h i Hi.
  - discriminate.
  - destruct i as [|i]; cbn in Hi |- *.
    + injection Hi as ->. rewrite Z.add_0_r. lia.
    + rewrite (IH _ _ Hi).
      replace (h + 1 + Z.of_nat i) with (h + Z.pos (Pos.of_succ_nat i)) by lia.
      lia.
Qed.

Lemma level_sum_nonneg {T} f h (cs : list (Compactor.t T)) :
  0 <= h -> Forall (fun c => 0 <= f c) cs -> 0 <= level_sum 1 f h cs.
Proof.
  intros Hh Hpos. revert h Hh. induction Hpos as [|c0 cs Hc0 _ IH]; intros h Hh.
  - reflexivity.
  - cbn [level_sum]. rewrite Z.pow_1_l by exact Hh.
    specialize (IH (h + 1) ltac:(lia)). lia.
Qed.

Lemma level_sum_lookup_le {T} f h (cs : list (Compactor.t T)) i c :
  0 <= h -> Forall (fun c => 0 <= f c) cs ->
  cs !! i = Some c -> f c <= level_sum 1 f h cs.
Proof.
  intros Hh Hpos. revert h Hh i. induction Hpos as [|c0 cs Hc0 Hcs IH];
    intros h Hh i Hi; [discriminate|].
  cbn [level_sum]. rewrite Z.pow_1_l by exact Hh.
  destruct i as [|i]; cbn in Hi.
  - injection Hi as ->.
    pose proof (level_sum_nonneg f (h + 1) cs ltac:(lia) Hcs). lia.
  - specialize (IH (h + 1) ltac:(lia) i Hi). lia.
Qed.

Lemma stored_weight_level_sum {T} (p : T -> bool) h (cs : list (Compactor.t T)) :
  stored_weight h
    (map (fun c => Compactor.set_buffer c (List.filter p (Compactor.buffer c)))
       cs)
  = level_sum 2
      (fun c => Z.of_nat (length (List.filter p (Compactor.buffer c)))) h cs.
Proof.
  revert h. induction cs as [|c cs IH]; intros h; cbn [map stored_weight level_sum].
  - reflexivity.
  - rewrite IH. reflexivity.
Qed.

Lemma wrap64_le z : 0 <= z -> wrap64 z <= z.
Proof. intros Hz. unfold wrap64. apply Z.mod_le; lia. Qed.

Lemma for_each_bound {A S : Type} (f : S -> A -> outcome S)
    (I : S -> Prop) (mu : S -> Z) :
  (forall s x s', I s -> f s x = Returns s' -> I s' /\ mu s' <= mu s + 1) ->
  forall l s s', I s -> for_each f l s = Returns s' ->
    I s' /\ mu s' <= mu s + Z.of_nat (length l).
Proof.
  intros Hstep l. induction l as [|x l IH]; intros s s' HI Hrun; cbn in Hrun.
  - injection Hrun as <-. split; [assumption|cbn; lia].
  - destruct (f s x) as [s1| |] eqn:Hf; cbn in Hrun; try discriminate.
    destruct (Hstep _ _ _ HI Hf) as [HI1 Hmu1].
    destruct (IH _ _ HI1 Hrun) as [HI' Hmu'].
    split; [assumption|]. cbn [length]. lia.
Qed.

Section RankErrorBound.
Context {T : Type}.
Variable T_lt : T -> T -> bool.
Variable log2_ceil : Z -> Z -> Z.
Variable rest_order : list T -> list T -> list T.
Hypothesis rest_order_perm :
  forall buf rest, Permutation (rest_order buf rest) rest.
Hypothesis T_lt_irrefl : forall a, T_lt a a = false.
Hypothesis T_lt_trans :
  forall a b c, T_lt a b = true -> T_lt b c = true -> T_lt a c = true.
Hypothesis T_lt_cotrans :
  forall a b c, T_lt a b = true -> T_lt a c = true \/ T_lt c b = true.
Variable options : RelativeErrorQuantilesSketch.RelativeErrorQuantilesSketchOptions.
Hypothesis k_positive : 0 < RelativeErrorQuantilesSketch.k options < 2 ^ 64.
Hypothesis k_even : Z.even (RelativeErrorQuantilesSketch.k options) = true.
Variable x : T.

Import RelativeErrorQuantilesSketch.

Abbreviation Sketch_Insert :=
  (RelativeErrorQuantilesSketch.Insert T_lt log2_ceil rest_order).
Abbreviation level := (level_ok (T:=T) log2_ceil options).
Abbreviation below l :=
  (Z.of_nat (length (List.filter (fun t : T => T_lt t x) l))).
(** The rank of [x] the buffers stand for, the weight of the compactions
    so far, and the number of items and compactions so far. *)
Abbreviation rank cs :=
  (level_sum 2 (fun c : Compactor.t T => below (Compactor.buffer c)) 0 cs).
Abbreviation compacted cs :=
  (level_sum 2 (Compactor.C (T:=T)) 0 cs).
Abbreviation crowd cs :=
  (level_sum 1
     (fun c : Compactor.t T =>
        Z.of_nat (length (Compactor.buffer c)) + Compactor.C c) 0 cs).

Lemma Compactor_Insert_crowd (c : Compactor.t T) element coins c' output coins' :
  level c ->
  Compactor.Insert T_lt rest_order c element coins
    = Returns (c', output, coins') ->
  Z.of_nat (length (Compactor.buffer c')) + Compactor.C c'
    + Z.of_nat (length output)
  <= Z.of_nat (length (Compactor.buffer c)) + Compactor.C c + 1.
Proof.
  intros (Hinv & Heven & _) Hrun.
  pose proof Hinv as ((_ & HC & _) & _).
  destruct Heven as (Hmax & Hek & Hemax).
  destruct (Insert_inv _ _ _ _ _ _ _ _ Hrun)
    as [(_ & _ & -> & -> & _)|(Hfull & c1 & Hc1 & _ & ->)];
    cbn [Compactor.buffer Compactor.C Compactor.set_buffer length].
  - rewrite length_app. cbn [length]. lia.
  - pose proof (elements_to_compact_pos log2_ceil c Hinv Hfull) as Hpos.
    pose proof (elements_to_compact_even c Hek) as Hetc.
    destruct (compact_inv T_lt rest_order rest_order_perm c coins c1 output
                coins' Hmax Hfull Hc1)
      as (Hfit & _ & _ & _ & _ & HC1 & Hlen1 & Hout & _).
    rewrite start_index_half in Hout by assumption.
    rewrite length_app. cbn [length].
    pose proof (wrap64_le (Compactor.C c + 1)) as Hwrap.
    unfold uint64 in HC.
    rewrite Zeven_mod in Hetc. apply Z.eqb_eq in Hetc.
    rewrite HC1, Hout.
    revert Hlen1 Hpos Hetc Hwrap Hfit.
    generalize (Compactor.elements_to_compact c).
    intros etc Hlen1 Hpos Hetc Hwrap Hfit.
    Z.div_mod_to_equations. lia.
Qed.

Lemma ensure_level_sums (s s1 : t T) h b f :
  (forall k n h', f (Compactor.new (T:=T) log2_ceil k n h') = 0) ->
  ensure_level log2_ceil s h = Returns s1 ->
  level_sum b f 0 (compactors_ s1) = level_sum b f 0 (compactors_ s).
Proof.
  intros Hnew Hrun. unfold ensure_level, push_back in Hrun.
  destruct (H_ s <? h).
  - destruct (_ <? vector_max_size); cbn [bind] in Hrun; [|discriminate].
    injection Hrun as <-. cbn [compactors_ set_compactors].
    rewrite level_sum_app. cbn [level_sum]. rewrite Hnew. lia.
  - injection Hrun as <-. reflexivity.
Qed.

Lemma ensure_level_halved (s s1 : t T) h :
  ensure_level log2_ceil s h = Returns s1 ->
  Forall schedule_halved (compactors_ s1) ->
  Forall schedule_halved (compactors_ s).
Proof.
  intros Hrun. unfold ensure_level, push_back in Hrun.
  destruct (H_ s <? h).
  - destruct (_ <? vector_max_size); cbn [bind] in Hrun; [|discriminate].
    injection Hrun as <-. cbn [compactors_ set_compactors].
    intros Hall. apply Forall_app in Hall. apply Hall.
  - injection Hrun as <-. auto.
Qed.

Lemma level_sketch_insert (s1 : t T) h c c' :
  sketch_inv level options s1 ->
  compactors_ s1 !! Z.to_nat h = Some c ->
  level c' ->
  sketch_inv level options
    (set_compactors s1 (H_ s1) (<[Z.to_nat h := c']> (compactors_ s1))).
Proof.
  intros (Hopt & HH & Hlen & Hvec & HP) Hc Hc'.
  unfold sketch_inv. cbn. rewrite length_insert.
  split; [assumption|]. split; [assumption|]. split; [assumption|].
  split; [assumption|]. apply Forall_insert; assumption.
Qed.

Lemma crowd_terms (cs : list (Compactor.t T)) :
  Forall level cs ->
  Forall (fun c => 0 <= Z.of_nat (length (Compactor.buffer c)) + Compactor.C c)
    cs.
Proof.
  intros Hall. eapply Forall_impl; [|exact Hall].
  cbn. intros c (((_ & HC & _) & _) & _). unfold uint64 in HC. lia.
Qed.

(** Items and compactions: an insertion adds at most one to their number. *)
Lemma Insert_crowd fuel :
  forall (s : t T) element h coins s' coins',
    sketch_inv level options s -> 0 <= h ->
    Sketch_Insert fuel s element h coins = Returns (s', coins') ->
    sketch_inv level options s'
    /\ crowd (compactors_ s') <= crowd (compactors_ s) + 1.
Proof.
  induction fuel as [|fuel IH]; intros s element h coins s' coins'
    Hinv Hh Hrun; [discriminate|].
  apply Insert_S_inv in Hrun.
  destruct Hrun as (s1 & c & c' & output & coins1 & He & Hc & Hins & Hfor).
  destruct (ensure_level_inv log2_ceil level options
              (new_level_ok log2_ceil options k_positive k_even)
              _ _ _ _ Hinv Hh He Hc) as (Hinv1 & Hle & _).
  pose proof Hinv1 as (Hopt & HH & Hlen & Hvec & HP).
  assert (HPc : level c) by (rewrite Forall_lookup in HP; apply (HP _ _ Hc)).
  destruct (Insert_level_ok T_lt log2_ceil rest_order rest_order_perm options
              _ _ _ _ _ _ HPc I Hins) as [HPc' _].
  pose proof (Compactor_Insert_crowd _ _ _ _ _ _ HPc Hins) as Hcrowd.
  pose proof (level_sketch_insert s1 h c c' Hinv1 Hc HPc') as Hinv2.
  apply (for_each_bound _
           (fun st => sketch_inv level options (fst st))
           (fun st => crowd (compactors_ (fst st)))) in Hfor.
  - cbn [fst compactors_ set_compactors] in Hfor.
    destruct Hfor as [Hinv' Hle']. split; [exact Hinv'|].
    rewrite (level_sum_insert _ _ _ _ _ _ c' Hc) in Hle'.
    rewrite Z.pow_1_l in Hle' by lia.
    rewrite <- (ensure_level_sums s s1 h 1 _ (fun _ _ _ => eq_refl) He).
    lia.
  - intros [s2 coins2] y [s3 coins3] Hinv3 Hstep. cbn [fst snd] in *.
    apply IH in Hstep; [exact Hstep|exact Hinv3|apply wrap64_range].
  - exact Hinv2.
Qed.

(** What one [Compactor::Insert] does to the rank of [x], when its
    compaction, if any, took at most half of the buffer. *)
Lemma Compactor_Insert_drift (c : Compactor.t T) element coins c' output coins' :
  level c ->
  Compactor.Insert T_lt rest_order c element coins
    = Returns (c', output, coins') ->
  Compactor.C c + 1 < 2 ^ 64 ->
  schedule_halved c' ->
  schedule_halved c
  /\ Z.abs (below (Compactor.buffer c') + 2 * below output
            - below (Compactor.buffer c) - below [element])
     <= Compactor.C c' - Compactor.C c.
Proof.
  intros (Hinv & Heven & _) Hrun Hnowrap Hhalved.
  pose proof Hinv as ((_ & HC & _) & _).
  destruct Heven as (Hmax & Hek & Hemax).
  destruct (Insert_inv _ _ _ _ _ _ _ _ Hrun)
    as [(_ & _ & Hc' & -> & _)|(Hfull & c1 & Hc1 & Hvec & Hc')].
  - subst c'. split; [exact Hhalved|].
    cbn [Compactor.buffer Compactor.C Compactor.set_buffer].
    rewrite List.filter_app, length_app. cbn [List.filter length]. lia.
  - destruct (compact_inv T_lt rest_order rest_order_perm c coins c1 output
                coins' Hmax Hfull Hc1)
      as (Hfit & _ & Hk1 & Hmax1 & _ & HC1 & Hlen1 & _ & Hcoins).
    unfold uint64 in HC. rewrite wrap64_small in HC1 by lia.
    assert (HC' : Compactor.C c' = Compactor.C c + 1)
      by (subst c'; exact HC1).
    assert (Hk' : Compactor.k c' = Compactor.k c) by (subst c'; exact Hk1).
    assert (Hmax' : Compactor.max_buffer_size c' = Compactor.max_buffer_size c)
      by (subst c'; exact Hmax1).
    assert (Hhalf : 2 * Compactor.elements_to_compact c
                    <= Compactor.max_buffer_size c).
    { specialize (Hhalved (Compactor.C c) ltac:(lia)).
      rewrite Hk', Hmax' in Hhalved. exact Hhalved. }
    split.
    + intros C' HC0. specialize (Hhalved C' ltac:(lia)).
      rewrite Hk', Hmax' in Hhalved. exact Hhalved.
    + destruct (compaction_below T_lt rest_order rest_order_perm c element
                  coins x T_lt_irrefl T_lt_trans T_lt_cotrans Hmax Hfull Hhalf
                  ltac:(lia) Hemax Hek)
        as (c'' & output'' & r & Hrun' & Hr & Hcount).
      rewrite Hrun in Hrun'. injection Hrun' as <- <- _.
      rewrite Hcount, HC'.
      rewrite List.filter_app, length_app.
      destruct (shead coins); Z.div_mod_to_equations; lia.
Qed.

(** The insertions of a list at one level, given what one of them does. *)
Lemma for_each_drift fuel h :
  0 <= h ->
  (forall (s : t T) element coins s' coins',
      sketch_inv level options s ->
      crowd (compactors_ s) < 2 ^ 64 - 2 ->
      Sketch_Insert fuel s element h coins = Returns (s', coins') ->
      Forall schedule_halved (compactors_ s') ->
      Forall schedule_halved (compactors_ s)
      /\ Z.abs (rank (compactors_ s') - rank (compactors_ s)
                - 2 ^ h * below [element])
         <= compacted (compactors_ s') - compacted (compactors_ s)) ->
  forall l (s : t T) coins s' coins',
    sketch_inv level options s ->
    crowd (compactors_ s) + Z.of_nat (length l) < 2 ^ 64 - 1 ->
    for_each (fun st y => Sketch_Insert fuel (fst st) y h (snd st)) l (s, coins)
      = Returns (s', coins') ->
    Forall schedule_halved (compactors_ s') ->
    Forall schedule_halved (compactors_ s)
    /\ Z.abs (rank (compactors_ s') - rank (compactors_ s) - 2 ^ h * below l)
       <= compacted (compactors_ s') - compacted (compactors_ s).
Proof.
  intros Hh Hstep l. induction l as [|y l IH]; intros s coins s' coins'
    Hinv Hcrowd Hrun Hhalved; cbn [for_each] in Hrun.
  - injection Hrun as <- <-. split; [exact Hhalved|].
    cbn [List.filter length]. lia.
  - cbn [fst snd] in Hrun.
    destruct (Sketch_Insert fuel s y h coins) as [[s1 coins1]| |] eqn:Hy;
      cbn [bind] in Hrun; try discriminate.
    cbn [length] in Hcrowd.
    destruct (Insert_crowd fuel s y h coins s1 coins1 Hinv Hh Hy)
      as [Hinv1 Hcrowd1].
    destruct (IH s1 coins1 s' coins' Hinv1 ltac:(lia) Hrun Hhalved)
      as [Hhalved1 Hdrift1].
    destruct (Hstep s y coins s1 coins1 Hinv ltac:(lia) Hy Hhalved1)
      as [Hhalved0 Hdrift0].
    split; [exact Hhalved0|].
    change (y :: l) with ([y] ++ l).
    rewrite List.filter_app, length_app, Nat2Z.inj_add.
    revert Hdrift0 Hdrift1. generalize (2 ^ h). intros p Hdrift0 Hdrift1.
    lia.
Qed.

(** An insertion at level [h] moves the rank the buffers stand for by the
    rank of the item, up to the weight of the compactions it sets off. *)
Lemma Insert_drift fuel :
  forall h (s : t T) element coins s' coins',
    0 <= h ->
    sketch_inv level options s ->
    crowd (compactors_ s) < 2 ^ 64 - 2 ->
    Sketch_Insert fuel s element h coins = Returns (s', coins') ->
    Forall schedule_halved (compactors_ s') ->
    Forall schedule_halved (compactors_ s)
    /\ Z.abs (rank (compactors_ s') - rank (compactors_ s)
              - 2 ^ h * below [element])
       <= compacted (compactors_ s') - compacted (compactors_ s).
Proof.
  induction fuel as [|fuel IH]; intros h s element coins s' coins'
    Hh Hinv Hcrowd Hrun Hhalved; [discriminate|].
  apply Insert_S_inv in Hrun.
  destruct Hrun as (s1 & c & c' & output & coins1 & He & Hc & Hins & Hfor).
  destruct (ensure_level_inv log2_ceil level options
              (new_level_ok log2_ceil options k_positive k_even)
              _ _ _ _ Hinv Hh He Hc) as (Hinv1 & Hle & _).
  pose proof Hinv1 as (Hopt & HH & Hlen & Hvec & HP).
  assert (HPc : level c) by (rewrite Forall_lookup in HP; apply (HP _ _ Hc)).
  destruct (Insert_level_ok T_lt log2_ceil rest_order rest_order_perm options
              _ _ _ _ _ _ HPc I Hins) as [HPc' _].
  pose proof (Compactor_Insert_crowd _ _ _ _ _ _ HPc Hins) as Hcrowdc.
  pose proof (level_sketch_insert s1 h c c' Hinv1 Hc HPc') as Hinv2.
  pose proof (ensure_level_sums s s1 h 1
                (fun c : Compactor.t T =>
                   Z.of_nat (length (Compactor.buffer c)) + Compactor.C c)
                (fun _ _ _ => eq_refl) He) as Hcrowd1.
  pose proof (ensure_level_sums s s1 h 2
                (fun c => below (Compactor.buffer c)) (fun _ _ _ => eq_refl) He)
    as Hrank1.
  pose proof (ensure_level_sums s s1 h 2 (Compactor.C (T:=T))
                (fun _ _ _ => eq_refl) He) as Hcompacted1.
  assert (Hnext : wrap64 (h + 1) = h + 1).
  { apply wrap64_small. unfold vector_max_size in Hvec. lia. }
  rewrite Hnext in Hfor.
  set (s2 := set_compactors s1 (H_ s1) (<[Z.to_nat h := c']> (compactors_ s1)))
    in *.
  assert (Hcrowd2 : crowd (compactors_ s2) + Z.of_nat (length output)
                    <= crowd (compactors_ s) + 1).
  { unfold s2. cbn [compactors_ set_compactors].
    rewrite (level_sum_insert _ _ _ _ _ _ c' Hc), Z.pow_1_l by lia.
    rewrite <- Hcrowd1. lia. }
  destruct (for_each_drift fuel (h + 1) ltac:(lia)
              (fun s0 e0 cn0 s0' cn0' => IH (h + 1) s0 e0 cn0 s0' cn0' ltac:(lia))
              output s2 coins1 s' coins' Hinv2 ltac:(lia) Hfor Hhalved)
    as [Hhalved2 Hdrift2].
  assert (Hnowrap : Compactor.C c + 1 < 2 ^ 64).
  { pose proof (level_sum_lookup_le
                  (fun c : Compactor.t T =>
                     Z.of_nat (length (Compactor.buffer c)) + Compactor.C c)
                  0 (compactors_ s1) (Z.to_nat h) c ltac:(lia)
                  (crowd_terms _ HP) Hc) as Hterm.
    rewrite Hcrowd1 in Hterm. lia. }
  assert (Hhalvedc' : schedule_halved c').
  { rewrite Forall_lookup in Hhalved2.
    apply (Hhalved2 (Z.to_nat h)). unfold s2. cbn [compactors_ set_compactors].
    apply list_lookup_insert_eq. eapply lookup_lt_Some. exact Hc. }
  destruct (Compactor_Insert_drift _ _ _ _ _ _ HPc Hins Hnowrap Hhalvedc')
    as [Hhalvedc Hdriftc].
  split.
  - apply (ensure_level_halved s s1 h He).
    replace (compactors_ s1)
      with (<[Z.to_nat h := c]> (compactors_ s2)).
    + apply Forall_insert; assumption.
    + unfold s2. cbn [compactors_ set_compactors].
      rewrite list_insert_insert_eq. apply list_insert_id. exact Hc.
  - unfold s2 in Hdrift2. cbn [compactors_ set_compactors] in Hdrift2.
    rewrite !(level_sum_insert _ _ _ _ _ _ c' Hc) in Hdrift2.
    rewrite Hrank1, Hcompacted1 in Hdrift2.
    rewrite Z.add_0_l, Z2Nat.id in Hdrift2 by lia.
    rewrite Z.pow_add_r in Hdrift2 by lia. change (2 ^ 1) with 2 in Hdrift2.
    assert (Hp : 0 <= 2 ^ h) by (apply Z.pow_nonneg; lia).
    revert Hdrift2 Hdriftc Hp. generalize (2 ^ h). intros p Hdrift2 Hdriftc Hp.
    assert (Hscaled :
              Z.abs (p * (below (Compactor.buffer c') + 2 * below output
                          - below (Compactor.buffer c) - below [element]))
              <= p * (Compactor.C c' - Compactor.C c)).
    { rewrite Z.abs_mul, (Z.abs_eq p) by exact Hp.
      apply Z.mul_le_mono_nonneg_l; assumption. }
    lia.
Qed.

End RankErrorBound.

Section RankErrorTheorem.
Context {T : Type}.
Variable T_lt : T -> T -> bool.
Variable T_empty : T -> bool.
Variable log2_ceil : Z -> Z -> Z.
Variable rest_order : list T -> list T -> list T.
Hypothesis rest_order_perm :
  forall buf rest, Permutation (rest_order buf rest) rest.
Hypothesis T_lt_irrefl : forall a, T_lt a a = false.
Hypothesis T_lt_trans :
  forall a b c, T_lt a b = true -> T_lt b c = true -> T_lt a c = true.
Hypothesis T_lt_cotrans :
  forall a b c, T_lt a b = true -> T_lt a c = true \/ T_lt c b = true.

Import RelativeErrorQuantilesSketch.

Lemma EstimateRank_level_sum (s s' : t T) x :
  weighted_elements_ s = [] ->
  Close T_lt T_empty s = Returns s' ->
  EstimateRank T_lt s' x
  = level_sum 2
      (fun c =>
         Z.of_nat (length (List.filter (fun t => T_lt t x) (Compactor.buffer c))))
      0 (compactors_ s).
Proof.
  intros Hempty Hclose.
  unfold EstimateRank. rewrite lower_bound_filter;
    [|exact T_lt_cotrans
     |apply (Close_ascending T_lt T_empty T_lt_irrefl T_lt_trans s); exact Hclose].
  pose proof (Close_perm _ _ _ _ Hclose) as Hp.
  rewrite Hempty in Hp. cbn [app] in Hp.
  rewrite (filter_perm_weight _ _ _ Hp).
  rewrite (filter_stored_elements (fun t => T_lt t x)).
  rewrite stored_elements_weight. apply stored_weight_level_sum.
Qed.

(** X23. The rank error of the sketch is at most the weight of its
    compactions. After any items have been inserted at level 0 into a
    fresh sketch with a positive even section size and the sketch has been
    closed, if every compaction took at most half of its buffer, then for
    every query [x] the estimated rank differs from the number of
    inserted items less than [x] by at most the sum over the levels of
    [2^level] times the number [C] of compactions of that level, whatever
    the coins showed. *)
Theorem rank_error_bound options fuel items coins (s : t T) coins' s' x :
  0 < k options < 2 ^ 64 -> Z.even (k options) = true ->
  Z.of_nat (length items) < 2 ^ 64 - 2 ->
  Insert_all T_lt log2_ceil rest_order fuel (new log2_ceil options) items coins
    = Returns (s, coins') ->
  Forall schedule_halved (compactors_ s) ->
  Close T_lt T_empty s = Returns s' ->
  Z.abs (EstimateRank T_lt s' x
         - Z.of_nat (length (List.filter (fun t => T_lt t x) items)))
  <= level_sum 2 Compactor.C 0 (compactors_ s).
Proof.
  intros Hk Heven Hlen Hrun Hhalved Hclose.
  destruct (sketch_reachable_unclosed T_lt log2_ceil rest_order options s)
    as [Hempty _].
  { eapply Insert_all_reachable; [apply sr_new|exact Hrun]. }
  rewrite (EstimateRank_level_sum s s' x Hempty Hclose).
  destruct (for_each_drift T_lt log2_ceil rest_order rest_order_perm options
              Hk Heven x fuel 0 (Z.le_refl 0)
              (fun s0 e0 cn0 s0' cn0' =>
                 Insert_drift T_lt log2_ceil rest_order rest_order_perm
                   T_lt_irrefl T_lt_trans T_lt_cotrans options Hk Heven x
                   fuel 0 s0 e0 cn0 s0' cn0' (Z.le_refl 0))
              items (new log2_ceil options) coins s coins')
    as [_ Hdrift].
  - apply new_sketch_inv. intros h. apply new_level_ok; assumption.
  - cbn. lia.
  - exact Hrun.
  - exact Hhalved.
  - cbn [new compactors_ level_sum Compactor.buffer Compactor.C Compactor.new
           List.filter length] in Hdrift.
    change (2 ^ 0) with 1 in Hdrift. lia.
Qed.

End RankErrorTheorem.

(** X24. How long the schedule stays inside the sorted range. A compactor
    with [max_buffer_size = 2 * k * m] takes at most half of its buffer in
    each of its first [2^m - 1] compactions; the next one, at counter
    [2^m - 1], takes [m + 1] sections, more than half of the buffer, so
    that part of what it compacts lies outside the range
    [std::partial_sort] sorted. *)
Theorem schedule_halved_until {T} (c : Compactor.t T) m :
  0 < Compactor.k c -> 1 <= m < 64 ->
  Compactor.max_buffer_size c = 2 * Compactor.k c * m ->
  Compactor.max_buffer_size c < 2 ^ 63 ->
  (Compactor.C c <= 2 ^ m - 1 -> schedule_halved c)
  /\ Compactor.max_buffer_size c
     < 2 * Compactor.elements_to_compact_at (Compactor.k c) (2 ^ m - 1)
  /\ Compactor.sections_to_compact (2 ^ m - 1) = m + 1.
Proof.
  intros Hk Hm Hmax Hlt. split; [|split].
  - intros HC C' HC'.
    assert (HC64 : uint64 C').
    { unfold uint64. split; [lia|].
      assert (2 ^ m < 2 ^ 64) by (apply Z.pow_lt_mono_r; lia). lia. }
    destruct (sections_to_compact_spec _ HC64) as (t & Ht & _ & Hsec).
    pose proof (trailing_ones_lower _ _ (proj1 HC') Ht) as Hlow.
    assert (Ht0 : 0 <= t) by apply Ht.
    assert (Htm : t < m).
    { destruct (Z.lt_ge_cases t m) as [|Hge]; [assumption|exfalso].
      assert (2 ^ m <= 2 ^ t) by (apply Z.pow_le_mono_r; lia). lia. }
    unfold Compactor.elements_to_compact_at. rewrite Hsec, Hmax.
    rewrite wrap64_small; [nia|]. split; [nia|].
    assert ((t + 1) * Compactor.k c <= m * Compactor.k c) by nia. nia.
  - unfold Compactor.elements_to_compact_at.
    replace (2 ^ m - 1) with (Z.ones m) by (rewrite Z.ones_equiv; lia).
    rewrite sections_to_compact_ones by lia.
    rewrite Hmax in Hlt |- *.
    assert (Hkm : 0 <= Compactor.k c * m) by nia.
    rewrite wrap64_small; [lia|]. split; [nia|].
    replace (2 ^ 64) with (2 ^ 63 + 2 ^ 63) by reflexivity.
    assert (Compactor.k c <= Compactor.k c * m) by nia.
    lia.
  - replace (2 ^ m - 1) with (Z.ones m) by (rewrite Z.ones_equiv; lia).
    apply sections_to_compact_ones. lia.
Qed.

(** * The flow of items through the levels *)

(** A compactor of [m] sections takes at most half of its buffer in each
    of its first [2^m - 1] compactions. *)
Lemma schedule_halved_small {T} (c : Compactor.t T) m :
  0 < Compactor.k c -> 1 <= m < 64 ->
  Compactor.max_buffer_size c = 2 * Compactor.k c * m ->
  Compactor.max_buffer_size c < 2 ^ 63 ->
  Compactor.C c <= 2 ^ m - 1 -> schedule_halved c.
Proof.
  intros Hk Hm Hmax Hlt HC C' HC'.
  assert (HC64 : uint64 C').
  { unfold uint64. split; [lia|].
    assert (2 ^ m < 2 ^ 64) by (apply Z.pow_lt_mono_r; lia). lia. }
  destruct (sections_to_compact_spec _ HC64) as (t & Ht & _ & Hsec).
  pose proof (trailing_ones_lower _ _ (proj1 HC') Ht) as Hlow.
  assert (Ht0 : 0 <= t) by apply Ht.
  assert (Htm : t < m).
  { destruct (Z.lt_ge_cases t m) as [|Hge]; [assumption|exfalso].
    assert (2 ^ m <= 2 ^ t) by (apply Z.pow_le_mono_r; lia). lia. }
  unfold Compactor.elements_to_compact_at. rewrite Hsec, Hmax.
  rewrite wrap64_small; [nia|]. split; [nia|].
  assert ((t + 1) * Compactor.k c <= m * Compactor.k c) by nia. nia.
Qed.

Lemma compacted_upto_even k n :
  Z.even k = true -> Z.even (compacted_upto k n) = true.
Proof.
  intros Hk. induction n as [|n IH]; cbn [compacted_upto]; [reflexivity|].
  rewrite Z.even_add, IH.
  unfold Compactor.elements_to_compact_at.
  rewrite wrap64_even, Z.even_mul, Hk, orb_true_r. reflexivity.
Qed.

Lemma compacted_upto_nonneg k n : 0 <= compacted_upto k n.
Proof.
  induction n as [|n IH]; cbn [compacted_upto]; [lia|].
  pose proof (wrap64_range
                (Compactor.sections_to_compact (Z.of_nat n) * k)) as Hr.
  unfold Compactor.elements_to_compact_at. lia.
Qed.

Lemma net_inflow_new {T} (cs : list (Compactor.t T)) c0 i :
  received c0 = 0 -> promoted c0 = 0 ->
  net_inflow (cs ++ [c0]) i = net_inflow cs i.
Proof.
  intros Hr Hp. unfold net_inflow.
  assert (Hlook : forall j (f : Compactor.t T -> Z), f c0 = 0 ->
             match (cs ++ [c0]) !! j with Some c => f c | None => 0 end
             = match cs !! j with Some c => f c | None => 0 end).
  { intros j f Hf. destruct (Nat.lt_ge_cases j (length cs)) as [Hlt|Hge].
    - rewrite lookup_app_l by exact Hlt. reflexivity.
    - rewrite lookup_app_r by exact Hge.
      rewrite (lookup_ge_None_2 cs j) by exact Hge.
      destruct (j - length cs)%nat as [|j']; cbn; [exact Hf|].
      destruct j'; reflexivity. }
  rewrite (Hlook i received Hr).
  destruct i as [|j]; [reflexivity|].
  rewrite (Hlook j promoted Hp). reflexivity.
Qed.

Lemma net_inflow_insert {T} (cs : list (Compactor.t T)) h c c' p i :
  cs !! h = Some c ->
  received c' = received c + 1 ->
  promoted c' = promoted c + p ->
  net_inflow (<[h := c']> cs) i
  = net_inflow cs i
    + (if Nat.eqb i h then 1 else 0) - (if Nat.eqb i (S h) then p else 0).
Proof.
  intros Hc Hr Hp. unfold net_inflow.
  assert (Hlt : (h < length cs)%nat) by (eapply lookup_lt_Some; exact Hc).
  assert (Hlook : forall j (f : Compactor.t T -> Z) d, f c' = f c + d ->
             match <[h := c']> cs !! j with Some c => f c | None => 0 end
             = match cs !! j with Some c => f c | None => 0 end
               + (if Nat.eqb j h then d else 0)).
  { intros j f d Hf. destruct (Nat.eqb_spec j h) as [->|Hne].
    - rewrite list_lookup_insert_eq by exact Hlt. rewrite Hc. exact Hf.
    - rewrite list_lookup_insert_ne by congruence. lia. }
  rewrite (Hlook i received 1 Hr).
  destruct i as [|j].
  - cbn [Nat.eqb]. destruct h; lia.
  - rewrite (Hlook j promoted p Hp). cbn [Nat.eqb]. lia.
Qed.

Lemma received_nonneg {T} (c : Compactor.t T) : 0 <= received c.
Proof.
  unfold received.
  pose proof (compacted_upto_nonneg (Compactor.k c) (Z.to_nat (Compactor.C c))).
  lia.
Qed.

(** A compaction the buffer had room for takes at least one section: the
    product [sections * k] did not wrap around. *)
Lemma elements_to_compact_lower {T} (c : Compactor.t T) C' :
  0 < Compactor.k c < 2 ^ 64 -> uint64 (Compactor.C c) ->
  schedule_fitted c -> Compactor.max_buffer_size c <= vector_max_size ->
  0 <= C' < Compactor.C c ->
  Compactor.k c <= Compactor.elements_to_compact_at (Compactor.k c) C'.
Proof.
  intros Hk HC Hfit Hmax HC'. unfold uint64, vector_max_size in *.
  assert (HC64 : uint64 C') by (unfold uint64; lia).
  destruct (sections_to_compact_spec _ HC64) as (t & Ht & _ & Hsec).
  pose proof (trailing_ones_lower _ _ (proj1 HC') Ht) as Hlow.
  assert (Ht0 : 0 <= t) by apply Ht.
  assert (Hsteps : forall j : nat, Z.of_nat j <= t ->
             (Z.of_nat j + 1) * Compactor.k c <= Compactor.max_buffer_size c).
  { induction j as [|j IH]; intros Hj.
    - pose proof (Hfit 0 ltac:(lia)) as H0.
      unfold Compactor.elements_to_compact_at in H0.
      change 0 with (Z.ones 0) in H0 at 1.
      rewrite sections_to_compact_ones in H0 by lia.
      rewrite wrap64_small in H0 by lia. cbn [Z.of_nat]. lia.
    - specialize (IH ltac:(lia)).
      assert (Hle : 2 ^ Z.of_nat (S j) <= 2 ^ t)
        by (apply Z.pow_le_mono_r; lia).
      assert (Hones : 0 <= Z.ones (Z.of_nat (S j)) < Compactor.C c)
        by (rewrite Z.ones_equiv; lia).
      pose proof (Hfit _ Hones) as H1.
      unfold Compactor.elements_to_compact_at in H1.
      assert (Z.of_nat (S j) <= 64).
      { destruct (Z.le_gt_cases (Z.of_nat (S j)) 64) as [|Hgt]; [assumption|].
        assert (2 ^ 64 <= 2 ^ Z.of_nat (S j))
          by (apply Z.pow_le_mono_r; lia). lia. }
      rewrite sections_to_compact_ones in H1 by lia.
      rewrite wrap64_small in H1 by nia. lia. }
  specialize (Hsteps (Z.to_nat t) ltac:(lia)).
  rewrite Z2Nat.id in Hsteps by lia.
  unfold Compactor.elements_to_compact_at. rewrite Hsec.
  rewrite wrap64_small by nia. nia.
Qed.

(** So the compactions of a compactor took at least [k] elements each. *)
Lemma compacted_upto_lower {T} (c : Compactor.t T) :
  0 < Compactor.k c < 2 ^ 64 -> uint64 (Compactor.C c) ->
  schedule_fitted c -> Compactor.max_buffer_size c <= vector_max_size ->
  Compactor.k c * Compactor.C c
  <= compacted_upto (Compactor.k c) (Z.to_nat (Compactor.C c)).
Proof.
  intros Hk HC Hfit Hmax.
  assert (Hn : forall n : nat, Z.of_nat n <= Compactor.C c ->
             Compactor.k c * Z.of_nat n <= compacted_upto (Compactor.k c) n).
  { induction n as [|n IH]; intros Hle; cbn [compacted_upto]; [lia|].
    specialize (IH ltac:(lia)).
    pose proof (elements_to_compact_lower c (Z.of_nat n) Hk HC Hfit Hmax
                  ltac:(lia)).
    lia. }
  specialize (Hn (Z.to_nat (Compactor.C c))).
  unfold uint64 in HC. rewrite Z2Nat.id in Hn by lia. apply Hn. lia.
Qed.

(** [k] times the weighted sum of the counters, given a bound on each
    weighted counter. *)
Lemma level_sum_counters_le {T} kk N (cs : list (Compactor.t T)) :
  forall h, 0 <= h ->
  (forall i c, cs !! i = Some c ->
     2 ^ (h + Z.of_nat i) * (kk * Compactor.C c) <= N) ->
  kk * level_sum 2 Compactor.C h cs <= Z.of_nat (length cs) * N.
Proof.
  induction cs as [|c cs IH]; intros h Hh Hall; cbn [level_sum length].
  - lia.
  - pose proof (Hall 0%nat c eq_refl) as H0.
    rewrite Z.add_0_r in H0.
    specialize (IH (h + 1) ltac:(lia)).
    assert (Htail : kk * level_sum 2 Compactor.C (h + 1) cs
                    <= Z.of_nat (length cs) * N).
    { apply IH. intros i c' Hi.
      replace (h + 1 + Z.of_nat i) with (h + Z.of_nat (S i)) by lia.
      apply (Hall (S i) c' Hi). }
    lia.
Qed.

Section Flow.
Context {T : Type}.
Variable T_lt : T -> T -> bool.
Variable log2_ceil : Z -> Z -> Z.
Variable rest_order : list T -> list T -> list T.
Hypothesis rest_order_perm :
  forall buf rest, Permutation (rest_order buf rest) rest.
Variable options : RelativeErrorQuantilesSketch.RelativeErrorQuantilesSketchOptions.
Hypothesis k_positive : 0 < RelativeErrorQuantilesSketch.k options < 2 ^ 64.
Hypothesis k_even : Z.even (RelativeErrorQuantilesSketch.k options) = true.

Import RelativeErrorQuantilesSketch.

Abbreviation Sketch_Insert :=
  (RelativeErrorQuantilesSketch.Insert T_lt log2_ceil rest_order).
Abbreviation level := (level_ok (T:=T) log2_ceil options).
Abbreviation crowd cs :=
  (level_sum 1
     (fun c : Compactor.t T =>
        Z.of_nat (length (Compactor.buffer c)) + Compactor.C c) 0 cs).
(** Every level above level 0 has received an item. *)
Abbreviation fed cs :=
  (forall i (c : Compactor.t T), cs !! S i = Some c -> 1 <= received c).
(** A level that has compacted had a full buffer that a vector can hold. *)
Abbreviation seasoned :=
  (fun c : Compactor.t T =>
     level c
     /\ (0 < Compactor.C c ->
         Compactor.max_buffer_size c <= vector_max_size
         /\ Compactor.max_buffer_size c <= received c)).

(** One [Compactor::Insert]: the compactor has received one item more,
    and promoted what it returns. *)
Lemma Compactor_Insert_flow (c : Compactor.t T) element coins c' output coins' :
  level c ->
  Compactor.Insert T_lt rest_order c element coins
    = Returns (c', output, coins') ->
  Compactor.C c + 1 < 2 ^ 64 ->
  received c' = received c + 1
  /\ promoted c' = promoted c + Z.of_nat (length output)
  /\ Compactor.C c <= Compactor.C c'
  /\ (Compactor.C c < Compactor.C c' ->
      Z.of_nat (length (Compactor.buffer c)) = Compactor.max_buffer_size c).
Proof.
  intros (Hinv & Heven & _) Hrun Hnowrap.
  pose proof Hinv as ((_ & HC & _) & _).
  destruct Heven as (Hmax & Hek & Hemax).
  unfold received, promoted.
  destruct (Insert_inv _ _ _ _ _ _ _ _ Hrun)
    as [(_ & _ & -> & -> & _)|(Hfull & c1 & Hc1 & _ & ->)];
    cbn [Compactor.buffer Compactor.C Compactor.k Compactor.set_buffer length].
  - rewrite length_app. cbn [length]. repeat split; lia.
  - pose proof (elements_to_compact_even c Hek) as Hetc.
    destruct (compact_inv T_lt rest_order rest_order_perm c coins c1 output
                coins' Hmax Hfull Hc1)
      as (Hfit & _ & Hk1 & _ & _ & HC1 & Hlen1 & Hout & _).
    rewrite start_index_half in Hout by assumption.
    unfold uint64 in HC. rewrite wrap64_small in HC1 by lia.
    rewrite length_app. cbn [length].
    rewrite Hk1, HC1.
    replace (Z.to_nat (Compactor.C c + 1))
      with (S (Z.to_nat (Compactor.C c))) by lia.
    cbn [compacted_upto]. rewrite Z2Nat.id by lia.
    change (Compactor.elements_to_compact_at (Compactor.k c) (Compactor.C c))
      with (Compactor.elements_to_compact c).
    pose proof (compacted_upto_even (Compactor.k c)
                  (Z.to_nat (Compactor.C c)) Hek) as HE.
    rewrite Zeven_mod in Hetc, HE. apply Z.eqb_eq in Hetc, HE.
    rewrite Hout. split; [lia|]. split; [|split; [lia|intros _; exact Hfull]].
    revert Hetc HE.
    generalize (Compactor.elements_to_compact c)
      (compacted_upto (Compactor.k c) (Z.to_nat (Compactor.C c))).
    intros etc E Hetc HE. Z.div_mod_to_equations. lia.
Qed.

(** A compactor that has compacted once had its buffer full. *)
Lemma seasoned_new h :
  seasoned (Compactor.new log2_ceil (k options) (n options) h).
Proof.
  split; [apply new_level_ok; assumption|].
  cbn [Compactor.new Compactor.C]. lia.
Qed.

Lemma seasoned_Insert (c : Compactor.t T) element coins c' output coins' :
  seasoned c -> True ->
  Compactor.Insert T_lt rest_order c element coins
    = Returns (c', output, coins') ->
  seasoned c' /\ Forall (fun _ => True) output.
Proof.
  intros [Hlevel Hseas] _ Hrun.
  destruct (Insert_level_ok T_lt log2_ceil rest_order rest_order_perm options
              _ _ _ _ _ _ Hlevel I Hrun) as [Hlevel' _].
  split; [|apply Forall_forall; auto].
  split; [exact Hlevel'|]. intros HC'.
  pose proof Hlevel as (((_ & HC & Hvec & _) & _) & (Hmax & Hek & _) & _).
  pose proof (compacted_upto_nonneg (Compactor.k c)
                (Z.to_nat (Compactor.C c))) as Hnn.
  destruct (Insert_inv _ _ _ _ _ _ _ _ Hrun)
    as [(_ & _ & -> & _)|(Hfull & c1 & Hc1 & _ & ->)].
  - cbn [Compactor.C Compactor.set_buffer] in HC'.
    destruct (Hseas HC') as [Hv Hr].
    cbn [Compactor.max_buffer_size Compactor.set_buffer].
    split; [exact Hv|]. unfold received in *.
    cbn [Compactor.buffer Compactor.C Compactor.k Compactor.set_buffer].
    rewrite length_app. cbn [length]. lia.
  - destruct (compact_inv T_lt rest_order rest_order_perm c coins c1 output
                coins' Hmax Hfull Hc1)
      as (Hfit & _ & Hk1 & Hmax1 & _ & HC1 & Hlen1 & _).
    cbn [Compactor.C Compactor.set_buffer] in HC'.
    cbn [Compactor.max_buffer_size Compactor.set_buffer].
    rewrite Hmax1. split; [lia|].
    unfold received.
    cbn [Compactor.buffer Compactor.C Compactor.k Compactor.set_buffer].
    rewrite length_app. cbn [length]. rewrite Hk1.
    unfold uint64 in HC.
    destruct (Z.eq_dec (Compactor.C c + 1) (2 ^ 64)) as [Heq|Hne].
    + rewrite HC1, Heq in HC'. unfold wrap64 in HC'.
      rewrite Z.mod_same in HC' by lia. lia.
    + rewrite HC1, wrap64_small by lia.
      replace (Z.to_nat (Compactor.C c + 1))
        with (S (Z.to_nat (Compactor.C c))) by lia.
      cbn [compacted_upto]. rewrite Z2Nat.id by lia.
      change (Compactor.elements_to_compact_at (Compactor.k c) (Compactor.C c))
        with (Compactor.elements_to_compact c).
      lia.
Qed.

Lemma sketch_reachable_seasoned (s : t T) :
  sketch_reachable T_lt log2_ceil rest_order options s ->
  sketch_inv seasoned options s.
Proof.
  induction 1 as [|s fuel element h coins s' coins' _ IH Hh Hrun].
  - apply new_sketch_inv. exact seasoned_new.
  - eapply (Insert_sketch_inv T_lt log2_ceil rest_order seasoned
              (fun _ => True) options seasoned_new seasoned_Insert);
      [exact IH| |exact I|exact Hrun].
    apply Hh.
Qed.

(** What a compactor received accounts for its buffer and for [k] items
    for each of its compactions. *)
Lemma received_lower (c : Compactor.t T) :
  seasoned c ->
  Z.of_nat (length (Compactor.buffer c)) + Compactor.k c * Compactor.C c
  <= received c.
Proof.
  intros [Hlevel Hseas].
  pose proof Hlevel as (((Hk64 & HC & _) & Hk & Hfit & _) & _).
  unfold received. unfold uint64 in *.
  destruct (Z.eq_dec (Compactor.C c) 0) as [H0|Hne].
  - rewrite H0. change (Z.to_nat 0) with 0%nat. cbn [compacted_upto]. lia.
  - destruct (Hseas ltac:(lia)) as [Hv _].
    pose proof (compacted_upto_lower c ltac:(lia) HC Hfit Hv). lia.
Qed.

Lemma ensure_level_cases (s s1 : t T) h :
  ensure_level log2_ceil s h = Returns s1 ->
  compactors_ s1 = compactors_ s
  \/ (H_ s < h
      /\ compactors_ s1
         = compactors_ s
           ++ [Compactor.new log2_ceil (k (options_ s)) (n (options_ s)) h]).
Proof.
  intros Hrun. unfold ensure_level, push_back in Hrun.
  destruct (Z.ltb_spec (H_ s) h).
  - destruct (_ <? vector_max_size); cbn [bind] in Hrun; [|discriminate].
    injection Hrun as <-. right. split; [assumption|reflexivity].
  - injection Hrun as <-. left. reflexivity.
Qed.

Lemma ensure_level_flow (s s1 : t T) h i :
  ensure_level log2_ceil s h = Returns s1 ->
  net_inflow (compactors_ s1) i = net_inflow (compactors_ s) i.
Proof.
  intros Hrun.
  destruct (ensure_level_cases s s1 h Hrun) as [->|[_ ->]]; [reflexivity|].
  apply net_inflow_new; reflexivity.
Qed.

(** The level an insertion goes to has received an item afterwards. *)
Lemma fed_step (s s1 : t T) h c c' :
  sketch_inv level options s ->
  ensure_level log2_ceil s h = Returns s1 ->
  compactors_ s1 !! Z.to_nat h = Some c ->
  1 <= received c' ->
  fed (compactors_ s) -> fed (<[Z.to_nat h := c']> (compactors_ s1)).
Proof.
  intros Hinv He Hc Hrec Hfed0 i c2 Hi.
  assert (Hlt : (Z.to_nat h < length (compactors_ s1))%nat)
    by (eapply lookup_lt_Some; exact Hc).
  destruct (Nat.eq_dec (S i) (Z.to_nat h)) as [Heq|Hne].
  - rewrite Heq, list_lookup_insert_eq in Hi by exact Hlt.
    injection Hi as <-. exact Hrec.
  - rewrite list_lookup_insert_ne in Hi by congruence.
    destruct (ensure_level_cases s s1 h He) as [Hsame|[Hnew Happ]].
    + rewrite Hsame in Hi. apply (Hfed0 i c2 Hi).
    + destruct Hinv as (_ & HH0 & Hlen0 & _).
      rewrite Happ in Hi, Hlt. rewrite length_app in Hlt. cbn [length] in Hlt.
      destruct (Nat.lt_ge_cases (S i) (length (compactors_ s))) as [Hin|Hout].
      * rewrite lookup_app_l in Hi by exact Hin. apply (Hfed0 i c2 Hi).
      * apply lookup_lt_Some in Hi. rewrite length_app in Hi.
        cbn [length] in Hi. lia.
Qed.

(** The insertions of a list at one level, given what one of them does. *)
Lemma for_each_flow fuel h :
  0 <= h ->
  (forall (s : t T) element coins s' coins',
      sketch_inv level options s ->
      crowd (compactors_ s) < 2 ^ 64 - 2 ->
      Sketch_Insert fuel s element h coins = Returns (s', coins') ->
      (forall i,
         net_inflow (compactors_ s') i
         = net_inflow (compactors_ s) i
           + (if Nat.eqb i (Z.to_nat h) then 1 else 0))
      /\ (fed (compactors_ s) -> fed (compactors_ s'))) ->
  forall l (s : t T) coins s' coins',
    sketch_inv level options s ->
    crowd (compactors_ s) + Z.of_nat (length l) < 2 ^ 64 - 1 ->
    for_each (fun st y => Sketch_Insert fuel (fst st) y h (snd st)) l (s, coins)
      = Returns (s', coins') ->
    (forall i,
       net_inflow (compactors_ s') i
       = net_inflow (compactors_ s) i
         + (if Nat.eqb i (Z.to_nat h) then Z.of_nat (length l) else 0))
    /\ (fed (compactors_ s) -> fed (compactors_ s')).
Proof.
  intros Hh Hstep l. induction l as [|y l IH]; intros s coins s' coins'
    Hinv Hcrowd Hrun; cbn [for_each] in Hrun.
  - injection Hrun as <- <-. split; [|intros Hf; exact Hf].
    intros i. cbn [length]. destruct (Nat.eqb _ _); lia.
  - cbn [fst snd] in Hrun.
    destruct (Sketch_Insert fuel s y h coins) as [[s1 coins1]| |] eqn:Hy;
      cbn [bind] in Hrun; try discriminate.
    cbn [length] in Hcrowd.
    destruct (Insert_crowd T_lt log2_ceil rest_order rest_order_perm options
                k_positive k_even fuel s y h coins s1 coins1 Hinv Hh Hy)
      as [Hinv1 Hcrowd1].
    destruct (IH s1 coins1 s' coins' Hinv1 ltac:(lia) Hrun) as [Hflow' Hfed'].
    destruct (Hstep s y coins s1 coins1 Hinv ltac:(lia) Hy) as [Hflow1 Hfed1].
    split; [|intros Hf; apply Hfed', Hfed1, Hf].
    intros i. rewrite Hflow', Hflow1.
    cbn [length]. destruct (Nat.eqb _ _); lia.
Qed.

(** An insertion at level [h] is one more item received at level [h];
    what the levels above receive is what the levels below them
    promoted; and a level is created to receive an item. *)
Lemma Insert_flow fuel :
  forall h (s : t T) element coins s' coins',
    0 <= h ->
    sketch_inv level options s ->
    crowd (compactors_ s) < 2 ^ 64 - 2 ->
    Sketch_Insert fuel s element h coins = Returns (s', coins') ->
    (forall i,
       net_inflow (compactors_ s') i
       = net_inflow (compactors_ s) i
         + (if Nat.eqb i (Z.to_nat h) then 1 else 0))
    /\ (fed (compactors_ s) -> fed (compactors_ s')).
Proof.
  induction fuel as [|fuel IH]; intros h s element coins s' coins'
    Hh Hinv Hcrowd Hrun; [discriminate|].
  apply Insert_S_inv in Hrun.
  destruct Hrun as (s1 & c & c' & output & coins1 & He & Hc & Hins & Hfor).
  destruct (ensure_level_inv log2_ceil level options
              (new_level_ok log2_ceil options k_positive k_even)
              _ _ _ _ Hinv Hh He Hc) as (Hinv1 & Hle & _).
  pose proof Hinv1 as (Hopt & HH & Hlen & Hvec & HP).
  assert (HPc : level c) by (rewrite Forall_lookup in HP; apply (HP _ _ Hc)).
  destruct (Insert_level_ok T_lt log2_ceil rest_order rest_order_perm options
              _ _ _ _ _ _ HPc I Hins) as [HPc' _].
  pose proof (Compactor_Insert_crowd T_lt log2_ceil rest_order rest_order_perm
                options _ _ _ _ _ _ HPc Hins) as Hcrowdc.
  pose proof (level_sketch_insert log2_ceil options s1 h c c' Hinv1 Hc HPc')
    as Hinv2.
  pose proof (ensure_level_sums log2_ceil s s1 h 1
                (fun c : Compactor.t T =>
                   Z.of_nat (length (Compactor.buffer c)) + Compactor.C c)
                (fun _ _ _ => eq_refl) He) as Hcrowd1.
  assert (Hnext : wrap64 (h + 1) = h + 1).
  { apply wrap64_small. unfold vector_max_size in Hvec. lia. }
  rewrite Hnext in Hfor.
  set (s2 := set_compactors s1 (H_ s1) (<[Z.to_nat h := c']> (compactors_ s1)))
    in *.
  assert (Hcrowd2 : crowd (compactors_ s2) + Z.of_nat (length output)
                    <= crowd (compactors_ s) + 1).
  { unfold s2. cbn [compactors_ set_compactors].
    rewrite (level_sum_insert _ _ _ _ _ _ c' Hc), Z.pow_1_l by lia.
    rewrite <- Hcrowd1. lia. }
  assert (Hnowrap : Compactor.C c + 1 < 2 ^ 64).
  { pose proof (level_sum_lookup_le
                  (fun c : Compactor.t T =>
                     Z.of_nat (length (Compactor.buffer c)) + Compactor.C c)
                  0 (compactors_ s1) (Z.to_nat h) c ltac:(lia)
                  (crowd_terms log2_ceil options _ HP) Hc) as Hterm.
    rewrite Hcrowd1 in Hterm. lia. }
  destruct (Compactor_Insert_flow _ _ _ _ _ _ HPc Hins Hnowrap)
    as (Hrec & Hpro & _).
  destruct (for_each_flow fuel (h + 1) ltac:(lia)
             (fun s0 e0 cn0 s0' cn0' => IH (h + 1) s0 e0 cn0 s0' cn0' ltac:(lia))
             output s2 coins1 s' coins' Hinv2 ltac:(lia) Hfor)
    as [Hflow Hfed].
  split.
  - intros i. rewrite Hflow.
    unfold s2. cbn [compactors_ set_compactors].
    rewrite (net_inflow_insert _ _ c c' (Z.of_nat (length output)) i
               Hc Hrec Hpro).
    rewrite (ensure_level_flow s s1 h i He).
    replace (Z.to_nat (h + 1)) with (S (Z.to_nat h)) by lia.
    destruct (Nat.eqb i (S (Z.to_nat h))), (Nat.eqb i (Z.to_nat h)); lia.
  - intros Hfed0. apply Hfed.
    unfold s2. cbn [compactors_ set_compactors].
    apply (fed_step s s1 h c c' Hinv He Hc); [|exact Hfed0].
    pose proof (received_nonneg c). lia.
Qed.

(** After [N] insertions at level 0 into a fresh sketch: every level is
    seasoned, level [i] has received at most [N / 2^i] items, every level
    above level 0 has received an item, and what level [i + 1] received
    is what level [i] promoted. *)
Lemma Insert_all_flow fuel items coins (s : t T) coins' :
  Z.of_nat (length items) < 2 ^ 64 - 2 ->
  Insert_all T_lt log2_ceil rest_order fuel (new log2_ceil options) items coins
    = Returns (s, coins') ->
  sketch_inv seasoned options s
  /\ (forall i c, compactors_ s !! i = Some c ->
        2 ^ Z.of_nat i * received c <= Z.of_nat (length items))
  /\ fed (compactors_ s)
  /\ (forall i c c', compactors_ s !! i = Some c ->
        compactors_ s !! S i = Some c' -> received c' = promoted c).
Proof.
  intros Hlen Hrun.
  assert (Hseas : sketch_inv seasoned options s).
  { apply sketch_reachable_seasoned.
    eapply Insert_all_reachable; [apply sr_new|exact Hrun]. }
  destruct (for_each_flow fuel 0 (Z.le_refl 0)
              (fun s0 e0 cn0 s0' cn0' =>
                 Insert_flow fuel 0 s0 e0 cn0 s0' cn0' (Z.le_refl 0))
              items (new log2_ceil options) coins s coins')
    as [Hflow Hfed].
  { apply new_sketch_inv. intros h. apply new_level_ok; assumption. }
  { cbn. lia. }
  { exact Hrun. }
  assert (Hnet : forall i,
             net_inflow (compactors_ s) i
             = if Nat.eqb i 0 then Z.of_nat (length items) else 0).
  { intros i. rewrite Hflow. change (Z.to_nat 0) with 0%nat.
    assert (H0 : net_inflow (compactors_ (new (T:=T) log2_ceil options)) i
                 = 0).
    { destruct i as [|[|i]]; reflexivity. }
    rewrite H0. destruct (Nat.eqb i 0); lia. }
  assert (Hnext : forall i c c', compactors_ s !! i = Some c ->
             compactors_ s !! S i = Some c' -> received c' = promoted c).
  { intros i c c' Hc Hc'. pose proof (Hnet (S i)) as Hi.
    unfold net_inflow in Hi. rewrite Hc, Hc' in Hi. cbn [Nat.eqb] in Hi. lia. }
  split; [exact Hseas|]. split; [|split; [|exact Hnext]].
  - induction i as [|i IHi]; intros c Hc.
    + pose proof (Hnet 0%nat) as H0. unfold net_inflow in H0.
      rewrite Hc in H0. cbn [Nat.eqb] in H0. cbn [Z.of_nat]. lia.
    + destruct (lookup_lt_is_Some_2 (compactors_ s) i) as [c0 Hc0].
      { apply lookup_lt_Some in Hc. lia. }
      specialize (IHi c0 Hc0).
      rewrite (Hnext i c0 c Hc0 Hc).
      unfold promoted. unfold received in IHi.
      pose proof (compacted_upto_nonneg (Compactor.k c0)
                    (Z.to_nat (Compactor.C c0))) as Hnn.
      replace (Z.of_nat (S i)) with (Z.of_nat i + 1) by lia.
      rewrite Z.pow_add_r, Z.pow_1_r by lia.
      assert (Hp : 0 < 2 ^ Z.of_nat i) by (apply Z.pow_pos_nonneg; lia).
      revert IHi Hnn.
      generalize (compacted_upto (Compactor.k c0) (Z.to_nat (Compactor.C c0)))
        (2 ^ Z.of_nat i) (Z.of_nat (length (Compactor.buffer c0))) Hp
        (Nat2Z.is_nonneg (length (Compactor.buffer c0))).
      intros E p b Hp' Hb IHi Hnn.
      assert (2 * (E / 2) <= E) by (Z.div_mod_to_equations; lia). nia.
  - apply Hfed. cbn [new compactors_]. intros i c Hi.
    destruct i; discriminate.
Qed.

(** The load of a level: its buffer and [k] items for each of its
    compactions, weighted by the level, are within the items inserted. *)
Lemma Insert_all_load fuel items coins (s : t T) coins' i c :
  Z.of_nat (length items) < 2 ^ 64 - 2 ->
  Insert_all T_lt log2_ceil rest_order fuel (new log2_ceil options) items coins
    = Returns (s, coins') ->
  compactors_ s !! i = Some c ->
  2 ^ Z.of_nat i
  * (Z.of_nat (length (Compactor.buffer c)) + k options * Compactor.C c)
  <= Z.of_nat (length items).
Proof.
  intros Hlen Hrun Hc.
  destruct (Insert_all_flow fuel items coins s coins' Hlen Hrun)
    as ((_ & _ & _ & _ & Hseas) & Hchain & _).
  destruct (sketch_reachable_levels T_lt log2_ceil rest_order options s)
    as [(_ & _ & _ & _ & Hshares) _].
  { eapply Insert_all_reachable; [apply sr_new|exact Hrun]. }
  rewrite Forall_lookup in Hseas, Hshares.
  destruct (Hshares i c Hc) as [Hk _].
  pose proof (received_lower c (Hseas i c Hc)) as Hlow.
  pose proof (Hchain i c Hc) as Hi.
  rewrite Hk in Hlow.
  assert (Hp : 0 < 2 ^ Z.of_nat i) by (apply Z.pow_pos_nonneg; lia).
  nia.
Qed.

End Flow.

Section FlowTheorems.
Context {T : Type}.
Variable T_lt : T -> T -> bool.
Variable T_empty : T -> bool.
Variable log2_ceil : Z -> Z -> Z.
Variable rest_order : list T -> list T -> list T.
Hypothesis rest_order_perm :
  forall buf rest, Permutation (rest_order buf rest) rest.

Import RelativeErrorQuantilesSketch.

(** X25. Higher levels compact less often. After [N] items have been
    inserted at level 0 into a fresh sketch with a positive even section
    size, level [i] with buffer [buffer] and counter [C] satisfies
    [2^i * (|buffer| + k * C) <= N]: every one of its compactions took at
    least [k] items it had received, and level [i] received at most
    [N / 2^i] items, whatever the coins showed. *)
Theorem compactions_bounded options fuel items coins (s : t T) coins' i c :
  0 < k options < 2 ^ 64 -> Z.even (k options) = true ->
  Z.of_nat (length items) < 2 ^ 64 - 2 ->
  Insert_all T_lt log2_ceil rest_order fuel (new log2_ceil options) items coins
    = Returns (s, coins') ->
  compactors_ s !! i = Some c ->
  2 ^ Z.of_nat i
  * (Z.of_nat (length (Compactor.buffer c)) + k options * Compactor.C c)
  <= Z.of_nat (length items).
Proof.
  intros Hk Heven Hlen Hrun Hc.
  exact (Insert_all_load T_lt log2_ceil rest_order rest_order_perm options
           Hk Heven fuel items coins s coins' i c Hlen Hrun Hc).
Qed.

(** X26. Depth grows at most logarithmically. After [N] items have been
    inserted at level 0 into a fresh sketch with a positive even section
    size, a sketch of depth [H >= 1] has seen at least
    [2^(H-1) * max_buffer_size] items: the level below the top compacted
    a full buffer, and every item it received stands for [2^(H-1)]
    inserted ones. *)
Theorem depth_upper_bound options fuel items coins (s : t T) coins' :
  0 < k options < 2 ^ 64 -> Z.even (k options) = true ->
  Z.of_nat (length items) < 2 ^ 64 - 2 ->
  Insert_all T_lt log2_ceil rest_order fuel (new log2_ceil options) items coins
    = Returns (s, coins') ->
  0 < Depth s ->
  2 ^ (Depth s - 1)
  * Compactor.max_buffer_size
      (Compactor.new (T:=T) log2_ceil (k options) (n options) 0)
  <= Z.of_nat (length items).
Proof.
  intros Hk Heven Hlen Hrun Hdepth. unfold Depth in *.
  destruct (Insert_all_flow T_lt log2_ceil rest_order rest_order_perm options
              Hk Heven fuel items coins s coins' Hlen Hrun)
    as ((_ & _ & Hsize & _ & Hseas) & Hchain & Hfed & Hnext).
  set (j := Z.to_nat (H_ s - 1)).
  destruct (lookup_lt_is_Some_2 (compactors_ s) j) as [c0 Hc0]; [lia|].
  destruct (lookup_lt_is_Some_2 (compactors_ s) (S j)) as [c1 Hc1]; [lia|].
  rewrite Forall_lookup in Hseas.
  destruct (Hseas j c0 Hc0) as [Hlevel Hfull].
  pose proof Hlevel as (((_ & HC & _) & _) & _ & Hcap).
  pose proof (Hfed j c1 Hc1) as Hone.
  rewrite (Hnext j c0 c1 Hc0 Hc1) in Hone. unfold promoted in Hone.
  assert (HC0 : 0 < Compactor.C c0).
  { unfold uint64 in HC.
    destruct (Z.eq_dec (Compactor.C c0) 0) as [H0|]; [|lia].
    rewrite H0 in Hone. change (Z.to_nat 0) with 0%nat in Hone.
    cbn [compacted_upto] in Hone. change (0 / 2) with 0 in Hone. lia. }
  destruct (Hfull HC0) as [_ Hrec].
  pose proof (Hchain j c0 Hc0) as Hj.
  replace (Z.of_nat j) with (H_ s - 1) in Hj by lia.
  rewrite <- Hcap.
  assert (Hp : 0 < 2 ^ (H_ s - 1)) by (apply Z.pow_pos_nonneg; lia).
  nia.
Qed.

Hypothesis T_lt_irrefl : forall a, T_lt a a = false.
Hypothesis T_lt_trans :
  forall a b c, T_lt a b = true -> T_lt b c = true -> T_lt a c = true.
Hypothesis T_lt_cotrans :
  forall a b c, T_lt a b = true -> T_lt a c = true \/ T_lt c b = true.

(** X27. The rank error relative to the stream. Let the constructor have
    computed [m] sections, [1 <= m < 64], with [2 * k * m < 2^63]. After
    [N <= k * (2^m - 1)] items have been inserted at level 0 into a fresh
    sketch with a positive even section size and the sketch has been
    closed, every compaction took at most half of its buffer, and for
    every query [x] the estimated rank differs from the number of
    inserted items less than [x] by at most [(Depth + 1) * N / k],
    whatever the coins showed. *)
Theorem rank_error_relative options m fuel items coins (s : t T) coins' s' x :
  0 < k options -> Z.even (k options) = true ->
  log2_ceil (n options) (k options) = m -> 1 <= m < 64 ->
  2 * k options * m < 2 ^ 63 ->
  Z.of_nat (length items) <= k options * (2 ^ m - 1) ->
  Z.of_nat (length items) < 2 ^ 64 - 2 ->
  Insert_all T_lt log2_ceil rest_order fuel (new log2_ceil options) items coins
    = Returns (s, coins') ->
  Close T_lt T_empty s = Returns s' ->
  Forall schedule_halved (compactors_ s)
  /\ k options
     * Z.abs (EstimateRank T_lt s' x
              - Z.of_nat (length (List.filter (fun t => T_lt t x) items)))
     <= (Depth s + 1) * Z.of_nat (length items).
Proof.
  intros Hk0 Heven Hm Hm64 Hcap HN Hlen Hrun Hclose.
  assert (Hk : 0 < k options < 2 ^ 64) by nia.
  assert (Hreach : sketch_reachable T_lt log2_ceil rest_order options s).
  { eapply Insert_all_reachable; [apply sr_new|exact Hrun]. }
  pose proof (fun i c =>
                Insert_all_load T_lt log2_ceil rest_order rest_order_perm
                  options Hk Heven fuel items coins s coins' i c Hlen Hrun)
    as Hload.
  destruct (sketch_reachable_levels T_lt log2_ceil rest_order options s Hreach)
    as [(_ & _ & Hsize & _ & Hshares) _].
  assert (Hhalved : Forall schedule_halved (compactors_ s)).
  { rewrite Forall_lookup. intros i c Hc.
    rewrite Forall_lookup in Hshares.
    destruct (Hshares i c Hc) as (Hkc & _ & Hmax).
    cbn [Compactor.new Compactor.max_buffer_size] in Hmax.
    rewrite Hm in Hmax.
    rewrite (wrap64_small (2 * k options)) in Hmax by nia.
    rewrite wrap64_small in Hmax by nia.
    apply (schedule_halved_small c m).
    - lia.
    - exact Hm64.
    - rewrite Hmax, Hkc. reflexivity.
    - lia.
    - specialize (Hload i c Hc).
      assert (Hp : 0 < 2 ^ Z.of_nat i) by (apply Z.pow_pos_nonneg; lia).
      assert (Hkc1 : k options * Compactor.C c <= k options * (2 ^ m - 1))
        by nia.
      nia. }
  split; [exact Hhalved|].
  destruct (sketch_reachable_unclosed T_lt log2_ceil rest_order options s
              Hreach) as [Hempty _].
  rewrite (EstimateRank_level_sum T_lt T_empty T_lt_irrefl T_lt_trans
             T_lt_cotrans s s' x Hempty Hclose).
  destruct (for_each_drift T_lt log2_ceil rest_order rest_order_perm options
              Hk Heven x fuel 0 (Z.le_refl 0)
              (fun s0 e0 cn0 s0' cn0' =>
                 Insert_drift T_lt log2_ceil rest_order rest_order_perm
                   T_lt_irrefl T_lt_trans T_lt_cotrans options Hk Heven x
                   fuel 0 s0 e0 cn0 s0' cn0' (Z.le_refl 0))
              items (new log2_ceil options) coins s coins')
    as [_ Hdrift].
  - apply new_sketch_inv. intros h. apply new_level_ok; assumption.
  - cbn. lia.
  - exact Hrun.
  - exact Hhalved.
  - cbn [new compactors_ level_sum Compactor.buffer Compactor.C Compactor.new
           List.filter length] in Hdrift.
    change (2 ^ 0) with 1 in Hdrift.
    pose proof (level_sum_counters_le (k options) (Z.of_nat (length items))
                  (compactors_ s) 0 (Z.le_refl 0)) as Hsum.
    unfold Depth. rewrite <- Hsize.
    assert (Hall : forall i c, compactors_ s !! i = Some c ->
               2 ^ (0 + Z.of_nat i) * (k options * Compactor.C c)
               <= Z.of_nat (length items)).
    { intros i c Hc. specialize (Hload i c Hc). rewrite Z.add_0_l.
      assert (Hp : 0 < 2 ^ Z.of_nat i) by (apply Z.pow_pos_nonneg; lia).
      nia. }
    specialize (Hsum Hall).
    nia.
Qed.

End FlowTheorems.

(** * Insertions that cannot fail *)

(** A compaction at a counter of at most [2^m - 1] fits a buffer of
    [2 * k * m] items. *)
Lemma elements_to_compact_fits {T} (c : Compactor.t T) m :
  0 < Compactor.k c -> 1 <= m < 64 ->
  Compactor.max_buffer_size c = 2 * Compactor.k c * m ->
  Compactor.max_buffer_size c < 2 ^ 63 ->
  0 <= Compactor.C c <= 2 ^ m - 1 ->
  Compactor.elements_to_compact c <= Compactor.max_buffer_size c.
Proof.
  intros Hk Hm Hmax Hlt HC.
  assert (HC64 : uint64 (Compactor.C c)).
  { unfold uint64. split; [lia|].
    assert (2 ^ m < 2 ^ 64) by (apply Z.pow_lt_mono_r; lia). lia. }
  destruct (sections_to_compact_spec _ HC64) as (t & Ht & _ & Hsec).
  pose proof (trailing_ones_lower _ _ (proj1 HC) Ht) as Hlow.
  assert (Ht0 : 0 <= t) by apply Ht.
  assert (Htm : t <= m).
  { destruct (Z.le_gt_cases t m) as [|Hgt]; [assumption|exfalso].
    assert (2 ^ m < 2 ^ t) by (apply Z.pow_lt_mono_r; lia). lia. }
  unfold Compactor.elements_to_compact, Compactor.elements_to_compact_at.
  rewrite Hsec, Hmax.
  assert ((t + 1) * Compactor.k c <= (m + 1) * Compactor.k c) by nia.
  rewrite wrap64_small; nia.
Qed.

Section Progress.
Context {T : Type}.
Variable T_lt : T -> T -> bool.
Variable log2_ceil : Z -> Z -> Z.
Variable rest_order : list T -> list T -> list T.
Hypothesis rest_order_perm :
  forall buf rest, Permutation (rest_order buf rest) rest.

(** [Compactor::Insert] returns when the compaction it may need fits the
    buffer and the buffer is smaller than a vector can be. *)
Lemma Compactor_Insert_returns (c : Compactor.t T) element coins :
  uint64 (Compactor.max_buffer_size c) ->
  Compactor.max_buffer_size c < vector_max_size ->
  Z.of_nat (length (Compactor.buffer c)) <= Compactor.max_buffer_size c ->
  Compactor.elements_to_compact c <= Compactor.max_buffer_size c ->
  exists r, Compactor.Insert T_lt rest_order c element coins = Returns r.
Proof.
  intros Hmax Hvec Hlen Hfit. unfold Compactor.Insert.
  destruct (Z.eqb_spec (Z.of_nat (length (Compactor.buffer c)))
              (Compactor.max_buffer_size c)) as [Hfull|Hroom].
  - rewrite (compact_fits T_lt rest_order rest_order_perm c coins
               Hmax Hfull Hfit).
    cbn [bind]. unfold push_back.
    cbn [Compactor.buffer Compactor.set_C Compactor.set_buffer].
    pose proof (wrap64_range
                  (Compactor.sections_to_compact (Compactor.C c)
                   * Compactor.k c)) as Hetc.
    fold (Compactor.elements_to_compact_at (Compactor.k c) (Compactor.C c))
      in Hetc.
    fold (Compactor.elements_to_compact c) in Hetc.
    destruct (Z.ltb_spec
                (Z.of_nat
                   (length
                      (take
                         (Z.to_nat
                            (Compactor.max_buffer_size c
                             - Compactor.elements_to_compact c))
                         (Compactor.partial_sort_back T_lt rest_order
                            (Z.to_nat
                               (Compactor.max_buffer_size c
                                - Compactor.elements_to_compact c))
                            (Compactor.buffer c)))))
                vector_max_size) as [|Hge].
    + cbn [bind]. eexists. reflexivity.
    + exfalso. rewrite length_take in Hge. lia.
  - cbn [bind]. unfold push_back.
    destruct (Z.ltb_spec (Z.of_nat (length (Compactor.buffer c)))
                vector_max_size) as [|Hge].
    + cbn [bind]. eexists. reflexivity.
    + lia.
Qed.

Variable options : RelativeErrorQuantilesSketch.RelativeErrorQuantilesSketchOptions.
Hypothesis k_positive : 0 < RelativeErrorQuantilesSketch.k options < 2 ^ 64.
Hypothesis k_even : Z.even (RelativeErrorQuantilesSketch.k options) = true.
Variable m : Z.
Hypothesis sections :
  log2_ceil (RelativeErrorQuantilesSketch.n options)
    (RelativeErrorQuantilesSketch.k options) = m.
Hypothesis m_range : 1 <= m < 64.
Hypothesis cap_small : 2 * RelativeErrorQuantilesSketch.k options * m < 2 ^ 63.
(** The number of items of the stream. *)
Variable B : Z.
Hypothesis B_regime : B <= RelativeErrorQuantilesSketch.k options * (2 ^ m - 1).
Hypothesis B_small : B < 2 ^ 64 - 2.

Import RelativeErrorQuantilesSketch.

Abbreviation Sketch_Insert :=
  (RelativeErrorQuantilesSketch.Insert T_lt log2_ceil rest_order).
Abbreviation level := (level_ok (T:=T) log2_ceil options).
Abbreviation shares :=
  (fun c : Compactor.t T =>
     Compactor.k c = k options /\ Compactor.n c = n options
     /\ Compactor.max_buffer_size c
        = Compactor.max_buffer_size
            (Compactor.new (T:=T) log2_ceil (k options) (n options) 0)).
Abbreviation crowd cs :=
  (level_sum 1
     (fun c : Compactor.t T =>
        Z.of_nat (length (Compactor.buffer c)) + Compactor.C c) 0 cs).
Abbreviation fed cs :=
  (forall i (c : Compactor.t T), cs !! S i = Some c -> 1 <= received c).
(** Level [h] can take [q] more items of a stream of [B] items. *)
Abbreviation room h q cs :=
  (forall i,
     net_inflow (T:=T) cs i + (if Nat.eqb i (Z.to_nat h) then q else 0)
     <= if Nat.eqb i 0 then B else 0).

Lemma cap_value :
  Compactor.max_buffer_size
    (Compactor.new (T:=T) log2_ceil (k options) (n options) 0)
  = 2 * k options * m.
Proof.
  cbn [Compactor.new Compactor.max_buffer_size]. rewrite sections.
  rewrite (wrap64_small (2 * k options)) by nia.
  apply wrap64_small. nia.
Qed.

Lemma room_chain h q (cs : list (Compactor.t T)) :
  0 <= q -> room h q cs ->
  forall i c, cs !! i = Some c -> 2 ^ Z.of_nat i * received c <= B.
Proof.
  intros Hq Hroom. induction i as [|i IHi]; intros c Hc.
  - pose proof (Hroom 0%nat) as H0. unfold net_inflow in H0.
    rewrite Hc in H0. change (Nat.eqb 0 0) with true in H0. cbn [Z.of_nat].
    destruct (Nat.eqb 0 (Z.to_nat h)); lia.
  - destruct (lookup_lt_is_Some_2 cs i) as [c0 Hc0].
    { apply lookup_lt_Some in Hc. lia. }
    specialize (IHi c0 Hc0).
    pose proof (Hroom (S i)) as Hi. unfold net_inflow in Hi.
    rewrite Hc, Hc0 in Hi. change (Nat.eqb (S i) 0) with false in Hi.
    assert (Hle : received c <= promoted c0)
      by (destruct (Nat.eqb (S i) (Z.to_nat h)); lia).
    unfold promoted in Hle. unfold received in IHi.
    pose proof (compacted_upto_nonneg (Compactor.k c0)
                  (Z.to_nat (Compactor.C c0))) as Hnn.
    replace (Z.of_nat (S i)) with (Z.of_nat i + 1) by lia.
    rewrite Z.pow_add_r, Z.pow_1_r by lia.
    assert (Hp : 0 < 2 ^ Z.of_nat i) by (apply Z.pow_pos_nonneg; lia).
    revert IHi Hnn Hle.
    generalize (compacted_upto (Compactor.k c0) (Z.to_nat (Compactor.C c0)))
      (2 ^ Z.of_nat i) (Z.of_nat (length (Compactor.buffer c0))) Hp
      (Nat2Z.is_nonneg (length (Compactor.buffer c0))) (received c).
    intros E p b Hp' Hb r IHi Hnn Hle.
    assert (2 * (E / 2) <= E) by (Z.div_mod_to_equations; lia). nia.
Qed.

(** The sketch has fewer than 64 levels above level 0. *)
Lemma depth_small h q (s : t T) :
  sketch_inv level options s -> 0 <= q ->
  room h q (compactors_ s) -> fed (compactors_ s) -> H_ s <= 63.
Proof.
  intros (_ & HH & Hlen & _) Hq Hroom Hfed.
  destruct (Z.eq_dec (H_ s) 0) as [|Hne]; [lia|].
  set (j := Z.to_nat (H_ s - 1)).
  destruct (lookup_lt_is_Some_2 (compactors_ s) (S j)) as [c Hc]; [lia|].
  pose proof (Hfed j c Hc) as Hone.
  pose proof (room_chain h q _ Hq Hroom (S j) c Hc) as Hj.
  replace (Z.of_nat (S j)) with (H_ s) in Hj by lia.
  destruct (Z.le_gt_cases (H_ s) 63) as [|Hgt]; [assumption|exfalso].
  assert (2 ^ 64 <= 2 ^ H_ s) by (apply Z.pow_le_mono_r; lia).
  nia.
Qed.

Lemma ensure_level_returns (s : t T) h :
  Z.of_nat (length (compactors_ s)) < vector_max_size ->
  exists s1, ensure_level log2_ceil s h = Returns s1.
Proof.
  intros Hlen. unfold ensure_level, push_back.
  destruct (H_ s <? h); [|eexists; reflexivity].
  destruct (Z.ltb_spec (Z.of_nat (length (compactors_ s))) vector_max_size);
    [|lia].
  cbn [bind]. eexists. reflexivity.
Qed.

(** The counter of a level of the sketch is at most [2^m - 1]. *)
Lemma counter_small (c : Compactor.t T) :
  level c -> shares c -> received c <= B ->
  0 <= Compactor.C c <= 2 ^ m - 1.
Proof.
  intros (((_ & HC & _) & Hk & Hfit & _) & _) (Hkc & _ & Hmax) Hrec.
  rewrite cap_value in Hmax. unfold uint64 in HC.
  split; [lia|].
  pose proof (compacted_upto_lower c ltac:(lia) HC Hfit
                ltac:(unfold vector_max_size; lia)) as Hlow.
  unfold received in Hrec. rewrite Hkc in Hlow, Hrec.
  assert (k options * Compactor.C c <= k options * (2 ^ m - 1)) by lia.
  nia.
Qed.

Lemma shares_sketch_insert (s1 : t T) h c' :
  sketch_inv shares options s1 -> shares c' ->
  sketch_inv shares options
    (set_compactors s1 (H_ s1) (<[Z.to_nat h := c']> (compactors_ s1))).
Proof.
  intros (Hopt & HH & Hlen & Hvec & HP) Hc'.
  unfold sketch_inv. cbn [options_ H_ compactors_ set_compactors].
  rewrite length_insert.
  split; [assumption|]. split; [assumption|]. split; [assumption|].
  split; [assumption|]. apply Forall_insert; assumption.
Qed.

Lemma Insert_keeps_shares fuel (s : t T) element h coins s' coins' :
  sketch_inv shares options s -> 0 <= h ->
  Sketch_Insert fuel s element h coins = Returns (s', coins') ->
  sketch_inv shares options s'.
Proof.
  intros Hsh Hh Hrun.
  apply (Insert_sketch_inv T_lt log2_ceil rest_order shares
           (fun _ => True) options (shares_new log2_ceil options)
           (shares_Insert T_lt log2_ceil rest_order options)
           fuel s element h coins s' coins' Hsh Hh I Hrun).
Qed.

(** The insertions of a list at one level raise no fault, if one of them
    raises none. *)
Lemma for_each_no_fault fuel h :
  0 <= h ->
  (forall (s : t T) element coins,
      h <= H_ s + 1 ->
      sketch_inv level options s -> sketch_inv shares options s ->
      crowd (compactors_ s) < 2 ^ 64 - 2 ->
      room h 1 (compactors_ s) -> fed (compactors_ s) ->
      forall f, Sketch_Insert fuel s element h coins <> Fault f) ->
  forall l (s : t T) coins,
    h <= H_ s + 1 ->
    sketch_inv level options s -> sketch_inv shares options s ->
    crowd (compactors_ s) + Z.of_nat (length l) < 2 ^ 64 - 1 ->
    room h (Z.of_nat (length l)) (compactors_ s) -> fed (compactors_ s) ->
    forall f,
      for_each (fun st y => Sketch_Insert fuel (fst st) y h (snd st)) l
        (s, coins) <> Fault f.
Proof.
  intros Hh Hstep l. induction l as [|y l IH];
    intros s coins Hdense Hinv Hsh Hcrowd Hroom Hfed f;
    cbn [for_each]; [discriminate|].
  cbn [fst snd]. cbn [length] in Hcrowd, Hroom.
  assert (Hroom1 : room h 1 (compactors_ s)).
  { intros i. specialize (Hroom i).
    destruct (Nat.eqb i (Z.to_nat h)); lia. }
  pose proof (Hstep s y coins Hdense Hinv Hsh ltac:(lia) Hroom1 Hfed) as Hy.
  destruct (Sketch_Insert fuel s y h coins) as [[s1 coins1]|f1|] eqn:Hrun;
    cbn [bind]; [|exfalso; apply (Hy f1); reflexivity|discriminate].
  destruct (Insert_crowd T_lt log2_ceil rest_order rest_order_perm options
              k_positive k_even fuel s y h coins s1 coins1 Hinv Hh Hrun)
    as [Hinv1 Hcrowd1].
  destruct (Insert_flow T_lt log2_ceil rest_order rest_order_perm options
              k_positive k_even fuel h s y coins s1 coins1 Hh Hinv
              ltac:(lia) Hrun) as [Hflow1 Hfed1].
  apply IH.
  - pose proof (Insert_H_mono T_lt log2_ceil rest_order _ _ _ _ _ _ _ Hrun).
    lia.
  - exact Hinv1.
  - exact (Insert_keeps_shares fuel s y h coins s1 coins1 Hsh Hh Hrun).
  - lia.
  - intros i. specialize (Hroom i). rewrite Hflow1.
    destruct (Nat.eqb i (Z.to_nat h)); lia.
  - apply Hfed1, Hfed.
Qed.

(** An insertion into a sketch with room for it raises no fault: every
    compaction fits its buffer and no vector is full. *)
Lemma Insert_no_fault fuel :
  forall h (s : t T) element coins,
    0 <= h <= H_ s + 1 ->
    sketch_inv level options s -> sketch_inv shares options s ->
    crowd (compactors_ s) < 2 ^ 64 - 2 ->
    room h 1 (compactors_ s) -> fed (compactors_ s) ->
    forall f, Sketch_Insert fuel s element h coins <> Fault f.
Proof.
  induction fuel as [|fuel IH];
    intros h s element coins Hh Hinv Hsh Hcrowd Hroom Hfed f;
    [discriminate|].
  cbn [RelativeErrorQuantilesSketch.Insert].
  pose proof (depth_small h 1 s Hinv ltac:(lia) Hroom Hfed) as Hdepth.
  destruct (ensure_level_returns s h) as [s1 He].
  { destruct Hinv as (_ & _ & Hlen & _). unfold vector_max_size. lia. }
  rewrite He. cbn [bind].
  destruct (ensure_level_dense log2_ceil level options s s1 h Hinv Hh He)
    as [c Hc].
  rewrite Hc.
  destruct (ensure_level_inv log2_ceil level options
              (new_level_ok log2_ceil options k_positive k_even)
              _ _ _ _ Hinv (proj1 Hh) He Hc) as (Hinv1 & Hle & _).
  destruct (ensure_level_inv log2_ceil shares options
              (shares_new log2_ceil options)
              _ _ _ _ Hsh (proj1 Hh) He Hc) as (Hsh1 & _).
  pose proof Hinv1 as (Hopt & HH & Hlen & Hvec & HP).
  pose proof Hsh1 as (_ & _ & _ & _ & HS).
  assert (HPc : level c) by (rewrite Forall_lookup in HP; apply (HP _ _ Hc)).
  assert (HSc : shares c) by (rewrite Forall_lookup in HS; apply (HS _ _ Hc)).
  assert (Hroom1 : room h 1 (compactors_ s1)).
  { intros i. rewrite (ensure_level_flow log2_ceil s s1 h i He).
    apply Hroom. }
  pose proof (room_chain h 1 _ ltac:(lia) Hroom1 _ c Hc) as Hload.
  assert (Hrec : received c <= B).
  { pose proof (received_nonneg c).
    assert (0 < 2 ^ Z.of_nat (Z.to_nat h)) by (apply Z.pow_pos_nonneg; lia).
    nia. }
  pose proof (counter_small c HPc HSc Hrec) as HCm.
  pose proof HPc as ((_ & Hk & _ & Hbuf) & (Hmax & _) & _).
  pose proof HSc as (Hkc & _ & Hcap). rewrite cap_value in Hcap.
  destruct (Compactor_Insert_returns c element coins Hmax
              ltac:(unfold vector_max_size; lia) Hbuf)
    as [[[c' output] coins1] Hins].
  { apply (elements_to_compact_fits c m); try assumption; try lia;
      rewrite Hcap, Hkc; reflexivity. }
  rewrite Hins. cbn [bind].
  destruct (Insert_level_ok T_lt log2_ceil rest_order rest_order_perm options
              _ _ _ _ _ _ HPc I Hins) as [HPc' _].
  destruct (shares_Insert T_lt log2_ceil rest_order options
              _ _ _ _ _ _ HSc I Hins) as [HSc' _].
  pose proof (Compactor_Insert_crowd T_lt log2_ceil rest_order rest_order_perm
                options _ _ _ _ _ _ HPc Hins) as Hcrowdc.
  pose proof (level_sketch_insert log2_ceil options s1 h c c' Hinv1 Hc HPc')
    as Hinv2.
  pose proof (shares_sketch_insert s1 h c' Hsh1 HSc') as Hsh2.
  pose proof (ensure_level_sums log2_ceil s s1 h 1
                (fun c : Compactor.t T =>
                   Z.of_nat (length (Compactor.buffer c)) + Compactor.C c)
                (fun _ _ _ => eq_refl) He) as Hcrowd1.
  assert (Hnext : wrap64 (h + 1) = h + 1).
  { apply wrap64_small. unfold vector_max_size in Hvec. lia. }
  rewrite Hnext.
  set (s2 := set_compactors s1 (H_ s1) (<[Z.to_nat h := c']> (compactors_ s1)))
    in *.
  assert (Hcrowd2 : crowd (compactors_ s2) + Z.of_nat (length output)
                    <= crowd (compactors_ s) + 1).
  { unfold s2. cbn [compactors_ set_compactors].
    rewrite (level_sum_insert _ _ _ _ _ _ c' Hc), Z.pow_1_l by lia.
    rewrite <- Hcrowd1. lia. }
  assert (Hnowrap : Compactor.C c + 1 < 2 ^ 64).
  { assert (2 ^ m < 2 ^ 64) by (apply Z.pow_lt_mono_r; lia). lia. }
  destruct (Compactor_Insert_flow T_lt log2_ceil rest_order rest_order_perm
              options _ _ _ _ _ _ HPc Hins Hnowrap)
    as (Hrec' & Hpro' & _).
  assert (Hh1 : 0 <= h + 1) by lia.
  apply (for_each_no_fault fuel (h + 1) Hh1
           (fun s0 e0 cn0 Hd0 => IH (h + 1) s0 e0 cn0 (conj Hh1 Hd0))).
  - unfold s2. cbn [H_ set_compactors]. lia.
  - exact Hinv2.
  - exact Hsh2.
  - lia.
  - intros i. unfold s2. cbn [compactors_ set_compactors].
    rewrite (net_inflow_insert _ _ c c' (Z.of_nat (length output)) i
               Hc Hrec' Hpro').
    specialize (Hroom1 i).
    replace (Z.to_nat (h + 1)) with (S (Z.to_nat h)) by lia.
    destruct (Nat.eqb i (S (Z.to_nat h))), (Nat.eqb i (Z.to_nat h)); lia.
  - unfold s2. cbn [compactors_ set_compactors].
    apply (fed_step log2_ceil options s s1 h c c' Hinv He Hc); [|exact Hfed].
    pose proof (received_nonneg c). lia.
Qed.

(** With fuel for 64 levels, a stream the sketch has room for is
    ingested: every insertion returns. *)
Lemma Insert_all_returns_from fuel :
  (65 <= fuel)%nat ->
  forall items (s : t T) coins,
    sketch_inv level options s -> sketch_inv shares options s ->
    crowd (compactors_ s) + Z.of_nat (length items) < 2 ^ 64 - 1 ->
    room 0 (Z.of_nat (length items)) (compactors_ s) ->
    fed (compactors_ s) ->
    exists s' coins',
      Insert_all T_lt log2_ceil rest_order fuel s items coins
      = Returns (s', coins').
Proof.
  intros Hfuel. unfold Insert_all.
  induction items as [|x items IH];
    intros s coins Hinv Hsh Hcrowd Hroom Hfed; cbn [for_each].
  - do 2 eexists. reflexivity.
  - cbn [fst snd]. cbn [length] in Hcrowd, Hroom.
    assert (Hroom1 : room 0 1 (compactors_ s)).
    { intros i. specialize (Hroom i).
      destruct (Nat.eqb i (Z.to_nat 0)); lia. }
    pose proof (depth_small 0 1 s Hinv ltac:(lia) Hroom1 Hfed) as Hdepth.
    pose proof Hinv as (_ & HH & _).
    pose proof (Insert_terminates T_lt log2_ceil rest_order rest_order_perm
                  options k_positive k_even fuel s x coins Hinv ltac:(lia))
      as Hends.
    pose proof (Insert_no_fault fuel 0 s x coins ltac:(lia) Hinv Hsh
                  ltac:(lia) Hroom1 Hfed) as Hsafe.
    destruct (Sketch_Insert fuel s x 0 coins) as [[s1 coins1]|f1|] eqn:Hrun;
      cbn [bind]; [|exfalso; apply (Hsafe f1); reflexivity
                   |exfalso; exact Hends].
    destruct (Insert_crowd T_lt log2_ceil rest_order rest_order_perm options
                k_positive k_even fuel s x 0 coins s1 coins1 Hinv
                (Z.le_refl 0) Hrun) as [Hinv1 Hcrowd1].
    destruct (Insert_flow T_lt log2_ceil rest_order rest_order_perm options
                k_positive k_even fuel 0 s x coins s1 coins1 (Z.le_refl 0)
                Hinv ltac:(lia) Hrun) as [Hflow1 Hfed1].
    apply IH.
    + exact Hinv1.
    + exact (Insert_keeps_shares fuel s x 0 coins s1 coins1 Hsh
               (Z.le_refl 0) Hrun).
    + lia.
    + intros i. specialize (Hroom i). rewrite Hflow1.
      destruct (Nat.eqb i (Z.to_nat 0)); lia.
    + apply Hfed1, Hfed.
Qed.

End Progress.

Section ReturnsTheorem.
Context {T : Type}.
Variable T_lt : T -> T -> bool.
Variable log2_ceil : Z -> Z -> Z.
Variable rest_order : list T -> list T -> list T.
Hypothesis rest_order_perm :
  forall buf rest, Permutation (rest_order buf rest) rest.

Import RelativeErrorQuantilesSketch.

(** X28. Streams the sketch was sized for are ingested without a fault.
    Let the constructor have computed [m] sections, [1 <= m < 64], with
    [2 * k * m < 2^63], for a positive even section size [k]. Then
    inserting [N <= k * (2^m - 1)] items at level 0 into a fresh sketch
    returns, whatever the items and the coins: no compaction asks
    [std::partial_sort] for more than the buffer holds, no vector
    outgrows its maximal size, no level is indexed that does not exist,
    and a recursion depth of 65 is enough. *)
Theorem Insert_all_returns options m fuel items coins :
  0 < k options -> Z.even (k options) = true ->
  log2_ceil (n options) (k options) = m -> 1 <= m < 64 ->
  2 * k options * m < 2 ^ 63 ->
  Z.of_nat (length items) <= k options * (2 ^ m - 1) ->
  Z.of_nat (length items) < 2 ^ 64 - 2 ->
  (65 <= fuel)%nat ->
  exists (s : t T) coins',
    Insert_all T_lt log2_ceil rest_order fuel (new log2_ceil options) items coins
    = Returns (s, coins').
Proof.
  intros Hk0 Heven Hm Hm64 Hcap HN Hlen Hfuel.
  assert (Hk : 0 < k options < 2 ^ 64) by nia.
  apply (Insert_all_returns_from T_lt log2_ceil rest_order rest_order_perm
           options Hk Heven m Hm Hm64 Hcap (Z.of_nat (length items)) HN Hlen
           fuel Hfuel).
  - apply new_sketch_inv. intros h. apply new_level_ok; assumption.
  - apply new_sketch_inv. intros h. apply shares_new.
  - cbn. lia.
  - intros i. change (Z.to_nat 0) with 0%nat.
    assert (H0 : net_inflow (compactors_ (new (T:=T) log2_ceil options)) i
                 = 0).
    { destruct i as [|[|i]]; reflexivity. }
    rewrite H0. destruct (Nat.eqb i 0); lia.
  - cbn [new compactors_]. intros i c Hi. destruct i; discriminate.
Qed.

End ReturnsTheorem.

(** * Instances *)

Lemma rev_order_perm {T} (buf rest : list T) : Permutation (rev rest) rest.
Proof. symmetry. apply Permutation_rev. Qed.


Lemma Close_weighs_levels_witness :
  exists s coins' s',
    IntSketch.Insert_all 10 (IntSketch.new 8 2) (IntSketch.range 0 12)
      (srepeat true) = Returns (s, coins')
    /\ IntSketch.Close s = Returns s'
    /\ RelativeErrorQuantilesSketch.TotalWeight s'
       = RelativeErrorQuantilesSketch.accumulate_weight
           (RelativeErrorQuantilesSketch.weighted_elements_ s)
         + stored_weight 0 (RelativeErrorQuantilesSketch.compactors_ s)
    /\ forall n,
         0 <= RelativeErrorQuantilesSketch.accumulate_weight
                (take n (RelativeErrorQuantilesSketch.weighted_elements_ s'))
           <= 2 ^ 53.
Proof.
  assert (Hrun : exists s coins' s',
             IntSketch.Insert_all 10 (IntSketch.new 8 2) (IntSketch.range 0 12)
               (srepeat true) = Returns (s, coins')
             /\ RelativeErrorQuantilesSketch.weighted_elements_ s = []
             /\ RelativeErrorQuantilesSketch.accumulate_weight
                  (RelativeErrorQuantilesSketch.weighted_elements_ s)
                + stored_weight 0 (RelativeErrorQuantilesSketch.compactors_ s)
                <= 2 ^ 53
             /\ IntSketch.Close s = Returns s').
  { do 3 eexists. split; [vm_compute; reflexivity|].
    split; [vm_compute; reflexivity|].
    split; [vm_compute; discriminate|vm_compute; reflexivity]. }
  destruct Hrun as (s & coins' & s' & Hrun & Hempty & Hbound & Hclose).
  exists s, coins', s'. split; [exact Hrun|]. split; [exact Hclose|].
  apply (Close_weighs_levels Z.ltb (fun _ : Z => false) s s').
  - rewrite Hempty. constructor.
  - exact Hbound.
  - exact Hclose.
Defined.

Lemma Close_twice_doubles_witness :
  exists s coins' s1 s2,
    IntSketch.Insert_all 10 (IntSketch.new 8 2) (IntSketch.range 0 12)
      (srepeat true) = Returns (s, coins')
    /\ IntSketch.Close s = Returns s1
    /\ IntSketch.Close s1 = Returns s2
    /\ length (RelativeErrorQuantilesSketch.weighted_elements_ s2)
       = (2 * length (RelativeErrorQuantilesSketch.weighted_elements_ s1))%nat
    /\ RelativeErrorQuantilesSketch.TotalWeight s2
       = 2 * RelativeErrorQuantilesSketch.TotalWeight s1
    /\ RelativeErrorQuantilesSketch.TotalWeight s2 <= 2 ^ 53.
Proof.
  assert (Hrun : exists s coins' s1,
             IntSketch.Insert_all 10 (IntSketch.new 8 2) (IntSketch.range 0 12)
               (srepeat true) = Returns (s, coins')
             /\ RelativeErrorQuantilesSketch.weighted_elements_ s = []
             /\ 2 * stored_weight 0 (RelativeErrorQuantilesSketch.compactors_ s)
                <= 2 ^ 53
             /\ IntSketch.Close s = Returns s1).
  { do 3 eexists. split; [vm_compute; reflexivity|].
    split; [vm_compute; reflexivity|].
    split; [vm_compute; discriminate|vm_compute; reflexivity]. }
  destruct Hrun as (s & coins' & s1 & Hrun & Hempty & Hbound & Hclose).
  destruct (Close_twice_doubles Z.ltb (fun _ : Z => false) s s1 Hempty Hbound
              Hclose)
    as (s2 & Hclose2 & Hlen & Htotal & Hsmall).
  exists s, coins', s1, s2. repeat split; assumption.
Defined.

Lemma EstimateRank_weight_below_witness :
  exists s coins' s',
    IntSketch.Insert_all 10 (IntSketch.new 8 2) (IntSketch.range 0 12)
      (srepeat true) = Returns (s, coins')
    /\ IntSketch.Close s = Returns s'
    /\ IntSketch.EstimateRank s' 5
       = stored_weight 0
           (map (fun c =>
                   Compactor.set_buffer c
                     (List.filter (fun t => t <? 5) (Compactor.buffer c)))
              (RelativeErrorQuantilesSketch.compactors_ s))
    /\ 0 <= IntSketch.EstimateRank s' 5 <= 2 ^ 53.
Proof.
  assert (Hrun : exists s coins' s',
             IntSketch.Insert_all 10 (IntSketch.new 8 2) (IntSketch.range 0 12)
               (srepeat true) = Returns (s, coins')
             /\ RelativeErrorQuantilesSketch.weighted_elements_ s = []
             /\ RelativeErrorQuantilesSketch.accumulate_weight
                  (RelativeErrorQuantilesSketch.weighted_elements_ s)
                + stored_weight 0 (RelativeErrorQuantilesSketch.compactors_ s)
                <= 2 ^ 53
             /\ IntSketch.Close s = Returns s').
  { do 3 eexists. split; [vm_compute; reflexivity|].
    split; [vm_compute; reflexivity|].
    split; [vm_compute; discriminate|vm_compute; reflexivity]. }
  destruct Hrun as (s & coins' & s' & Hrun & Hempty & Hbound & Hclose).
  exists s, coins', s'. split; [exact Hrun|]. split; [exact Hclose|].
  destruct (EstimateRank_weight_below Z.ltb (fun _ : Z => false)
              Z.ltb_irrefl Z_ltb_trans Z_ltb_cotrans s s' 5)
    as (_ & Hlevels & Hrange).
  - rewrite Hempty. constructor.
  - exact Hbound.
  - exact Hclose.
  - split; [exact (Hlevels Hempty)|exact Hrange].
Defined.

Lemma EstimateRank_monotone_witness :
  exists s coins' s',
    IntSketch.Insert_all 10 (IntSketch.new 8 2) (IntSketch.range 0 12)
      (srepeat true) = Returns (s, coins')
    /\ IntSketch.Close s = Returns s'
    /\ 0 <= IntSketch.EstimateRank s' 5
         <= RelativeErrorQuantilesSketch.TotalWeight s'
    /\ IntSketch.EstimateRank s' 5 <= IntSketch.EstimateRank s' 7.
Proof.
  assert (Hrun : exists s coins' s',
             IntSketch.Insert_all 10 (IntSketch.new 8 2) (IntSketch.range 0 12)
               (srepeat true) = Returns (s, coins')
             /\ RelativeErrorQuantilesSketch.weighted_elements_ s = []
             /\ IntSketch.Close s = Returns s')
    by (do 3 eexists; split; [vm_compute; reflexivity|];
        split; [vm_compute; reflexivity|vm_compute; reflexivity]).
  destruct Hrun as (s & coins' & s' & Hrun & Hempty & Hclose).
  exists s, coins', s'. split; [exact Hrun|]. split; [exact Hclose|].
  destruct (EstimateRank_monotone Z.ltb (fun _ : Z => false)
              Z.ltb_irrefl Z_ltb_trans Z_ltb_cotrans s s' 5 7 Hempty Hclose)
    as [Hbounds Hmono].
  split; [exact Hbounds|apply Hmono; reflexivity].
Defined.

Lemma Quantiles_ordered_witness :
  exists s coins' s',
    IntSketch.Insert_all 10 (IntSketch.new 8 2) (IntSketch.range 0 12)
      (srepeat true) = Returns (s, coins')
    /\ IntSketch.Close s = Returns s'
    /\ ascending Z.ltb
         (map RelativeErrorQuantilesSketch.q_item (IntSketch.Quantiles s' 4))
    /\ StronglySorted Z.lt
         (map RelativeErrorQuantilesSketch.cumulative_weight
            (IntSketch.Quantiles s' 4))
    /\ Forall
         (fun b =>
            0 < RelativeErrorQuantilesSketch.cumulative_weight b
              <= RelativeErrorQuantilesSketch.TotalWeight s')
         (IntSketch.Quantiles s' 4)
    /\ RelativeErrorQuantilesSketch.TotalWeight s' <= 2 ^ 53.
Proof.
  assert (Hrun : exists s coins' s',
             IntSketch.Insert_all 10 (IntSketch.new 8 2) (IntSketch.range 0 12)
               (srepeat true) = Returns (s, coins')
             /\ RelativeErrorQuantilesSketch.weighted_elements_ s = []
             /\ stored_weight 0 (RelativeErrorQuantilesSketch.compactors_ s)
                <= 2 ^ 53
             /\ IntSketch.Close s = Returns s').
  { do 3 eexists. split; [vm_compute; reflexivity|].
    split; [vm_compute; reflexivity|].
    split; [vm_compute; discriminate|vm_compute; reflexivity]. }
  destruct Hrun as (s & coins' & s' & Hrun & Hempty & Hbound & Hclose).
  exists s, coins', s'. split; [exact Hrun|]. split; [exact Hclose|].
  exact (Quantiles_ordered Z.ltb (fun _ : Z => false) ratio_ge_exact
           Z.ltb_irrefl Z_ltb_trans s s' 4 Hempty Hbound Hclose).
Defined.

Lemma Quantiles_ends_at_maximum_witness :
  exists s coins' s' qs b,
    IntSketch.Insert_all 10 (IntSketch.new 8 2) (IntSketch.range 0 12)
      (srepeat true) = Returns (s, coins')
    /\ IntSketch.Close s = Returns s'
    /\ IntSketch.Quantiles s' 4 = qs ++ [b]
    /\ RelativeErrorQuantilesSketch.cumulative_weight b
       = RelativeErrorQuantilesSketch.TotalWeight s'
    /\ Z.of_nat (length (IntSketch.Quantiles s' 4)) <= 4.
Proof.
  assert (Hrun : exists s coins' s',
             IntSketch.Insert_all 10 (IntSketch.new 8 2) (IntSketch.range 0 12)
               (srepeat true) = Returns (s, coins')
             /\ RelativeErrorQuantilesSketch.weighted_elements_ s = []
             /\ stored_weight 0 (RelativeErrorQuantilesSketch.compactors_ s)
                <= 2 ^ 53
             /\ IntSketch.Close s = Returns s'
             /\ RelativeErrorQuantilesSketch.weighted_elements_ s' <> []).
  { do 3 eexists. split; [vm_compute; reflexivity|].
    split; [vm_compute; reflexivity|].
    split; [vm_compute; discriminate|].
    split; [vm_compute; reflexivity|vm_compute; discriminate]. }
  destruct Hrun as (s & coins' & s' & Hrun & Hempty & Hbound & Hclose & Hne).
  destruct (Quantiles_ends_at_maximum Z.ltb (fun _ : Z => false) ratio_ge_exact
              ratio_ge_exact_at_total ratio_ge_exact_below_total s s' 4
              Hempty Hbound Hclose Hne ltac:(lia))
    as (qs & b & Hq & Hb & _ & _ & Hlen & _).
  exists s, coins', s', qs, b. auto.
Defined.

Lemma compactors_agree_witness :
  exists c1 c2 output,
    Compactor.Insert Z.ltb (@keep_order Z)
      (Compactor.mk 8 2 8 1 0 [3; 7; 1; 5; 0; 6; 2; 4]) 8 (srepeat false)
      = Returns (c1, output, stail (srepeat false))
    /\ Compactor.Insert_cpp Z.ltb (fun _ rest => rev rest)
         (Compactor.mk 8 2 8 1 0 [3; 7; 1; 5; 0; 6; 2; 4]) 8 (srepeat false)
       = Returns (c2, output, stail (srepeat false))
    /\ Permutation (Compactor.buffer c1) (Compactor.buffer c2).
Proof.
  destruct (compactors_agree Z.ltb (@keep_order Z) (fun _ rest => rev rest)
              keep_order_perm rev_order_perm
              (Compactor.mk 8 2 8 1 0 [3; 7; 1; 5; 0; 6; 2; 4]) 8
              (srepeat false))
    as (c1 & c2 & output & H1 & H2 & Hperm & _).
  - unfold uint64. cbn. lia.
  - reflexivity.
  - vm_compute. reflexivity.
  - vm_compute. discriminate.
  - vm_compute. reflexivity.
  - exists c1, c2, output. auto.
Defined.

Lemma compaction_keeps_smallest_witness :
  exists c' kept output,
    Compactor.Insert Z.ltb (@keep_order Z)
      (Compactor.mk 8 2 8 1 0 [3; 7; 1; 5; 0; 6; 2; 4]) 8 (srepeat true)
      = Returns (c', output, stail (srepeat true))
    /\ Compactor.buffer c' = kept ++ [8]
    /\ output = [4; 6]
    /\ ascending Z.ltb output
    /\ Forall (fun x => Forall (fun y => (y <? x) = false) output) kept.
Proof.
  destruct (compaction_keeps_smallest Z.ltb (@keep_order Z) keep_order_perm
              (Compactor.mk 8 2 8 1 0 [3; 7; 1; 5; 0; 6; 2; 4]) 8
              (srepeat true) Z.ltb_irrefl Z_ltb_trans)
    as (c' & kept & output & Hrun & Hbuf & Hout & _ & Hasc & Hle).
  - unfold uint64. cbn. lia.
  - reflexivity.
  - vm_compute. discriminate.
  - vm_compute. reflexivity.
  - exists c', kept, output. auto.
Defined.

Lemma Insert_conserves_items_witness :
  exists c' output coins',
    IntSketch.Compactor_Insert
      (Compactor.mk 8 2 8 1 0 [3; 7; 1; 5; 0; 6; 2; 4]) 8 (srepeat true)
      = Returns (c', output, coins')
    /\ submseteq (Compactor.buffer c' ++ output)
         ([3; 7; 1; 5; 0; 6; 2; 4] ++ [8]).
Proof.
  assert (Hrun : exists r,
             IntSketch.Compactor_Insert
               (Compactor.mk 8 2 8 1 0 [3; 7; 1; 5; 0; 6; 2; 4]) 8
               (srepeat true) = Returns r)
    by (eexists; vm_compute; reflexivity).
  destruct Hrun as [[[c' output] coins'] Hrun].
  exists c', output, coins'. split; [exact Hrun|].
  exact (Insert_conserves_items Z.ltb (@keep_order Z) keep_order_perm
           _ _ _ _ _ _ Hrun).
Defined.

Lemma Insert_over_capacity_witness :
  IntSketch.Compactor_Insert
    (Compactor.mk 8 2 8 15 0 [0; 1; 2; 3; 4; 5; 6; 7]) 8 (srepeat true)
  = Fault PartialSortRange
  /\ Compactor.Insert_cpp Z.ltb (@keep_order Z)
       (Compactor.mk 8 2 8 15 0 [0; 1; 2; 3; 4; 5; 6; 7]) 8 (srepeat true)
     = Fault PartialSortRange.
Proof.
  apply (Insert_over_capacity Z.ltb (@keep_order Z) keep_order_perm
           (Compactor.mk 8 2 8 15 0 [0; 1; 2; 3; 4; 5; 6; 7]) 8 (srepeat true)).
  - unfold uint64. cbn. lia.
  - reflexivity.
  - vm_compute. reflexivity.
Defined.

Lemma schedule_ruler_witness :
  Compactor.sections_to_compact 6 = 1
  /\ Compactor.sections_to_compact 7 = Compactor.sections_to_compact 3 + 1
  /\ 1 <= Compactor.sections_to_compact 3 <= 65.
Proof. apply (schedule_ruler 3); lia. Defined.

Lemma reachable_levels_witness :
  exists s coins',
    IntSketch.Insert_all 10 (IntSketch.new 8 2) (IntSketch.range 0 12)
      (srepeat true) = Returns (s, coins')
    /\ Z.of_nat (length (RelativeErrorQuantilesSketch.compactors_ s))
       = RelativeErrorQuantilesSketch.Depth s + 1
    /\ (forall i c,
          RelativeErrorQuantilesSketch.compactors_ s !! i = Some c ->
          Compactor.h c = Z.of_nat i /\ Compactor.k c = 2
          /\ Compactor.n c = 8 /\ Compactor.max_buffer_size c = 8).
Proof.
  assert (Hrun : exists r,
             IntSketch.Insert_all 10 (IntSketch.new 8 2) (IntSketch.range 0 12)
               (srepeat true) = Returns r)
    by (eexists; vm_compute; reflexivity).
  destruct Hrun as [[s coins'] Hrun].
  exists s, coins'. split; [exact Hrun|].
  destruct (reachable_levels Z.ltb (fun _ : Z => false) log2_ceil_exact
              (@keep_order Z) (RelativeErrorQuantilesSketch.mkOptions 8 2) s)
    as (Hlen & Hlevels & _).
  - apply (Insert_all_reachable Z.ltb log2_ceil_exact (@keep_order Z)
             (RelativeErrorQuantilesSketch.mkOptions 8 2) 10
             (IntSketch.range 0 12) (IntSketch.new 8 2) (srepeat true) s coins');
      [apply sr_new|exact Hrun].
  - split; [exact Hlen|exact Hlevels].
Defined.

Lemma Insert_all_below_capacity_witness :
  exists s c,
    IntSketch.Insert_all 1 (IntSketch.new 8 2) [1; 2; 3] (srepeat true)
      = Returns (s, srepeat true)
    /\ RelativeErrorQuantilesSketch.Depth s = 0
    /\ RelativeErrorQuantilesSketch.compactors_ s = [c]
    /\ Compactor.buffer c = [1; 2; 3]
    /\ Compactor.C c = 0.
Proof.
  apply (Insert_all_below_capacity Z.ltb log2_ceil_exact (@keep_order Z)
           (RelativeErrorQuantilesSketch.mkOptions 8 2) 1 [1; 2; 3]
           (srepeat true)).
  - vm_compute. discriminate.
  - vm_compute. discriminate.
  - lia.
Defined.

Lemma exact_below_capacity_witness :
  exists s s',
    IntSketch.Insert_all 1 (IntSketch.new 8 2) [5; 1; 3] (srepeat true)
      = Returns (s, srepeat true)
    /\ IntSketch.Close s = Returns s'
    /\ RelativeErrorQuantilesSketch.TotalWeight s' = 3
    /\ forall x,
         IntSketch.EstimateRank s' x
         = Z.of_nat (length (List.filter (fun t => t <? x) [5; 1; 3])).
Proof.
  apply (exact_below_capacity Z.ltb (fun _ : Z => false) log2_ceil_exact
           (@keep_order Z) Z.ltb_irrefl Z_ltb_trans Z_ltb_cotrans
           (RelativeErrorQuantilesSketch.mkOptions 8 2) 1 [5; 1; 3]
           (srepeat true)).
  - repeat constructor.
  - vm_compute. discriminate.
  - vm_compute. discriminate.
  - lia.
Defined.

Lemma Insert_adds_at_most_one_level_witness :
  ends_within 1 (IntSketch.Insert 2 (IntSketch.new 8 2) 5 0 (srepeat true))
  /\ forall s' coins',
       IntSketch.Insert 2 (IntSketch.new 8 2) 5 0 (srepeat true)
         = Returns (s', coins') ->
       0 <= RelativeErrorQuantilesSketch.Depth s' <= 1.
Proof.
  apply (Insert_adds_at_most_one_level Z.ltb log2_ceil_exact (@keep_order Z)
           keep_order_perm (RelativeErrorQuantilesSketch.mkOptions 8 2)
           (IntSketch.new 8 2) 5 (srepeat true) 2).
  - cbn. lia.
  - reflexivity.
  - apply sr_new.
  - cbn. lia.
Defined.

Lemma first_overflow_creates_level_witness :
  exists s c0 c1,
    IntSketch.Insert_all 2 (IntSketch.new 8 2) (IntSketch.range 0 8 ++ [8])
      (srepeat true) = Returns (s, stail (srepeat true))
    /\ RelativeErrorQuantilesSketch.Depth s = 1
    /\ RelativeErrorQuantilesSketch.compactors_ s = [c0; c1]
    /\ Z.of_nat (length (Compactor.buffer c0)) = 8 - 2 + 1
    /\ Compactor.C c0 = 1
    /\ Z.of_nat (length (Compactor.buffer c1)) = 2 / 2
    /\ Compactor.C c1 = 0 /\ Compactor.h c1 = 1.
Proof.
  apply (first_overflow_creates_level Z.ltb log2_ceil_exact (@keep_order Z)
           keep_order_perm (RelativeErrorQuantilesSketch.mkOptions 8 2) 2
           (IntSketch.range 0 8) 8 (srepeat true)).
  - reflexivity.
  - vm_compute. split; discriminate.
  - vm_compute. reflexivity.
  - reflexivity.
  - lia.
Defined.

Lemma Insert_adds_level_weight_witness :
  exists s' coins',
    IntSketch.Insert 3 (IntSketch.new 8 2) 5 1 (srepeat true)
      = Returns (s', coins')
    /\ stored_weight 0 (RelativeErrorQuantilesSketch.compactors_ s')
       = stored_weight 0
           (RelativeErrorQuantilesSketch.compactors_ (IntSketch.new 8 2))
         + 2 ^ 1.
Proof.
  assert (Hrun : exists r,
             IntSketch.Insert 3 (IntSketch.new 8 2) 5 1 (srepeat true)
             = Returns r)
    by (eexists; vm_compute; reflexivity).
  destruct Hrun as [[s' coins'] Hrun].
  exists s', coins'. split; [exact Hrun|].
  apply (Insert_adds_level_weight Z.ltb log2_ceil_exact (@keep_order Z)
           keep_order_perm (RelativeErrorQuantilesSketch.mkOptions 8 2)
           (IntSketch.new 8 2) 3 5 1 (srepeat true) s' coins').
  - reflexivity.
  - apply sr_new.
  - unfold uint64. lia.
  - exact Hrun.
Defined.

Lemma depth_lower_bound_witness :
  exists s coins',
    IntSketch.Insert_all 10 (IntSketch.new 8 2) (IntSketch.range 0 12)
      (srepeat true) = Returns (s, coins')
    /\ 12 <= 8 * (2 ^ (RelativeErrorQuantilesSketch.Depth s + 1) - 1).
Proof.
  assert (Hrun : exists r,
             IntSketch.Insert_all 10 (IntSketch.new 8 2) (IntSketch.range 0 12)
               (srepeat true) = Returns r)
    by (eexists; vm_compute; reflexivity).
  destruct Hrun as [[s coins'] Hrun].
  exists s, coins'. split; [exact Hrun|].
  apply (depth_lower_bound Z.ltb log2_ceil_exact (@keep_order Z)
           keep_order_perm (RelativeErrorQuantilesSketch.mkOptions 8 2) 10
           (IntSketch.range 0 12) (srepeat true) s coins').
  - cbn. lia.
  - reflexivity.
  - exact Hrun.
Defined.

Lemma compaction_rank_error_witness :
  exists c' output,
    Compactor.Insert Z.ltb (@keep_order Z)
      (Compactor.mk 8 2 8 1 0 [3; 7; 1; 5; 0; 6; 2; 4]) 8 (srepeat false)
      = Returns (c', output, stail (srepeat false))
    /\ Z.of_nat (length (List.filter (fun t => t <? 6)
                           ([3; 7; 1; 5; 0; 6; 2; 4] ++ [8]))) - 1
       <= Z.of_nat (length (List.filter (fun t => t <? 6) (Compactor.buffer c')))
          + 2 * Z.of_nat (length (List.filter (fun t => t <? 6) output))
       <= Z.of_nat (length (List.filter (fun t => t <? 6)
                              ([3; 7; 1; 5; 0; 6; 2; 4] ++ [8]))).
Proof.
  apply (compaction_rank_error Z.ltb (@keep_order Z) keep_order_perm
           (Compactor.mk 8 2 8 1 0 [3; 7; 1; 5; 0; 6; 2; 4]) 8 (srepeat false)
           6 Z.ltb_irrefl Z_ltb_trans Z_ltb_cotrans).
  - unfold uint64. cbn. lia.
  - reflexivity.
  - vm_compute. discriminate.
  - vm_compute. reflexivity.
  - reflexivity.
  - reflexivity.
Defined.

Lemma compaction_unbiased_witness :
  exists c' heads tails,
    (forall coins, shead coins = true ->
       Compactor.Insert Z.ltb (@keep_order Z)
         (Compactor.mk 8 2 8 1 0 [3; 7; 1; 5; 0; 6; 2; 4]) 8 coins
       = Returns (c', heads, stail coins))
    /\ (forall coins, shead coins = false ->
          Compactor.Insert Z.ltb (@keep_order Z)
            (Compactor.mk 8 2 8 1 0 [3; 7; 1; 5; 0; 6; 2; 4]) 8 coins
          = Returns (c', tails, stail coins))
    /\ Permutation (heads ++ tails) [4; 5; 6; 7].
Proof.
  destruct (compaction_unbiased Z.ltb (@keep_order Z) keep_order_perm
              (Compactor.mk 8 2 8 1 0 [3; 7; 1; 5; 0; 6; 2; 4]) 8)
    as (c' & heads & tails & Hheads & Htails & Hperm & _).
  - unfold uint64. cbn. lia.
  - reflexivity.
  - vm_compute. discriminate.
  - vm_compute. reflexivity.
  - reflexivity.
  - reflexivity.
  - exists c', heads, tails. split; [exact Hheads|]. split; [exact Htails|].
    exact Hperm.
Defined.

Lemma rank_error_bound_witness :
  exists s coins' s',
    IntSketch.Insert_all 10 (IntSketch.new 8 2) (IntSketch.range 0 12)
      (srepeat true) = Returns (s, coins')
    /\ IntSketch.Close s = Returns s'
    /\ Z.abs (IntSketch.EstimateRank s' 5
              - Z.of_nat (length (List.filter (fun t => t <? 5)
                                    (IntSketch.range 0 12))))
       <= level_sum 2 Compactor.C 0
            (RelativeErrorQuantilesSketch.compactors_ s).
Proof.
  assert (Hrun : exists s coins' s',
             IntSketch.Insert_all 10 (IntSketch.new 8 2) (IntSketch.range 0 12)
               (srepeat true) = Returns (s, coins')
             /\ IntSketch.Close s = Returns s'
             /\ Forall schedule_halved
                  (RelativeErrorQuantilesSketch.compactors_ s)).
  { do 3 eexists. split; [vm_compute; reflexivity|].
    split; [vm_compute; reflexivity|].
    apply Forall_cons.
    - intros C' HC'. cbn in HC'.
      assert (HC'' : C' = 0 \/ C' = 1) by lia.
      destruct HC'' as [->| ->]; vm_compute; discriminate.
    - apply Forall_cons; [|apply Forall_nil].
      intros C' HC'. cbn in HC'. lia. }
  destruct Hrun as (s & coins' & s' & Hrun & Hclose & Hhalved).
  exists s, coins', s'. split; [exact Hrun|]. split; [exact Hclose|].
  apply (rank_error_bound Z.ltb (fun _ : Z => false) log2_ceil_exact
           (@keep_order Z) keep_order_perm Z.ltb_irrefl Z_ltb_trans
           Z_ltb_cotrans (RelativeErrorQuantilesSketch.mkOptions 8 2) 10
           (IntSketch.range 0 12) (srepeat true) s coins' s' 5).
  - cbn. lia.
  - reflexivity.
  - cbn. lia.
  - exact Hrun.
  - exact Hhalved.
  - exact Hclose.
Defined.

Lemma schedule_halved_until_witness :
  schedule_halved (Compactor.mk 8 2 8 3 0 [0; 1; 2; 3; 4; 5; 6; 7])
  /\ 8 < 2 * Compactor.elements_to_compact_at 2 (2 ^ 2 - 1)
  /\ Compactor.sections_to_compact (2 ^ 2 - 1) = 2 + 1.
Proof.
  destruct (schedule_halved_until
              (Compactor.mk 8 2 8 3 0 [0; 1; 2; 3; 4; 5; 6; 7]) 2)
    as (Hhalved & Hnext & Hsections).
  - cbn. lia.
  - lia.
  - reflexivity.
  - cbn. lia.
  - split; [apply Hhalved; cbn; lia|]. split; [exact Hnext|exact Hsections].
Defined.

Lemma compactions_bounded_witness :
  exists s coins' c,
    IntSketch.Insert_all 10 (IntSketch.new 8 2) (IntSketch.range 0 12)
      (srepeat true) = Returns (s, coins')
    /\ RelativeErrorQuantilesSketch.compactors_ s !! 1%nat = Some c
    /\ 2 ^ Z.of_nat 1
       * (Z.of_nat (length (Compactor.buffer c)) + 2 * Compactor.C c)
       <= 12.
Proof.
  assert (Hrun : exists s coins' c,
             IntSketch.Insert_all 10 (IntSketch.new 8 2) (IntSketch.range 0 12)
               (srepeat true) = Returns (s, coins')
             /\ RelativeErrorQuantilesSketch.compactors_ s !! 1%nat = Some c).
  { do 3 eexists. split; [vm_compute; reflexivity|].
    vm_compute; reflexivity. }
  destruct Hrun as (s & coins' & c & Hrun & Hc).
  exists s, coins', c. split; [exact Hrun|]. split; [exact Hc|].
  apply (compactions_bounded Z.ltb log2_ceil_exact (@keep_order Z)
           keep_order_perm (RelativeErrorQuantilesSketch.mkOptions 8 2) 10
           (IntSketch.range 0 12) (srepeat true) s coins' 1%nat c).
  - cbn. lia.
  - reflexivity.
  - cbn. lia.
  - exact Hrun.
  - exact Hc.
Defined.

Lemma depth_upper_bound_witness :
  exists s coins',
    IntSketch.Insert_all 10 (IntSketch.new 8 2) (IntSketch.range 0 12)
      (srepeat true) = Returns (s, coins')
    /\ 0 < RelativeErrorQuantilesSketch.Depth s
    /\ 2 ^ (RelativeErrorQuantilesSketch.Depth s - 1) * 8 <= 12.
Proof.
  assert (Hrun : exists s coins',
             IntSketch.Insert_all 10 (IntSketch.new 8 2) (IntSketch.range 0 12)
               (srepeat true) = Returns (s, coins')
             /\ 0 < RelativeErrorQuantilesSketch.Depth s).
  { do 2 eexists. split; [vm_compute; reflexivity|].
    vm_compute; reflexivity. }
  destruct Hrun as (s & coins' & Hrun & Hdepth).
  exists s, coins'. split; [exact Hrun|]. split; [exact Hdepth|].
  apply (depth_upper_bound Z.ltb log2_ceil_exact (@keep_order Z)
           keep_order_perm (RelativeErrorQuantilesSketch.mkOptions 8 2) 10
           (IntSketch.range 0 12) (srepeat true) s coins').
  - cbn. lia.
  - reflexivity.
  - cbn. lia.
  - exact Hrun.
  - exact Hdepth.
Defined.

Lemma rank_error_relative_witness :
  exists s coins' s',
    IntSketch.Insert_all 10 (IntSketch.new 16 2) (IntSketch.range 0 14)
      (srepeat true) = Returns (s, coins')
    /\ IntSketch.Close s = Returns s'
    /\ Forall schedule_halved (RelativeErrorQuantilesSketch.compactors_ s)
    /\ 2 * Z.abs (IntSketch.EstimateRank s' 5
                  - Z.of_nat (length (List.filter (fun t => t <? 5)
                                        (IntSketch.range 0 14))))
       <= (RelativeErrorQuantilesSketch.Depth s + 1) * 14.
Proof.
  assert (Hrun : exists s coins' s',
             IntSketch.Insert_all 10 (IntSketch.new 16 2) (IntSketch.range 0 14)
               (srepeat true) = Returns (s, coins')
             /\ IntSketch.Close s = Returns s').
  { do 3 eexists. split; [vm_compute; reflexivity|].
    vm_compute; reflexivity. }
  destruct Hrun as (s & coins' & s' & Hrun & Hclose).
  exists s, coins', s'. split; [exact Hrun|]. split; [exact Hclose|].
  apply (rank_error_relative Z.ltb (fun _ : Z => false) log2_ceil_exact
           (@keep_order Z) keep_order_perm Z.ltb_irrefl Z_ltb_trans
           Z_ltb_cotrans (RelativeErrorQuantilesSketch.mkOptions 16 2) 3 10
           (IntSketch.range 0 14) (srepeat true) s coins' s' 5).
  - cbn. lia.
  - reflexivity.
  - reflexivity.
  - lia.
  - cbn. lia.
  - cbn. lia.
  - cbn. lia.
  - exact Hrun.
  - exact Hclose.
Defined.

Lemma Insert_all_returns_witness :
  exists s coins',
    IntSketch.Insert_all 65 (IntSketch.new 16 2) (IntSketch.range 0 14)
      (srepeat true) = Returns (s, coins').
Proof.
  apply (Insert_all_returns Z.ltb log2_ceil_exact (@keep_order Z)
           keep_order_perm (RelativeErrorQuantilesSketch.mkOptions 16 2) 3 65
           (IntSketch.range 0 14) (srepeat true)).
  - cbn. lia.
  - reflexivity.
  - reflexivity.
  - lia.
  - cbn. lia.
  - cbn. lia.
  - cbn. lia.
  - lia.
Defined.
